(** * quasiParserGenerator: the scanner and its packrat substrate

    A shallow embedding of [src/scanner.es6]: the regular-expression kit
    ([allRE], [anyRE], [captureRE], [stickyRE]), the token model ([Pos],
    [Token], [tokensInSegment], [tokensInTemplate]), the memoizing
    [Packratter] ([run], [lastFailures]) and the [Scanner] terminals
    ([skip], [rule_SKIP], [eat], [rule_IDENT], ...).

    The host's [RegExp] objects are modelled by a small backtracking
    matcher over the pattern text (module [Host]); a JavaScript string is a
    [string] of one-byte code units; stream positions are [nat]. *)

From Stdlib Require Import List String Ascii Arith Bool Lia DecimalString.
Import ListNotations.

Local Open Scope list_scope.
Set Warnings "-register-all".

(** ** Strings *)

Definition chars (s : string) : list ascii := list_ascii_of_string s.
Definition str (l : list ascii) : string := string_of_list_ascii l.

(** The double-quote and backslash code units. *)
Definition dq : ascii := "034"%char.
Definition bs : ascii := "092"%char.
Definition dqs : string := String dq EmptyString.

(** Decimal rendering of a non-negative integer, as string interpolation
    of a JS number does. *)
Definition string_of_nat (n : nat) : string :=
  NilZero.string_of_uint (Nat.to_uint n).

(** [Array.prototype.join] on strings. *)
Fixpoint join (sep : string) (l : list string) : string :=
  match l with
  | [] => EmptyString
  | [x] => x
  | x :: l' => (x ++ sep ++ join sep l')%string
  end.

(** [String.prototype.slice(from)] and [slice(from, to)] for in-range
    indices. *)
Definition slice_from (s : string) (from : nat) : string :=
  str (skipn from (chars s)).
Definition slice (s : string) (from to : nat) : string :=
  str (firstn (to - from) (skipn from (chars s))).

Definition hex_digit (n : nat) : ascii :=
  if n <? 10 then ascii_of_nat (48 + n) else ascii_of_nat (87 + n).

(** [JSON.stringify] on a string: quotes, and escapes for the quote, the
    backslash and the control characters. *)
Definition json_escape_char (c : ascii) : list ascii :=
  let n := nat_of_ascii c in
  if n =? 34 then [bs; dq]
  else if n =? 92 then [bs; bs]
  else if n =? 8 then [bs; "b"%char]
  else if n =? 12 then [bs; "f"%char]
  else if n =? 10 then [bs; "n"%char]
  else if n =? 13 then [bs; "r"%char]
  else if n =? 9 then [bs; "t"%char]
  else if n <? 32 then
    [bs; "u"%char; "0"%char; "0"%char; hex_digit (n / 16); hex_digit (n mod 16)]
  else [c].

Definition JSON_stringify (s : string) : string :=
  str (dq :: flat_map json_escape_char (chars s) ++ [dq]).

(** ** Outcomes

    A JS computation returns a value, throws, or does not return.  The last
    case is what a model with a recursion budget yields when the budget is
    used up. *)

Inductive error : Type :=
| SyntaxError (msg : string)
| TypeError (msg : string)
| Error (msg : string).

Inductive outcome (A : Type) : Type :=
| Ok (a : A)
| Err (e : error)
| Diverge.
Arguments Ok {A} a.
Arguments Err {A} e.
Arguments Diverge {A}.

Definition obind {A B} (o : outcome A) (f : A -> outcome B) : outcome B :=
  match o with
  | Ok a => f a
  | Err e => Err e
  | Diverge => Diverge
  end.

(** ** The host's regular expressions

    The expressions of the repository are run by the host's engine.  This
    module reads the fragment of the pattern syntax that they use
    (characters, escapes, classes, groups, alternatives, the quantifiers
    [*], [+], [?] and [{n}], the anchors [^] and [$]) and matches it as
    the host does. *)

Module Host.

(** *** Pattern syntax *)

Inductive citem : Type :=
| CChar (c : ascii)
| CRange (lo hi : ascii)
| CDigit (neg : bool)
| CSpace (neg : bool)
| CWord (neg : bool).

Inductive rtok : Type :=
| TChar (c : ascii)
| TSet (neg : bool) (items : list citem)
| TDot | TBol | TEol
| TOpen | TClose | TBar
| TStar | TPlus | TQuest
| TCount (n : nat).

Inductive re : Type :=
| REmpty
| RChar (c : ascii)
| RSet (neg : bool) (items : list citem)
| RDot
| RBol
| REol
| RSeq (a b : re)
| RAlt (a b : re)
| RStar (a : re)
| RPlus (a : re)
| ROpt (a : re)
| RCount (n : nat) (a : re)
| RGroup (a : re)
| RNGroup (a : re).

(** *** Reading a pattern: characters to pattern tokens *)

Inductive catom : Type :=
| AChar (c : ascii)
| ADash
| AItem (i : citem).

Fixpoint mk_items (l : list catom) : list citem :=
  match l with
  | [] => []
  | AChar a :: ADash :: AChar b :: l' => CRange a b :: mk_items l'
  | AChar a :: l' => CChar a :: mk_items l'
  | ADash :: l' => CChar "-"%char :: mk_items l'
  | AItem i :: l' => i :: mk_items l'
  end.

Definition is_digit (c : ascii) : bool :=
  let n := nat_of_ascii c in (48 <=? n) && (n <=? 57).
Definition is_upper (c : ascii) : bool :=
  let n := nat_of_ascii c in (65 <=? n) && (n <=? 90).
Definition is_lower (c : ascii) : bool :=
  let n := nat_of_ascii c in (97 <=? n) && (n <=? 122).
Definition is_alnum (c : ascii) : bool :=
  is_digit c || is_upper c || is_lower c.
Definition is_word (c : ascii) : bool :=
  is_alnum c || (c =? "_")%char.
Definition is_space (c : ascii) : bool :=
  let n := nat_of_ascii c in
  ((9 <=? n) && (n <=? 13)) || (n =? 32) || (n =? 160).
Definition is_line_terminator (c : ascii) : bool :=
  let n := nat_of_ascii c in (n =? 10) || (n =? 13).

(** The class escapes and control escapes shared by both contexts. *)
Definition esc_common (c : ascii) : option catom :=
  if (c =? "d")%char then Some (AItem (CDigit false))
  else if (c =? "D")%char then Some (AItem (CDigit true))
  else if (c =? "s")%char then Some (AItem (CSpace false))
  else if (c =? "S")%char then Some (AItem (CSpace true))
  else if (c =? "w")%char then Some (AItem (CWord false))
  else if (c =? "W")%char then Some (AItem (CWord true))
  else if (c =? "n")%char then Some (AChar "010"%char)
  else if (c =? "t")%char then Some (AChar "009"%char)
  else if (c =? "r")%char then Some (AChar "013"%char)
  else if (c =? "f")%char then Some (AChar "012"%char)
  else if (c =? "v")%char then Some (AChar "011"%char)
  else if is_alnum c then None
  else Some (AChar c).

(** An escape inside a class; there [\b] is the backspace. *)
Definition esc_class (c : ascii) : option catom :=
  if (c =? "b")%char then Some (AChar "008"%char) else esc_common c.

Definition tok_of_atom (a : catom) : rtok :=
  match a with
  | AChar c => TChar c
  | ADash => TChar "-"%char
  | AItem i => TSet false [i]
  end.

(** An escape outside a class; word boundaries, back references and
    numeric escapes are outside the modelled fragment. *)
Definition esc_tok (c : ascii) : option rtok :=
  option_map tok_of_atom (esc_common c).

Definition plain_tok (c : ascii) : rtok :=
  if (c =? ".")%char then TDot
  else if (c =? "^")%char then TBol
  else if (c =? "$")%char then TEol
  else if (c =? "(")%char then TOpen
  else if (c =? ")")%char then TClose
  else if (c =? "|")%char then TBar
  else if (c =? "*")%char then TStar
  else if (c =? "+")%char then TPlus
  else if (c =? "?")%char then TQuest
  else TChar c.

Inductive lmode : Type :=
| LNormal
| LEsc
| LClassStart
| LClass (neg : bool) (acc : list catom)
| LClassEsc (neg : bool) (acc : list catom)
| LCount (acc : option nat).

Definition class_step (neg : bool) (acc : list catom) (c : ascii)
  : lmode * option rtok :=
  if (c =? "]")%char then (LNormal, Some (TSet neg (mk_items (rev acc))))
  else if (c =? bs)%char then (LClassEsc neg acc, None)
  else if (c =? "-")%char then (LClass neg (ADash :: acc), None)
  else (LClass neg (AChar c :: acc), None).

(** One character of the pattern text: the next mode and the token
    completed by this character, if any.  [None] is a pattern outside the
    modelled fragment. *)
Definition lstep (m : lmode) (c : ascii) : option (lmode * option rtok) :=
  match m with
  | LNormal =>
      if (c =? bs)%char then Some (LEsc, None)
      else if (c =? "[")%char then Some (LClassStart, None)
      else if (c =? "{")%char then Some (LCount None, None)
      else Some (LNormal, Some (plain_tok c))
  | LEsc =>
      match esc_tok c with
      | Some t => Some (LNormal, Some t)
      | None => None
      end
  | LClassStart =>
      if (c =? "^")%char then Some (LClass true [], None)
      else Some (class_step false [] c)
  | LClass neg acc => Some (class_step neg acc c)
  | LClassEsc neg acc =>
      match esc_class c with
      | Some a => Some (LClass neg (a :: acc), None)
      | None => None
      end
  | LCount acc =>
      if is_digit c then
        Some (LCount (Some (10 * match acc with Some n => n | None => 0 end
                            + (nat_of_ascii c - 48))), None)
      else if (c =? "}")%char then
        match acc with
        | Some n => Some (LNormal, Some (TCount n))
        | None => None
        end
      else None
  end.

Definition emit (ot : option rtok) (ts : list rtok) : list rtok :=
  match ot with
  | Some t => t :: ts
  | None => ts
  end.

Fixpoint lex_go (m : lmode) (s : list ascii) : option (list rtok) :=
  match s with
  | [] => match m with LNormal => Some [] | _ => None end
  | c :: s' =>
      match lstep m c with
      | None => None
      | Some (m', ot) => option_map (emit ot) (lex_go m' s')
      end
  end.

Definition lex (s : list ascii) : option (list rtok) := lex_go LNormal s.

(** *** Reading a pattern: parentheses *)

Inductive rtree : Type :=
| RLeaf (t : rtok)
| RNode (ch : list rtree).

(** [stack] holds the enclosing open groups, [cur] the current one, both
    most recent first. *)
Fixpoint build (stack : list (list rtree)) (cur : list rtree)
    (ts : list rtok) : option (list rtree) :=
  match ts with
  | [] => match stack with [] => Some (rev cur) | _ => None end
  | TOpen :: ts' => build (cur :: stack) [] ts'
  | TClose :: ts' =>
      match stack with
      | [] => None
      | par :: stack' => build stack' (RNode (rev cur) :: par) ts'
      end
  | t :: ts' => build stack (RLeaf t :: cur) ts'
  end.

(** *** Reading a pattern: alternatives, sequences and quantifiers *)

Inductive item : Type :=
| ILeaf (t : rtok)
| IAtom (r : re).

Fixpoint mk_seq (l : list re) : re :=
  match l with
  | [] => REmpty
  | [a] => a
  | a :: l' => RSeq a (mk_seq l')
  end.

Fixpoint mk_alt (l : list re) : re :=
  match l with
  | [] => REmpty
  | [a] => a
  | a :: l' => RAlt a (mk_alt l')
  end.

(** [alts]: the finished alternatives; [sq]: the atoms of the current one;
    both most recent first.  [canq]: the last atom may take a
    quantifier. *)
Fixpoint asm (its : list item) (alts sq : list re) (canq : bool)
  : option re :=
  match its with
  | [] => Some (mk_alt (rev (mk_seq (rev sq) :: alts)))
  | it :: its' =>
      let quant (q : re -> re) :=
        match canq, sq with
        | true, a :: sq' => asm its' alts (q a :: sq') false
        | _, _ => None
        end in
      match it with
      | IAtom r => asm its' alts (r :: sq) true
      | ILeaf (TChar c) => asm its' alts (RChar c :: sq) true
      | ILeaf (TSet n l) => asm its' alts (RSet n l :: sq) true
      | ILeaf TDot => asm its' alts (RDot :: sq) true
      | ILeaf TBol => asm its' alts (RBol :: sq) false
      | ILeaf TEol => asm its' alts (REol :: sq) false
      | ILeaf TBar => asm its' (mk_seq (rev sq) :: alts) [] false
      | ILeaf TStar => quant RStar
      | ILeaf TPlus => quant RPlus
      | ILeaf TQuest => quant ROpt
      | ILeaf (TCount n) => quant (RCount n)
      | ILeaf TOpen => None
      | ILeaf TClose => None
      end
  end.

Definition assemble (its : list item) : option re := asm its [] [] false.

(** A parenthesised group: [(?:...)] does not capture; the other [(?]
    forms are outside the modelled fragment. *)
Definition group_of (its : list item) : option item :=
  match its with
  | ILeaf TQuest :: ILeaf (TChar ":") :: rest =>
      option_map (fun r => IAtom (RNGroup r)) (assemble rest)
  | ILeaf TQuest :: _ => None
  | _ => option_map (fun r => IAtom (RGroup r)) (assemble its)
  end.

Fixpoint item_of (t : rtree) : option item :=
  match t with
  | RLeaf k => Some (ILeaf k)
  | RNode ch =>
      match
        (fix all (l : list rtree) : option (list item) :=
           match l with
           | [] => Some []
           | x :: l' =>
               match item_of x, all l' with
               | Some i, Some its' => Some (i :: its')
               | _, _ => None
               end
           end) ch
      with
      | Some its => group_of its
      | None => None
      end
  end.

Fixpoint items_of (l : list rtree) : option (list item) :=
  match l with
  | [] => Some []
  | x :: l' =>
      match item_of x, items_of l' with
      | Some i, Some its' => Some (i :: its')
      | _, _ => None
      end
  end.

Definition parse_tokens (ts : list rtok) : option re :=
  match build [] [] ts with
  | None => None
  | Some f =>
      match items_of f with
      | None => None
      | Some its => assemble its
      end
  end.

Definition parse (src : string) : option re :=
  match lex (chars src) with
  | None => None
  | Some ts => parse_tokens ts
  end.

(** *** Matching

    A backtracking matcher in continuation-passing style, following the
    pattern semantics of ECMAScript: alternatives in order, greedy
    quantifiers, an optional iteration that consumes nothing is rejected,
    and the captures inside a quantified atom are cleared on each
    iteration. *)

Record Flags : Type := mkFlags {
  f_global : bool;
  f_ignoreCase : bool;
  f_multiline : bool;
  f_sticky : bool
}.

Definition no_flags : Flags := mkFlags false false false false.

Fixpoint ngroups (r : re) : nat :=
  match r with
  | RSeq a b | RAlt a b => ngroups a + ngroups b
  | RStar a | RPlus a | ROpt a | RCount _ a | RNGroup a => ngroups a
  | RGroup a => S (ngroups a)
  | _ => 0
  end.

(** Captures: group number to the span [(start, end)] it matched. *)
Definition caps : Type := list (nat * (nat * nat)).

Definition set_cap (g : nat) (sp : nat * nat) (c : caps) : caps :=
  (g, sp) :: filter (fun p => negb (fst p =? g)) c.

Definition get_cap (g : nat) (c : caps) : option (nat * nat) :=
  option_map snd (find (fun p => fst p =? g) c).

(** Drop the captures numbered [g .. g+n-1]. *)
Definition clear_caps (g n : nat) (c : caps) : caps :=
  filter (fun p => negb ((g <=? fst p) && (fst p <? g + n))) c.

Definition to_upper (c : ascii) : ascii :=
  if is_lower c then ascii_of_nat (nat_of_ascii c - 32) else c.
Definition to_lower (c : ascii) : ascii :=
  if is_upper c then ascii_of_nat (nat_of_ascii c + 32) else c.

Section Matcher.

(** The two flags that bear on matching: [ignoreCase] and [multiline]. *)
Variables icase multi : bool.
Variable s : list ascii.

Definition canon (c : ascii) : ascii :=
  if icase then to_upper c else c.

Definition in_range (lo hi x : ascii) : bool :=
  (nat_of_ascii lo <=? nat_of_ascii x) && (nat_of_ascii x <=? nat_of_ascii hi).

Definition in_item (x : ascii) (i : citem) : bool :=
  match i with
  | CChar c => (canon x =? canon c)%char
  | CRange lo hi =>
      if icase
      then in_range lo hi x || in_range lo hi (to_upper x)
           || in_range lo hi (to_lower x)
      else in_range lo hi x
  | CDigit neg => xorb neg (is_digit x)
  | CSpace neg => xorb neg (is_space x)
  | CWord neg => xorb neg (is_word x)
  end.

Definition in_set (neg : bool) (items : list citem) (x : ascii) : bool :=
  xorb neg (existsb (in_item x) items).

Definition at_bol (i : nat) : bool :=
  match i with
  | 0 => true
  | S j =>
      multi &&
      match nth_error s j with
      | Some c => is_line_terminator c
      | None => false
      end
  end.

Definition at_eol (i : nat) : bool :=
  match nth_error s i with
  | None => List.length s <=? i
  | Some c => multi && is_line_terminator c
  end.

Definition result : Type := option (nat * caps).
Definition cont : Type := nat -> caps -> result.

Definition one_char (p : ascii -> bool) (i : nat) (c : caps) (k : cont)
  : result :=
  match nth_error s i with
  | Some x => if p x then k (S i) c else None
  | None => None
  end.

Definition orelse (a b : result) : result :=
  match a with
  | Some r => Some r
  | None => b
  end.

(** Greedy iteration of [step]: at most [n] further rounds, each of which
    must consume something, then [k]. *)
Fixpoint star_loop (step : nat -> caps -> cont -> result) (k : cont)
    (n : nat) (i : nat) (c : caps) {struct n} : result :=
  match n with
  | 0 => k i c
  | S n' =>
      orelse
        (step i c (fun j c' => if j =? i then None else star_loop step k n' j c'))
        (k i c)
  end.

(** Exactly [n] rounds of [step], then [k]. *)
Fixpoint rep_loop (step : nat -> caps -> cont -> result) (k : cont)
    (n : nat) (i : nat) (c : caps) {struct n} : result :=
  match n with
  | 0 => k i c
  | S n' => step i c (fun j c' => rep_loop step k n' j c')
  end.

(** [m r g i c k]: match [r], whose first capturing group has number [g],
    at offset [i] with captures [c], then continue with [k]. *)
Fixpoint m (r : re) (g : nat) (i : nat) (c : caps) (k : cont) {struct r}
  : result :=
  match r with
  | REmpty => k i c
  | RChar ch => one_char (fun x => (canon x =? canon ch)%char) i c k
  | RSet neg items => one_char (in_set neg items) i c k
  | RDot => one_char (fun x => negb (is_line_terminator x)) i c k
  | RBol => if at_bol i then k i c else None
  | REol => if at_eol i then k i c else None
  | RSeq a b => m a g i c (fun j c' => m b (g + ngroups a) j c' k)
  | RAlt a b => orelse (m a g i c k) (m b (g + ngroups a) i c k)
  | RGroup a => m a (S g) i c (fun j c' => k j (set_cap g (i, j) c'))
  | RNGroup a => m a g i c k
  | RStar a =>
      star_loop (fun i c k' => m a g i (clear_caps g (ngroups a) c) k')
        k (List.length s) i c
  | RPlus a =>
      m a g i (clear_caps g (ngroups a) c)
        (star_loop (fun i c k' => m a g i (clear_caps g (ngroups a) c) k')
           k (List.length s))
  | ROpt a =>
      orelse
        (m a g i (clear_caps g (ngroups a) c)
           (fun j c' => if j =? i then None else k j c'))
        (k i c)
  | RCount n a =>
      rep_loop (fun i c k' => m a g i (clear_caps g (ngroups a) c) k')
        k n i c
  end.

(** A match of the whole pattern starting exactly at [i]. *)
Definition match_at (r : re) (i : nat) : result :=
  m r 1 i [] (fun j c => Some (j, c)).

(** The leftmost match at or after [i]: [fuel] offsets are tried. *)
Fixpoint search (r : re) (fuel : nat) (i : nat) : option (nat * (nat * caps)) :=
  match match_at r i with
  | Some (j, c) => Some (i, (j, c))
  | None =>
      match fuel with
      | 0 => None
      | S fuel' => search r fuel' (S i)
      end
  end.

End Matcher.

(** *** RegExp objects *)

Record RegExp : Type := mkRegExp {
  source : string;
  flags : Flags
}.

(** The [flags] accessor's text. *)
Definition flags_string (f : Flags) : string :=
  ((if f_global f then "g" else "") ++
   (if f_ignoreCase f then "i" else "") ++
   (if f_multiline f then "m" else "") ++
   (if f_sticky f then "y" else ""))%string.

(** [RegExp.prototype.toString]. *)
Definition RegExp_toString (R : RegExp) : string :=
  ("/" ++ source R ++ "/" ++ flags_string (flags R))%string.

(** [RegExp(pattern, flags)]: the empty pattern reads back as [(?:)]. *)
Definition RegExp_new (pattern : string) (f : Flags) : RegExp :=
  mkRegExp (if String.eqb pattern "" then "(?:)" else pattern)%string f.

(** The array returned by [exec]: [groups] holds the whole match at index
    0 and then each capturing group, [None] for one that did not take
    part. *)
Record MatchArr : Type := mkMatchArr {
  index : nat;
  groups : list (option string)
}.

Definition span_text (str0 : string) (sp : option (nat * nat))
  : option string :=
  option_map (fun p => slice str0 (fst p) (snd p)) sp.

Definition mk_arr (str0 : string) (r : re) (i j : nat) (c : caps)
  : MatchArr :=
  mkMatchArr i
    (Some (slice str0 i j) ::
     map (fun g => span_text str0 (get_cap g c)) (seq 1 (ngroups r))).

(** [RegExp.prototype.exec] with the [lastIndex] property passed in and
    out.  A global or sticky expression starts at [lastIndex], stores the
    end of the match there, and resets it to 0 when there is no match; a
    sticky one matches only at the start offset.  A pattern outside the
    modelled fragment matches nothing. *)
Definition exec (R : RegExp) (str0 : string) (lastIndex : nat)
  : option MatchArr * nat :=
  let f := flags R in
  let s := chars str0 in
  let stateful := f_global f || f_sticky f in
  let start := if stateful then lastIndex else 0 in
  let fail := (None, if stateful then 0 else lastIndex) in
  if List.length s <? start then fail
  else
    match parse (source R) with
    | None => fail
    | Some r =>
        let found :=
          if f_sticky f
          then option_map (fun p => (start, p))
                 (match_at (f_ignoreCase f) (f_multiline f) s r start)
          else search (f_ignoreCase f) (f_multiline f) s r
                 (List.length s - start) start in
        match found with
        | None => fail
        | Some (i, (j, c)) =>
            (Some (mk_arr str0 r i j c), if stateful then j else lastIndex)
        end
    end.

(** [RegExp.prototype.test] on an expression whose [lastIndex] is 0, as
    it is on one just built. *)
Definition test (R : RegExp) (str0 : string) : bool :=
  match fst (exec R str0 0) with
  | Some _ => true
  | None => false
  end.

End Host.

Import Host.

(** ** The regular-expression kit *)

(** What a template hole of the [re] tag holds. *)
Inductive sub : Type :=
| SubRe (R : RegExp)
| SubStr (s : string).

(** Modelled from the spec: the pattern characters that [re] escapes in an
    interpolated string. *)
Definition re_special (c : ascii) : bool :=
  existsb (fun x => (x =? c)%char) (chars "/\^$*+?.()|[]{}").

(** Modelled from the spec: an interpolated string, escaped. *)
Definition re_escape (s : string) : string :=
  str (flat_map (fun c => if re_special c then [bs; c] else [c]) (chars s)).

(** Modelled from the spec: what the [re] template tag of
    [src/qregexp.es6], which is absent, puts in place of a hole.  Section
    4.1 asks that the anchored form of [R] be equivalent to [R] on the whole
    string and that the capture form be [R] inside one group, so an
    interpolated expression stands as a unit: its source inside a
    non-capturing group.  Section 4.5 lets a string pattern match the token
    of that very text, so an interpolated string stands for itself, its
    pattern characters escaped. *)
Definition re_subst (x : sub) : string :=
  match x with
  | SubRe R => ("(?:" ++ source R ++ ")")%string
  | SubStr s => re_escape s
  end.

(** Modelled from the spec: the raw segments with the holes filled in. *)
Fixpoint re_parts (raw : list string) (subs : list sub) : string :=
  match raw, subs with
  | [], _ => EmptyString
  | t :: _, [] => t
  | t :: raw', x :: subs' => (t ++ re_subst x ++ re_parts raw' subs')%string
  end.

(** Modelled from the spec: [re(flags)`...`], the expression whose source
    is the raw template text with the holes filled in as above. *)
Definition re_tag (f : Flags) (raw : list string) (subs : list sub)
  : RegExp :=
  RegExp_new (re_parts raw subs) f.

(** [re`...`] without holes or flags. *)
Definition re_lit (raw : string) : RegExp := re_tag no_flags [raw] [].

Definition SPACE_RE : RegExp := re_lit "\s+".
Definition NUMBER_RE : RegExp := re_lit "-?\d+(?:\.\d+)?(?:[eE]-?\d+)?".
Definition UCODE_RE : RegExp := re_lit "\\u[\da-fA-F]{4}".
Definition CHAR_RE : RegExp :=
  re_tag no_flags
    [("[^\" ++ dqs ++ "\\]|\\" ++ dqs ++ "|\\\\|\\\/|\\b|\\f|\\n|\\r|\\t|")%string;
     EmptyString]
    [SubRe UCODE_RE].
Definition STRING_RE : RegExp :=
  re_tag no_flags [("\" ++ dqs)%string; ("*\" ++ dqs)%string] [SubRe CHAR_RE].
Definition IDENT_RE : RegExp := re_lit "[a-zA-Z_\$][\w\$]*".

Definition SINGLE_OP : RegExp := re_lit "[\[\]\(\){},;]".
Definition MULTI_OP : RegExp := re_lit "[:~@%&+=*<>.?|\\\-\^\/]+".
Definition LINE_COMMENT_RE : RegExp := re_lit "#.*\n".

(** A terminal pattern: a literal string or an expression. *)
Inductive patt : Type :=
| PStr (s : string)
| PRe (R : RegExp).

(** [RE.flags] and [${RE}] for either kind of pattern; a string has no
    [flags] property. *)
Definition patt_flags (p : patt) : Flags :=
  match p with
  | PStr _ => no_flags
  | PRe R => flags R
  end.

Definition sub_of_patt (p : patt) : sub :=
  match p with
  | PStr s => SubStr s
  | PRe R => SubRe R
  end.

(** Like RE but must match entire string. *)
Definition allRE (RE : patt) : RegExp :=
  re_tag (patt_flags RE) ["^"; "$"]%string [sub_of_patt RE].

(** Matches if it matches any of the argument RegExps. *)
Definition anyRE (REs : list RegExp) : RegExp :=
  RegExp_new (join "|" (map source REs)) no_flags.

(** Turn RE into a capture group. *)
Definition captureRE (RE : RegExp) : RegExp :=
  re_tag (flags RE) ["("; ")"]%string [SubRe RE].

(** Like RE but as if the sticky ('y') flag is on.  [RE.flags + 'y'] names
    the flag twice when [RE] is sticky already, which the constructor
    rejects. *)
Definition stickyRE (RE : RegExp) : outcome RegExp :=
  let f := flags RE in
  if f_sticky f
  then Err (SyntaxError "Invalid flags supplied to RegExp constructor")
  else Ok (RegExp_new (source RE)
             (mkFlags (f_global f) (f_ignoreCase f) (f_multiline f) true)).

(** The emulation for a host without the sticky flag: the global form of
    the expression, with an [exec] that rejects a match found further on. *)
Definition stickyREShim (RE : RegExp) : outcome RegExp :=
  let f := flags RE in
  if f_global f
  then Err (SyntaxError "Invalid flags supplied to RegExp constructor")
  else Ok (RegExp_new (source RE)
             (mkFlags true (f_ignoreCase f) (f_multiline f) (f_sticky f))).

Definition stickyExec (this : RegExp) (str0 : string) (lastIndex : nat)
  : option MatchArr * nat :=
  let start := lastIndex in
  let (arr, lastIndex') := exec this str0 lastIndex in
  match arr with
  | None => (None, lastIndex')
  | Some a =>
      if negb (index a =? start) then (None, 0) else (Some a, lastIndex')
  end.

(** Breaks a string into tokens for cheap ad hoc DSLs. *)
Definition TOKEN_RE : RegExp :=
  captureRE (anyRE [SPACE_RE; NUMBER_RE; STRING_RE; IDENT_RE;
                    SINGLE_OP; MULTI_OP; LINE_COMMENT_RE]).

(** ** Positions and tokens *)

(** A position of a token in a template of a template string. *)
Record Pos : Type := mkPos {
  segmentNum : nat;
  start : nat;
  after : nat
}.

Definition Pos_toString (p : Pos) : string :=
  ("#" ++ string_of_nat (segmentNum p) ++ "@" ++ string_of_nat (start p)
   ++ ":" ++ string_of_nat (after p))%string.

Record Token : Type := mkToken {
  text : string;
  pos : Pos
}.

Definition Token_toString (t : Token) : string :=
  (JSON_stringify (text t) ++ " at " ++ Pos_toString (pos t))%string.

(** An element of the token stream: a token record or a bare hole
    number. *)
Inductive element : Type :=
| Tok (t : Token)
| Hole (n : nat).

(** The loop of [tokensInSegment].  [RE] is the sticky expression; its
    [lastIndex] is the loop variable [lastIndex].  [arr[1]] is part of the
    match that ends at [lastIndex], so [lastIndex - text.length] does not
    go below 0.  [fuel] bounds the iterations. *)
Fixpoint tokens_loop (fuel : nat) (segmentNum : nat) (segment : string)
    (RE : RegExp) (lastIndex expectedIndex : nat) (result : list Token)
  : outcome (list Token) :=
  if lastIndex <? String.length segment then
    match fuel with
    | 0 => Diverge
    | S fuel' =>
        let (arr, lastIndex') := exec RE segment lastIndex in
        match arr with
        | None =>
            let badTok :=
              mkToken (slice_from segment lastIndex')
                (mkPos segmentNum lastIndex' (String.length segment)) in
            Err (SyntaxError ("Unexpected: " ++ Token_toString badTok))
        | Some a =>
            match nth 1 (groups a) None with
            | None =>
                Err (TypeError "Cannot read property 'length' of undefined")
            | Some text =>
                let actualStart := lastIndex' - String.length text in
                let tok :=
                  mkToken text (mkPos segmentNum actualStart lastIndex') in
                if negb (expectedIndex =? actualStart) then
                  Err (Error ("Internal: " ++ Token_toString tok
                              ++ " expected at "
                              ++ string_of_nat expectedIndex))
                else
                  tokens_loop fuel' segmentNum segment RE lastIndex'
                    lastIndex' (result ++ [tok])
            end
        end
    end
  else Ok result.

(** [Token.tokensInSegment].  An iteration that returns to the loop head
    has moved [lastIndex] forward or left the loop in the same state for
    ever, so one round per character of the segment is budget enough. *)
Definition tokensInSegment (segmentNum : nat) (segment : string)
    (RE : RegExp) : outcome (list Token) :=
  obind (stickyRE RE) (fun RE' =>
    tokens_loop (String.length segment) segmentNum segment RE' 0 0 []).

(** The loop of [tokensInTemplate] from segment [segnum] on; [segs] are
    the segments still to do, so [segnum < numSubs] holds exactly when
    another segment follows. *)
Fixpoint template_loop (segnum : nat) (segs : list string) (RE : RegExp)
  : outcome (list element) :=
  match segs with
  | [] => Ok []
  | seg :: rest =>
      obind (tokensInSegment segnum seg RE) (fun toks =>
        let hole := match rest with [] => [] | _ :: _ => [Hole segnum] end in
        obind (template_loop (S segnum) rest RE) (fun more =>
          Ok (map Tok toks ++ hole ++ more)))
  end.

(** Interleaved token records extracted from the segments of the
    template, and bare hole numbers representing the gap between
    templates. *)
Definition tokensInTemplate (template : list string) (RE : RegExp)
  : outcome (list element) :=
  template_loop 0 template RE.

(** ** The packrat substrate *)

(** What a rule returns in the second component of its pair. *)
Inductive value : Type :=
| VFail
| VEof
| VStr (s : string)
| VNum (n : nat)
| VArr (l : list value).

Definition is_FAIL (v : value) : bool :=
  match v with
  | VFail => true
  | _ => false
  end.

Definition rresult : Type := (nat * value)%type.

(** The terminal rules of [Scanner.prototype]. *)
Inductive builtin : Type :=
| B_SPACE | B_COMMENT | B_SKIP | B_NUMBER | B_STRING | B_IDENT | B_HOLE
| B_EOF.

(** A function object: a method of the scanner or a rule of the grammar
    in use, numbered. *)
Inductive fn : Type :=
| Builtin (b : builtin)
| User (id : nat).

(** The first argument of [run].  An expression is an object, compared by
    identity: [oid] tells two objects of the same source apart. *)
Inductive key : Type :=
| KFun (f : fn)
| KUndef
| KStr (s : string)
| KRe (oid : nat) (R : RegExp).

Definition builtin_eqb (a b : builtin) : bool :=
  match a, b with
  | B_SPACE, B_SPACE | B_COMMENT, B_COMMENT | B_SKIP, B_SKIP
  | B_NUMBER, B_NUMBER | B_STRING, B_STRING | B_IDENT, B_IDENT
  | B_HOLE, B_HOLE | B_EOF, B_EOF => true
  | _, _ => false
  end.

Definition fn_eqb (a b : fn) : bool :=
  match a, b with
  | Builtin x, Builtin y => builtin_eqb x y
  | User x, User y => x =? y
  | _, _ => false
  end.

Definition Flags_eqb (a b : Flags) : bool :=
  Bool.eqb (f_global a) (f_global b)
  && Bool.eqb (f_ignoreCase a) (f_ignoreCase b)
  && Bool.eqb (f_multiline a) (f_multiline b)
  && Bool.eqb (f_sticky a) (f_sticky b).

Definition RegExp_eqb (a b : RegExp) : bool :=
  String.eqb (source a) (source b) && Flags_eqb (flags a) (flags b).

Definition key_eqb (a b : key) : bool :=
  match a, b with
  | KFun f, KFun g => fn_eqb f g
  | KUndef, KUndef => true
  | KStr s, KStr t => String.eqb s t
  | KRe i R, KRe j Q => (i =? j) && RegExp_eqb R Q
  | _, _ => false
  end.

(** [typeof ruleOrPatt === 'function'] *)
Definition is_function (k : key) : bool :=
  match k with
  | KFun _ => true
  | _ => false
  end.

(** ['' + ruleOrPatt] *)
Definition key_toString (k : key) : string :=
  match k with
  | KFun (Builtin _) => "function"
  | KFun (User _) => "function"
  | KUndef => "undefined"
  | KStr s => s
  | KRe _ R => RegExp_toString R
  end.

Inductive entry : Type :=
| LEFT_RECUR
| Res (r : rresult).

(** A [Map], in insertion order. *)
Section Maps.
Context {K V : Type} (eqb : K -> K -> bool).

Fixpoint map_get (k : K) (l : list (K * V)) : option V :=
  match l with
  | [] => None
  | (k', v) :: l' => if eqb k k' then Some v else map_get k l'
  end.

Fixpoint map_set (k : K) (v : V) (l : list (K * V)) : list (K * V) :=
  match l with
  | [] => [(k, v)]
  | (k', v') :: l' =>
      if eqb k k' then (k', v) :: l' else (k', v') :: map_set k v l'
  end.
End Maps.

Definition posmap : Type := list (key * entry).
Definition memo : Type := list (nat * posmap).

Record Packratter : Type := mkPackratter {
  _memo : memo;
  hits : nat;
  misses : nat
}.

(** [new Packratter()] *)
Definition fresh : Packratter := mkPackratter [] 0 0.

(** Computations on the parser: the state goes in and comes out, also
    when the computation throws. *)
Definition M (A : Type) : Type := Packratter -> outcome A * Packratter.

Definition ret {A} (a : A) : M A := fun st => (Ok a, st).
Definition throw {A} (e : error) : M A := fun st => (Err e, st).
Definition diverge {A} : M A := fun st => (Diverge, st).
Definition bind {A B} (c : M A) (f : A -> M B) : M B :=
  fun st =>
    match c st with
    | (Ok a, st') => f a st'
    | (Err e, st') => (Err e, st')
    | (Diverge, st') => (Diverge, st')
    end.

Notation "x <- c ;; k" := (bind c (fun x => k))
  (at level 61, c at next level, right associativity).

Definition posm_of (mm : memo) (pos : nat) : posmap :=
  match map_get Nat.eqb pos mm with
  | Some posm => posm
  | None => []
  end.

(** [posm.set(ruleOrPatt, e)] on the inner map of [pos]. *)
Definition memo_set (pos : nat) (k : key) (e : entry) (st : Packratter)
  : Packratter :=
  mkPackratter
    (map_set Nat.eqb pos (map_set key_eqb k e (posm_of (_memo st) pos))
       (_memo st))
    (hits st) (misses st).

(** The inner map of [pos], installed empty when there is none. *)
Definition ensure_posm (pos : nat) (st : Packratter) : Packratter :=
  match map_get Nat.eqb pos (_memo st) with
  | Some _ => st
  | None =>
      mkPackratter (map_set Nat.eqb pos [] (_memo st)) (hits st) (misses st)
  end.

(** How [run] reads the inner map: [posm.get(ruleOrPatt)]. *)
Definition probe_t : Type := posmap -> key -> option entry.
Definition memo_probe : probe_t := fun posm k => map_get key_eqb k posm.

(** The probe that misses every time. *)
Definition miss_probe : probe_t := fun _ _ => None.

(** [Packratter.run], with the call of the rule or pattern, [invoke],
    passed in: it is the three-way branch on [typeof ruleOrPatt] of the
    source, which needs the rules of the scanner. *)
Definition run_with (probe : probe_t) (invoke : M rresult)
    (ruleOrPatt : key) (pos : nat) (name : string) : M rresult :=
  fun st =>
    let st0 := ensure_posm pos st in
    match probe (posm_of (_memo st0) pos) ruleOrPatt with
    | Some LEFT_RECUR =>
        (Err (Error ("Left recursion on rule: " ++ name)), st0)
    | Some (Res result) =>
        (Ok result, mkPackratter (_memo st0) (S (hits st0)) (misses st0))
    | None =>
        let st1 := memo_set pos ruleOrPatt LEFT_RECUR st0 in
        let st2 := mkPackratter (_memo st1) (hits st1) (S (misses st1)) in
        match invoke st2 with
        | (Ok result, st3) =>
            (Ok result, memo_set pos ruleOrPatt (Res result) st3)
        | other => other
        end
    end.

(** [Packratter.lastFailures] *)
Definition lastFailures_step (acc : nat * list string) (kv : key * entry)
  : nat * list string :=
  let (maxPos, fails) := acc in
  let (ruleOrPatt, result) := kv in
  match result with
  | LEFT_RECUR => acc
  | Res (newPos, v) =>
      if negb (is_function ruleOrPatt) then
        let fail := JSON_stringify (key_toString ruleOrPatt) in
        if is_FAIL v then
          if maxPos <? newPos then (newPos, [fail])
          else if newPos =? maxPos then (maxPos, fails ++ [fail])
          else acc
        else acc
      else acc
  end.

Definition lastFailures (st : Packratter) : nat * list string :=
  fold_left
    (fun acc (e : nat * posmap) => fold_left lastFailures_step (snd e) acc)
    (_memo st) (0, []).

(** ** The scanner *)

(** A [Set] of strings, in insertion order. *)
Definition set_has (x : string) (l : list string) : bool :=
  existsb (String.eqb x) l.
Definition set_add (x : string) (l : list string) : list string :=
  if set_has x l then l else l ++ [x].

(** The fields of a [Scanner] that its constructor freezes; the memo table
    and the counters are the [Packratter] state. *)
Record Scanner : Type := mkScanner {
  template : list string;
  keywords : list string;
  otherTokenTypes : list string;
  toks : list element
}.

(** [new Scanner(template, tokenTypeList)]; [template] stands for
    [template.raw]. *)
Definition new_Scanner (template : list string) (tokenTypeList : list string)
  : outcome Scanner :=
  let kws :=
    fold_left (fun acc tt =>
                 if test (allRE (PRe IDENT_RE)) tt
                 then (set_add tt (fst acc), snd acc)
                 else (fst acc, set_add tt (snd acc)))
      tokenTypeList ([], []) in
  obind (tokensInTemplate template TOKEN_RE) (fun toks =>
    Ok (mkScanner template (fst kws) (snd kws) toks)).

Definition K_COMMENT : key := KFun (Builtin B_COMMENT).

Section ScannerRules.

Variable probe : probe_t.
Variable this : Scanner.

Definition skip (pos : nat) (RE : RegExp) : rresult :=
  if pos <? List.length (toks this) then
    match nth_error (toks this) pos with
    | Some (Tok token) =>
        if test (allRE (PRe RE)) (text token)
        then (pos + 1, VStr "")
        else (pos, VFail)
    | _ => (pos, VFail)
    end
  else (pos, VFail).

Definition rule_SPACE (pos : nat) : rresult := skip pos SPACE_RE.
Definition rule_COMMENT (pos : nat) : rresult := skip pos LINE_COMMENT_RE.

(** [this.run(this.rule_COMMENT, pos, 'COMMENT')]: the key is a function,
    so [run] calls it. *)
Definition run_COMMENT (pos : nat) : M rresult :=
  run_with probe (ret (rule_COMMENT pos)) K_COMMENT pos "COMMENT".

(** The loop of [rule_SKIP].  A round that does not leave the loop goes on
    at the position a rule returned; once a position comes up a second
    time the loop never ends, so one round per element of the stream is
    budget enough. *)
Fixpoint SKIP_loop (fuel : nat) (pos : nat) : M rresult :=
  if pos <? List.length (toks this) then
    match fuel with
    | 0 => diverge
    | S fuel' =>
        match nth_error (toks this) pos with
        | Some (Tok _) =>
            let pair := rule_SPACE pos in
            if negb (is_FAIL (snd pair)) then SKIP_loop fuel' (fst pair)
            else
              pair <- run_COMMENT pos ;;
              if negb (is_FAIL (snd pair)) then SKIP_loop fuel' (fst pair)
              else ret (pos, VStr "")
        | _ => ret (pos, VStr "")
        end
    end
  else ret (pos, VStr "").

(** Must always succeed: (SPACE / COMMENT)* *)
Definition rule_SKIP (pos : nat) : M rresult :=
  SKIP_loop (List.length (toks this)) pos.

(** [(typeof patt === 'string' && patt === token.text) ||
    allRE(patt).test(token.text)] *)
Definition eat_matches (patt0 : patt) (txt : string) : bool :=
  match patt0 with
  | PStr s => String.eqb s txt
  | PRe _ => false
  end
  || test (allRE patt0) txt.

Definition eat (pos : nat) (patt0 : patt) : M rresult :=
  r <- rule_SKIP pos ;;
  let pos := fst r in
  if pos <? List.length (toks this) then
    match nth_error (toks this) pos with
    | Some (Tok token) =>
        if eat_matches patt0 (text token)
        then ret (pos + 1, VStr (text token))
        else ret (pos, VFail)
    | _ => ret (pos, VFail)
    end
  else ret (pos, VFail).

Definition rule_NUMBER (pos : nat) : M rresult := eat pos (PRe NUMBER_RE).
Definition rule_STRING (pos : nat) : M rresult := eat pos (PRe STRING_RE).

Definition rule_IDENT (pos : nat) : M rresult :=
  r <- rule_SKIP pos ;;
  let pos := fst r in
  if List.length (toks this) <=? pos then ret (pos, VFail)
  else
    match nth_error (toks this) pos with
    | Some (Tok token) =>
        if test (allRE (PRe IDENT_RE)) (text token)
           && negb (set_has (text token) (keywords this))
        then ret (pos + 1, VStr (text token))
        else ret (pos, VFail)
    | _ => ret (pos, VFail)
    end.

Definition rule_HOLE (pos : nat) : M rresult :=
  r <- rule_SKIP pos ;;
  let pos := fst r in
  if List.length (toks this) <=? pos then ret (pos, VFail)
  else
    match nth_error (toks this) pos with
    | Some (Hole token) => ret (pos + 1, VNum token)
    | _ => ret (pos, VFail)
    end.

Definition rule_EOF (pos : nat) : M rresult :=
  r <- rule_SKIP pos ;;
  let pos := fst r in
  ret (pos, if List.length (toks this) <=? pos then VEof else VFail).

(** A method of the scanner called on [this]. *)
Definition call_builtin (b : builtin) (pos : nat) : M rresult :=
  match b with
  | B_SPACE => ret (rule_SPACE pos)
  | B_COMMENT => ret (rule_COMMENT pos)
  | B_SKIP => rule_SKIP pos
  | B_NUMBER => rule_NUMBER pos
  | B_STRING => rule_STRING pos
  | B_IDENT => rule_IDENT pos
  | B_HOLE => rule_HOLE pos
  | B_EOF => rule_EOF pos
  end.

(** *** Rules of a grammar

    A rule procedure is a function of the position whose body asks the
    parser for a memoized rule or pattern ([this.run]), calls a method or
    a sibling rule directly, eats a pattern, throws, or returns its pair. *)
Inductive Proc : Type :=
| PRet (r : rresult)
| PThrow (e : error)
| PRun (k : key) (pos : nat) (name : string) (cont : rresult -> Proc)
| PCall (f : fn) (pos : nat) (cont : rresult -> Proc)
| PEat (pos : nat) (patt0 : patt) (cont : rresult -> Proc).

Variable rules : nat -> nat -> Proc.

(** The branch of [run] taken on a miss. *)
Definition invoke (call : fn -> nat -> M rresult) (ruleOrPatt : key)
    (pos : nat) (name : string) : M rresult :=
  match ruleOrPatt with
  | KFun f => call f pos
  | KUndef => throw (Error ("Rule missing: " ++ name))
  | KStr s => eat pos (PStr s)
  | KRe _ R => eat pos (PRe R)
  end.

Definition run_via (call : fn -> nat -> M rresult) (ruleOrPatt : key)
    (pos : nat) (name : string) : M rresult :=
  run_with probe (invoke call ruleOrPatt pos name) ruleOrPatt pos name.

Fixpoint exec_proc (call : fn -> nat -> M rresult) (p : Proc) : M rresult :=
  match p with
  | PRet r => ret r
  | PThrow e => throw e
  | PRun k pos name cont =>
      r <- run_via call k pos name ;; exec_proc call (cont r)
  | PCall f pos cont =>
      r <- call f pos ;; exec_proc call (cont r)
  | PEat pos patt0 cont =>
      r <- eat pos patt0 ;; exec_proc call (cont r)
  end.

(** [f.call(this, pos)]; [fuel] bounds the nesting of grammar rules. *)
Fixpoint call_fn (fuel : nat) (f : fn) (pos : nat) : M rresult :=
  match f with
  | Builtin b => call_builtin b pos
  | User id =>
      match fuel with
      | 0 => diverge
      | S fuel' => exec_proc (call_fn fuel') (rules id pos)
      end
  end.

(** [this.run(ruleOrPatt, pos, name)] *)
Definition run (fuel : nat) (ruleOrPatt : key) (pos : nat) (name : string)
  : M rresult :=
  run_via (call_fn fuel) ruleOrPatt pos name.

End ScannerRules.

(** * Properties *)

(** ** Keys and maps *)

Lemma builtin_eqb_eq (a b : builtin) : builtin_eqb a b = true <-> a = b.
Proof. destruct a, b; simpl; split; intros H; try reflexivity; discriminate. Qed.

Lemma fn_eqb_eq (a b : fn) : fn_eqb a b = true <-> a = b.
Proof.
  destruct a as [x|x], b as [y|y]; simpl.
  - rewrite builtin_eqb_eq. split; [intros ->; reflexivity | intros [= ->]; reflexivity].
  - split; discriminate.
  - split; discriminate.
  - rewrite Nat.eqb_eq. split; [intros ->; reflexivity | intros [= ->]; reflexivity].
Qed.

Lemma Flags_eqb_eq (a b : Flags) : Flags_eqb a b = true <-> a = b.
Proof.
  destruct a, b; unfold Flags_eqb; simpl.
  rewrite !andb_true_iff, !Bool.eqb_true_iff.
  split.
  - intros [[[-> ->] ->] ->]; reflexivity.
  - intros [= -> -> -> ->]; auto.
Qed.

Lemma RegExp_eqb_eq (a b : RegExp) : RegExp_eqb a b = true <-> a = b.
Proof.
  destruct a, b; unfold RegExp_eqb; simpl.
  rewrite andb_true_iff, String.eqb_eq, Flags_eqb_eq.
  split.
  - intros [-> ->]; reflexivity.
  - intros [= -> ->]; auto.
Qed.

Lemma key_eqb_eq (a b : key) : key_eqb a b = true <-> a = b.
Proof.
  destruct a, b; simpl; try (split; discriminate).
  - rewrite fn_eqb_eq. split; [intros ->; reflexivity | intros [= ->]; reflexivity].
  - split; reflexivity.
  - rewrite String.eqb_eq. split; [intros ->; reflexivity | intros [= ->]; reflexivity].
  - rewrite andb_true_iff, Nat.eqb_eq, RegExp_eqb_eq.
    split; [intros [-> ->]; reflexivity | intros [= -> ->]; auto].
Qed.

Lemma key_eqb_refl (k : key) : key_eqb k k = true.
Proof. apply key_eqb_eq; reflexivity. Qed.

Lemma key_eqb_neq (a b : key) : a <> b -> key_eqb a b = false.
Proof.
  intros H. destruct (key_eqb a b) eqn:E; [|reflexivity].
  apply key_eqb_eq in E. contradiction.
Qed.

Section MapFacts.
Context {K V : Type} (eqb : K -> K -> bool).
Hypothesis eqb_eq : forall a b, eqb a b = true <-> a = b.

Lemma map_get_set_same (k : K) (v : V) (l : list (K * V)) :
  map_get eqb k (map_set eqb k v l) = Some v.
Proof.
  induction l as [|[k' v'] l IH]; simpl.
  - rewrite (proj2 (eqb_eq k k) eq_refl). reflexivity.
  - destruct (eqb k k') eqn:E; simpl; rewrite E; auto.
Qed.

Lemma map_get_set_other (k k0 : K) (v : V) (l : list (K * V)) :
  k0 <> k -> map_get eqb k0 (map_set eqb k v l) = map_get eqb k0 l.
Proof.
  intros Hne.
  assert (Hf : eqb k0 k = false).
  { destruct (eqb k0 k) eqn:E; [apply eqb_eq in E; contradiction | reflexivity]. }
  induction l as [|[k' v'] l IH]; simpl.
  - rewrite Hf. reflexivity.
  - destruct (eqb k k') eqn:E; simpl.
    + apply eqb_eq in E. subst k'. rewrite Hf. reflexivity.
    + rewrite IH. reflexivity.
Qed.

Lemma map_get_In (k : K) (v : V) (l : list (K * V)) :
  map_get eqb k l = Some v -> In (k, v) l.
Proof.
  induction l as [|[k' v'] l IH]; simpl; [discriminate|].
  destruct (eqb k k') eqn:E.
  - apply eqb_eq in E. subst. intros [= ->]. left; reflexivity.
  - intros H. right. auto.
Qed.
End MapFacts.

Lemma nat_eqb_eq' (a b : nat) : (a =? b) = true <-> a = b.
Proof. apply Nat.eqb_eq. Qed.

Lemma posm_of_memo_set (pos p : nat) (k : key) (e : entry) (st : Packratter) :
  posm_of (_memo (memo_set pos k e st)) p =
  if p =? pos then map_set key_eqb k e (posm_of (_memo st) pos)
  else posm_of (_memo st) p.
Proof.
  unfold memo_set, posm_of; simpl.
  destruct (Nat.eqb_spec p pos) as [->|Hne].
  - rewrite (map_get_set_same Nat.eqb nat_eqb_eq'). reflexivity.
  - rewrite (map_get_set_other Nat.eqb nat_eqb_eq') by assumption. reflexivity.
Qed.

Lemma posm_of_ensure (pos p : nat) (st : Packratter) :
  posm_of (_memo (ensure_posm pos st)) p = posm_of (_memo st) p.
Proof.
  unfold ensure_posm.
  destruct (map_get Nat.eqb pos (_memo st)) eqn:E; [reflexivity|].
  unfold posm_of; simpl.
  destruct (Nat.eqb_spec p pos) as [->|Hne].
  - rewrite (map_get_set_same Nat.eqb nat_eqb_eq'), E. reflexivity.
  - rewrite (map_get_set_other Nat.eqb nat_eqb_eq') by assumption. reflexivity.
Qed.

Lemma ensure_posm_present (pos : nat) (st : Packratter) (k : key) (e : entry) :
  map_get key_eqb k (posm_of (_memo st) pos) = Some e ->
  ensure_posm pos st = st.
Proof.
  unfold ensure_posm, posm_of.
  destruct (map_get Nat.eqb pos (_memo st)); [reflexivity | discriminate].
Qed.

(** ** Left recursion (C2) *)

(** C2.  When [run] finds the [LEFT_RECUR] sentinel under
    [(pos, ruleOrPatt)], that is, when the pair is entered again while its
    first evaluation is under way, it throws "Left recursion on rule: name";
    it neither calls the rule nor returns a pair, whatever the budget, and
    it leaves the parser as it was. *)
Theorem run_left_recursion
    (this : Scanner) (rules : nat -> nat -> Proc) (fuel : nat)
    (ruleOrPatt : key) (pos : nat) (name : string) (st : Packratter) :
  map_get key_eqb ruleOrPatt (posm_of (_memo st) pos) = Some LEFT_RECUR ->
  run memo_probe this rules fuel ruleOrPatt pos name st =
  (Err (Error ("Left recursion on rule: " ++ name)), st).
Proof.
  intros H.
  unfold run, run_via, run_with.
  rewrite (ensure_posm_present pos st ruleOrPatt LEFT_RECUR H).
  unfold memo_probe. rewrite H. reflexivity.
Qed.

(** The grammar [A ::= A "x" / "x"], whose rule asks for itself at the
    position it was called at. *)
Definition left_recursive_rules (id pos : nat) : Proc :=
  PRun (KFun (User 0)) pos "A" (fun r =>
    if is_FAIL (snd r) then PRun (KStr "x") pos "x" PRet
    else PRun (KStr "x") (fst r) "x" PRet).

Definition x_x_scanner : Scanner :=
  mkScanner ["x x"%string] [] []
    [Tok (mkToken "x" (mkPos 0 0 1)); Tok (mkToken " " (mkPos 0 1 2));
     Tok (mkToken "x" (mkPos 0 2 3))].

Example x_x_scanner_built : new_Scanner ["x x"%string] [] = Ok x_x_scanner.
Proof. vm_compute; reflexivity. Qed.

Lemma run_left_recursion_witness :
  let st := mkPackratter [(0, [(KFun (User 0), LEFT_RECUR)])] 0 1 in
  map_get key_eqb (KFun (User 0)) (posm_of (_memo st) 0) = Some LEFT_RECUR /\
  run memo_probe x_x_scanner left_recursive_rules 1 (KFun (User 0)) 0 "A" st =
  (Err (Error "Left recursion on rule: A"), st).
Proof.
  split; [reflexivity|].
  apply (run_left_recursion x_x_scanner left_recursive_rules 1
           (KFun (User 0)) 0 "A").
  reflexivity.
Defined.

(** Scenario S5: the left-recursive grammar on the stream of [x x] throws
    as soon as the rule is called with any budget. *)
Lemma left_recursive_grammar_throws (fuel : nat) :
  fst (run memo_probe x_x_scanner left_recursive_rules (S fuel)
         (KFun (User 0)) 0 "A" fresh)
  = Err (Error "Left recursion on rule: A").
Proof. reflexivity. Qed.

(** ** Diagnostics (C6) *)

Definition entries (mm : memo) : list (key * entry) := flat_map snd mm.

Lemma lastFailures_entries (st : Packratter) :
  lastFailures st = fold_left lastFailures_step (entries (_memo st)) (0, []).
Proof.
  unfold lastFailures, entries.
  generalize (0, @nil string).
  induction (_memo st) as [|[p posm] mm IH]; intros acc; simpl.
  - reflexivity.
  - rewrite fold_left_app. apply IH.
Qed.

Lemma In_entries (mm : memo) (k : key) (e : entry) :
  In (k, e) (entries mm) <->
  exists pos posm, In (pos, posm) mm /\ In (k, e) posm.
Proof.
  unfold entries. rewrite in_flat_map. split.
  - intros [[p posm] [H1 H2]]. exists p, posm. auto.
  - intros (p & posm & H1 & H2). exists (p, posm). auto.
Qed.

Lemma is_FAIL_true (v : value) : is_FAIL v = true <-> v = VFail.
Proof. destruct v; simpl; split; intros H; try reflexivity; discriminate. Qed.

(** The name under which a terminal pattern is reported. *)
Definition fail_name (k : key) : string := JSON_stringify (key_toString k).

(** What the scan has established after the entries [done]. *)
Definition scanned (done : list (key * entry)) (acc : nat * list string)
  : Prop :=
  (forall k n, In (k, Res (n, VFail)) done -> is_function k = false ->
               n <= fst acc) /\
  (forall name, In name (snd acc) <->
     exists k, In (k, Res (fst acc, VFail)) done /\ is_function k = false /\
               name = fail_name k).

Lemma scanned_step (done : list (key * entry)) (acc : nat * list string)
    (kv : key * entry) :
  scanned done acc -> scanned (done ++ [kv]) (lastFailures_step acc kv).
Proof.
  destruct acc as [mx fails], kv as [k e]. intros [Hmax Hset].
  simpl in Hmax, Hset.
  assert (Hold : forall k0 n, In (k0, Res (n, VFail)) (done ++ [(k, e)]) ->
            In (k0, Res (n, VFail)) done \/ (k0 = k /\ e = Res (n, VFail))).
  { intros k0 n H. apply in_app_or in H. destruct H as [H|[H|[]]]; auto.
    inversion H; subst. right; auto. }
  assert (Hsame : (forall n, e = Res (n, VFail) -> is_function k = true) ->
            scanned (done ++ [(k, e)]) (mx, fails)).
  { intros Hskip. split; simpl.
    - intros k0 n H Hf. destruct (Hold _ _ H) as [H'|[-> ->]]; eauto.
      rewrite (Hskip _ eq_refl) in Hf. discriminate.
    - intros name. rewrite Hset. split.
      + intros (k0 & H & Hf & ->). exists k0. split; auto.
        apply in_or_app; auto.
      + intros (k0 & H & Hf & ->). destruct (Hold _ _ H) as [H'|[-> ->]].
        * exists k0; auto.
        * rewrite (Hskip _ eq_refl) in Hf. discriminate. }
  unfold lastFailures_step.
  destruct e as [|[n v]].
  - apply Hsame. intros n; discriminate.
  - destruct (is_function k) eqn:Hfun; simpl.
    + apply Hsame. auto.
    + destruct (is_FAIL v) eqn:Hv.
      2:{ split; simpl.
          - intros k0 n0 H Hf. destruct (Hold _ _ H) as [H'|[-> E]]; eauto.
            inversion E; subst. discriminate.
          - intros name. rewrite Hset. split.
            + intros (k0 & H & Hf & ->). exists k0. split; auto.
              apply in_or_app; auto.
            + intros (k0 & H & Hf & ->). destruct (Hold _ _ H) as [H'|[-> E]].
              * exists k0; auto.
              * inversion E; subst. discriminate. }
      apply is_FAIL_true in Hv. subst v.
      destruct (Nat.ltb_spec mx n) as [Hlt|Hge].
      * split; simpl.
        -- intros k0 n0 H Hf. destruct (Hold _ _ H) as [H'|[-> E]].
           ++ specialize (Hmax _ _ H' Hf). lia.
           ++ inversion E; subst. lia.
        -- intros name. split.
           ++ intros [<-|[]]. exists k. split; [|auto].
              apply in_or_app; right; left; reflexivity.
           ++ intros (k0 & H & Hf & ->). destruct (Hold _ _ H) as [H'|[-> E]].
              ** specialize (Hmax _ _ H' Hf). lia.
              ** left; reflexivity.
      * destruct (Nat.eqb_spec n mx) as [->|Hne].
        -- split; simpl.
           ++ intros k0 n0 H Hf. destruct (Hold _ _ H) as [H'|[-> E]]; eauto.
              inversion E; subst. lia.
           ++ intros name. rewrite in_app_iff, Hset. split.
              ** intros [(k0 & H & Hf & ->)|[<-|[]]].
                 --- exists k0. split; auto. apply in_or_app; auto.
                 --- exists k. split; [|auto].
                     apply in_or_app; right; left; reflexivity.
              ** intros (k0 & H & Hf & ->).
                 destruct (Hold _ _ H) as [H'|[-> E]].
                 --- left. exists k0; auto.
                 --- right. left. reflexivity.
        -- split; simpl.
           ++ intros k0 n0 H Hf. destruct (Hold _ _ H) as [H'|[-> E]]; eauto.
              inversion E; subst. lia.
           ++ intros name. rewrite Hset. split.
              ** intros (k0 & H & Hf & ->). exists k0. split; auto.
                 apply in_or_app; auto.
              ** intros (k0 & H & Hf & ->).
                 destruct (Hold _ _ H) as [H'|[-> E]].
                 --- exists k0; auto.
                 --- inversion E; subst. contradiction.
Qed.

Lemma scanned_fold (l done : list (key * entry)) (acc : nat * list string) :
  scanned done acc -> scanned (done ++ l) (fold_left lastFailures_step l acc).
Proof.
  revert done acc. induction l as [|kv l IH]; intros done acc H; simpl.
  - rewrite app_nil_r. exact H.
  - replace (done ++ kv :: l) with ((done ++ [kv]) ++ l)
      by (rewrite <- app_assoc; reflexivity).
    apply IH. apply scanned_step. exact H.
Qed.

(** C6, as the code has it.  [lastFailures] returns [(maxPos, fails)]
    where [maxPos] is at least the [newPos] of every FAIL result stored
    under a terminal pattern (a key that is not a procedure), and [fails]
    lists exactly the printable names of the terminal patterns with a FAIL
    result at [maxPos]. *)
Theorem lastFailures_terminals (st : Packratter) :
  (forall pos posm k newPos,
      In (pos, posm) (_memo st) -> In (k, Res (newPos, VFail)) posm ->
      is_function k = false ->
      newPos <= fst (lastFailures st)) /\
  (forall name,
      In name (snd (lastFailures st)) <->
      exists pos posm k,
        In (pos, posm) (_memo st) /\
        In (k, Res (fst (lastFailures st), VFail)) posm /\
        is_function k = false /\ name = fail_name k).
Proof.
  rewrite lastFailures_entries.
  assert (H0 : scanned [] (0, @nil string)).
  { split; simpl; [intros ? ? []|].
    intros name. split; [intros [] | intros (k & [] & _)]. }
  pose proof (scanned_fold (entries (_memo st)) [] _ H0) as [Hmax Hset].
  simpl in Hmax, Hset. split.
  - intros p posm k n Hp Hk Hf. apply (Hmax k n); [|exact Hf].
    apply In_entries. eauto.
  - intros name. rewrite Hset. split.
    + intros (k & H & Hf & ->). apply In_entries in H.
      destruct H as (p & posm & H1 & H2). exists p, posm, k. auto.
    + intros (p & posm & k & H1 & H2 & Hf & ->). exists k. split; [|auto].
      apply In_entries. eauto.
Qed.

(** The stream of the one-segment template [ x]: a space and an [x]. *)
Definition sp_x_scanner : Scanner :=
  mkScanner [" x"%string] [] []
    [Tok (mkToken " " (mkPos 0 0 1)); Tok (mkToken "x" (mkPos 0 1 2))].

(** It is the scanner that the constructor builds for that template. *)
Example sp_x_scanner_built : new_Scanner [" x"%string] [] = Ok sp_x_scanner.
Proof. vm_compute; reflexivity. Qed.

Definition no_rules (id pos : nat) : Proc := PRet (pos, VFail).

(** The parser after [run(this.rule_EOF, 0, 'EOF')] on that stream. *)
Definition after_EOF_probe : Packratter :=
  snd (run memo_probe sp_x_scanner no_rules 0 (KFun (Builtin B_EOF)) 0 "EOF"
         fresh).

(** C6 as stated fails: the FAIL of [rule_EOF], stored with [newPos] 1
    under a procedure key, is above the position 0 that [lastFailures]
    returns. *)
Lemma lastFailures_below_rule_failure :
  ~ (forall pos posm k newPos,
        In (pos, posm) (_memo after_EOF_probe) ->
        In (k, Res (newPos, VFail)) posm ->
        newPos <= fst (lastFailures after_EOF_probe)).
Proof.
  intros H.
  specialize (H 0 [(KFun (Builtin B_EOF), Res (1, VFail))]
                (KFun (Builtin B_EOF)) 1).
  assert (E : _memo after_EOF_probe =
              [(0, [(KFun (Builtin B_EOF), Res (1, VFail))]);
               (1, [(K_COMMENT, Res (1, VFail))])]) by (vm_compute; reflexivity).
  assert (L : fst (lastFailures after_EOF_probe) = 0) by (vm_compute; reflexivity).
  rewrite E, L in H.
  assert (1 <= 0) by (apply H; simpl; auto).
  lia.
Qed.

(** ** The lexer: errors (C9) *)

Lemma str_chars (s : string) : str (chars s) = s.
Proof. apply string_of_list_ascii_of_string. Qed.

Lemma chars_str (l : list ascii) : chars (str l) = l.
Proof. apply list_ascii_of_string_of_list_ascii. Qed.

Lemma length_chars (s : string) : List.length (chars s) = String.length s.
Proof. induction s; simpl; auto. Qed.

Lemma slice_from_0 (s : string) : slice_from s 0 = s.
Proof. unfold slice_from. simpl. apply str_chars. Qed.

(** A sticky expression that does not match has its [lastIndex] back
    at 0. *)
Lemma exec_sticky_null (R : RegExp) (s : string) (lastIndex : nat) :
  f_sticky (flags R) = true ->
  fst (exec R s lastIndex) = None -> snd (exec R s lastIndex) = 0.
Proof.
  intros Hy. unfold exec. rewrite Hy, orb_true_r.
  destruct (List.length (chars s) <? lastIndex); [reflexivity|].
  destruct (parse (source R)); [|reflexivity].
  destruct (option_map _ _) as [[i [j c]]|]; [discriminate | reflexivity].
Qed.

Lemma search_index (icase multi : bool) (s : list ascii) (r : re)
    (fuel : nat) :
  forall i x,
    search icase multi s r fuel i = Some x ->
    match match_at icase multi s r i with
    | Some p => x = (i, p)
    | None => i < fst x
    end.
Proof.
  induction fuel as [|fuel IH]; intros i x; simpl;
    destruct (match_at icase multi s r i) as [[j c]|] eqn:E;
    try (intros [= <-]; reflexivity); try discriminate.
  intros H. specialize (IH _ _ H).
  destruct (match_at icase multi s r (S i)) as [p|]; [subst x; simpl|]; lia.
Qed.

(** The emulation and the sticky flag agree: on an expression with neither
    the global nor the sticky flag, both find a match at [lastIndex] only,
    and both leave [lastIndex] at 0 when there is none. *)
Lemma stickyExec_is_sticky_exec (RE Ry Rg : RegExp) (str0 : string)
    (lastIndex : nat) :
  f_sticky (flags RE) = false ->
  stickyRE RE = Ok Ry ->
  stickyREShim RE = Ok Rg ->
  stickyExec Rg str0 lastIndex = exec Ry str0 lastIndex.
Proof.
  intros Hy Hs Hg. unfold stickyRE in Hs. unfold stickyREShim in Hg.
  rewrite Hy in Hs. destruct (f_global (flags RE)); [discriminate|].
  inversion Hs; subst Ry; clear Hs. inversion Hg; subst Rg; clear Hg.
  unfold stickyExec, exec. rewrite Hy. cbn [RegExp_new source flags
    f_global f_sticky f_ignoreCase f_multiline orb].
  destruct (List.length (chars str0) <? lastIndex); [reflexivity|].
  destruct (parse _) as [r|]; [|reflexivity].
  destruct (search _ _ _ r _ lastIndex) as [[i [j c]]|] eqn:E.
  - apply search_index in E.
    destruct (match_at _ _ _ r lastIndex) as [p|].
    + inversion E; subst. simpl. rewrite Nat.eqb_refl. reflexivity.
    + simpl in *. destruct (Nat.eqb_spec i lastIndex); [lia | reflexivity].
  - destruct (match_at _ _ _ r lastIndex) as [[j c]|] eqn:E'; [|reflexivity].
    exfalso.
    assert (H : forall fuel, search (f_ignoreCase (flags RE))
                  (f_multiline (flags RE)) (chars str0) r fuel lastIndex
                = Some (lastIndex, (j, c))).
    { intros [|fuel]; simpl; rewrite E'; reflexivity. }
    rewrite H in E. discriminate.
Qed.

(** When the sticky expression does not match at an offset inside the
    segment, the loop throws, and the token it reports is the whole segment
    from offset 0: the failed [exec] has reset [lastIndex] before the
    message reads it. *)
Lemma tokens_loop_null (fuel segmentNum : nat) (segment : string)
    (RE : RegExp) (lastIndex expectedIndex : nat) (result : list Token) :
  f_sticky (flags RE) = true ->
  lastIndex < String.length segment ->
  fst (exec RE segment lastIndex) = None ->
  tokens_loop (S fuel) segmentNum segment RE lastIndex expectedIndex result =
  Err (SyntaxError
         ("Unexpected: " ++
          Token_toString
            (mkToken segment (mkPos segmentNum 0 (String.length segment))))).
Proof.
  intros Hy Hlt Hnull. simpl.
  destruct (Nat.ltb_spec lastIndex (String.length segment)); [|lia].
  pose proof (exec_sticky_null RE segment lastIndex Hy Hnull) as H0.
  destruct (exec RE segment lastIndex) as [arr li]. simpl in *. subst.
  rewrite slice_from_0. reflexivity.
Qed.

(** A segment of four characters: [ab], a space, and a double quote that
    opens no string. *)
Definition unterminated : string := ("ab " ++ dqs)%string.

(** C9 at a failing input.  On that segment the lexer reads [ab] and the
    space, finds no token at offset 3, and throws; the message quotes the
    whole segment with the position [#0@0:4], not the remaining slice (the
    double quote) with [#0@3:4]. *)
Theorem tokensInSegment_reports_whole_segment :
  exists RE,
    stickyRE TOKEN_RE = Ok RE /\
    snd (exec RE unterminated 0) = 2 /\
    snd (exec RE unterminated 2) = 3 /\
    fst (exec RE unterminated 3) = None /\
    slice_from unterminated 3 = dqs /\
    tokensInSegment 0 unterminated TOKEN_RE =
    Err (SyntaxError
           ("Unexpected: " ++ JSON_stringify unterminated ++ " at #0@0:4")).
Proof.
  eexists. split; [reflexivity|].
  repeat split; vm_compute; reflexivity.
Qed.

(** ** The lexer: holes (C4) *)

Definition is_hole (e : element) : bool :=
  match e with
  | Hole _ => true
  | Tok _ => false
  end.

Definition count_holes (l : list element) : nat :=
  List.length (filter is_hole l).

Definition total_tokens (tss : list (list Token)) : nat :=
  list_sum (map (@List.length Token) tss).

Lemma count_holes_app (a b : list element) :
  count_holes (a ++ b) = count_holes a + count_holes b.
Proof. unfold count_holes. rewrite filter_app, length_app. reflexivity. Qed.

Lemma count_holes_toks (ts : list Token) : count_holes (map Tok ts) = 0.
Proof. induction ts; simpl; auto. Qed.

(** The stream of the segments numbered from [segnum] whose token lists
    are [tss]. *)
Fixpoint weave (segnum : nat) (tss : list (list Token)) : list element :=
  match tss with
  | [] => []
  | ts :: rest =>
      map Tok ts
      ++ match rest with [] => [] | _ :: _ => [Hole segnum] end
      ++ weave (S segnum) rest
  end.

Lemma template_loop_weave (segs : list string) (RE : RegExp) :
  forall segnum stream,
    template_loop segnum segs RE = Ok stream ->
    exists tss,
      List.length tss = List.length segs /\
      (forall k seg, nth_error segs k = Some seg ->
         tokensInSegment (segnum + k) seg RE = Ok (nth k tss [])) /\
      stream = weave segnum tss.
Proof.
  induction segs as [|seg rest IH]; intros segnum stream H; simpl in H.
  - inversion H; subst. exists []. split; [reflexivity|]. split; [|reflexivity].
    intros [|k] seg E; discriminate.
  - destruct (tokensInSegment segnum seg RE) as [ts| |] eqn:Ets;
      simpl in H; try discriminate.
    destruct (template_loop (S segnum) rest RE) as [more| |] eqn:Emore;
      simpl in H; try discriminate.
    inversion H; subst stream; clear H.
    destruct (IH _ _ Emore) as (tss & Hlen & Hseg & ->).
    exists (ts :: tss). split; [simpl; congruence|]. split.
    + intros [|k] seg' E; simpl in E.
      * inversion E; subst. rewrite Nat.add_0_r. exact Ets.
      * simpl. rewrite <- Nat.add_succ_comm. apply Hseg. exact E.
    + simpl. destruct rest, tss; simpl in Hlen; try discriminate; reflexivity.
Qed.

Lemma weave_count (tss : list (list Token)) :
  forall segnum, count_holes (weave segnum tss) = List.length tss - 1.
Proof.
  induction tss as [|ts rest IH]; intros segnum; simpl; [reflexivity|].
  rewrite !count_holes_app, count_holes_toks, IH.
  destruct rest; simpl; [reflexivity | lia].
Qed.

Lemma weave_length (tss : list (list Token)) :
  forall segnum,
    List.length (weave segnum tss) = total_tokens tss + (List.length tss - 1).
Proof.
  induction tss as [|ts rest IH]; intros segnum; simpl; [reflexivity|].
  rewrite !length_app, length_map, IH. unfold total_tokens. simpl.
  destruct rest; simpl; lia.
Qed.

Lemma weave_hole (tss : list (list Token)) :
  forall segnum k,
    S k < List.length tss ->
    exists pre suf,
      weave segnum tss = pre ++ map Tok (nth k tss []) ++ Hole (segnum + k) :: suf /\
      count_holes pre = k /\
      List.length pre = total_tokens (firstn k tss) + k.
Proof.
  induction tss as [|ts rest IH]; intros segnum k Hk; simpl in Hk; [lia|].
  destruct k as [|k].
  - destruct rest as [|ts' rest]; simpl in Hk; [lia|].
    exists [], (weave (S segnum) (ts' :: rest)).
    rewrite Nat.add_0_r. repeat split.
  - destruct (IH (S segnum) k) as (pre & suf & E & Hc & Hl); [lia|].
    destruct rest as [|ts' rest]; simpl in Hk; [lia|].
    exists (map Tok ts ++ Hole segnum :: pre), suf.
    split; [|split].
    + change (weave segnum (ts :: ts' :: rest))
        with (map Tok ts ++ [Hole segnum] ++ weave (S segnum) (ts' :: rest)).
      rewrite E. rewrite <- Nat.add_succ_comm.
      rewrite <- !app_assoc. reflexivity.
    + rewrite count_holes_app, count_holes_toks.
      change (Hole segnum :: pre) with ([Hole segnum] ++ pre).
      rewrite count_holes_app, Hc. reflexivity.
    + rewrite length_app, length_map. simpl. rewrite Hl.
      unfold total_tokens. simpl. lia.
Qed.

(** [tokensInTemplate] returns a stream when every segment tokenizes. *)
Lemma template_loop_returns (segs : list string) (RE : RegExp) :
  forall segnum,
    (forall k seg, nth_error segs k = Some seg ->
       exists ts, tokensInSegment (segnum + k) seg RE = Ok ts) ->
    exists stream, template_loop segnum segs RE = Ok stream.
Proof.
  induction segs as [|seg rest IH]; intros segnum H; simpl.
  - exists []. reflexivity.
  - destruct (H 0 seg eq_refl) as [ts Hts]. rewrite Nat.add_0_r in Hts.
    rewrite Hts. simpl.
    destruct (IH (S segnum)) as [more Hmore].
    { intros k seg' E. rewrite Nat.add_succ_comm. apply (H (S k)). exact E. }
    rewrite Hmore. simpl. eexists. reflexivity.
Qed.

(** C4.  For a template of [n+1] segments, the stream that
    [tokensInTemplate] returns holds exactly [n] hole markers; the one
    numbered [k] (the [k]-th, counting from 0) comes right after the tokens
    of segment [k] and is the number [k]; and the stream is as long as the
    tokens of all the segments and [n] more. *)
Theorem tokensInTemplate_holes
    (template : list string) (RE : RegExp) (stream : list element) (n : nat) :
  List.length template = S n ->
  tokensInTemplate template RE = Ok stream ->
  exists tss : list (list Token),
    List.length tss = S n /\
    (forall k seg, nth_error template k = Some seg ->
       tokensInSegment k seg RE = Ok (nth k tss [])) /\
    count_holes stream = n /\
    List.length stream = total_tokens tss + n /\
    (forall k, k < n ->
       exists pre suf,
         stream = pre ++ map Tok (nth k tss []) ++ Hole k :: suf /\
         count_holes pre = k /\
         List.length pre = total_tokens (firstn k tss) + k).
Proof.
  intros Hlen H. unfold tokensInTemplate in H.
  destruct (template_loop_weave _ _ _ _ H) as (tss & Hl & Hseg & ->).
  exists tss. rewrite Hlen in Hl.
  split; [exact Hl|]. split; [exact Hseg|].
  split; [rewrite weave_count, Hl; lia|].
  split; [rewrite weave_length, Hl; f_equal; lia|].
  intros k Hk. apply (weave_hole tss 0 k). lia.
Qed.

Definition three_segments : list string := ["a "; " b"; ""]%string.

Definition three_segments_stream : list element :=
  [Tok (mkToken "a" (mkPos 0 0 1)); Tok (mkToken " " (mkPos 0 1 2)); Hole 0;
   Tok (mkToken " " (mkPos 1 0 1)); Tok (mkToken "b" (mkPos 1 1 2)); Hole 1].

Lemma tokensInTemplate_holes_witness :
  List.length three_segments = 3 /\
  tokensInTemplate three_segments TOKEN_RE = Ok three_segments_stream /\
  exists tss : list (list Token),
    List.length tss = 3 /\
    (forall k seg, nth_error three_segments k = Some seg ->
       tokensInSegment k seg TOKEN_RE = Ok (nth k tss [])) /\
    count_holes three_segments_stream = 2 /\
    List.length three_segments_stream = total_tokens tss + 2 /\
    (forall k, k < 2 ->
       exists pre suf,
         three_segments_stream = pre ++ map Tok (nth k tss []) ++ Hole k :: suf /\
         count_holes pre = k /\
         List.length pre = total_tokens (firstn k tss) + k).
Proof.
  split; [reflexivity|]. split; [vm_compute; reflexivity|].
  apply (tokensInTemplate_holes three_segments TOKEN_RE three_segments_stream 2).
  - reflexivity.
  - vm_compute; reflexivity.
Defined.

(** ** The scanner's terminals (C8, C10, C3) *)

Section ScannerFacts.

Variable this : Scanner.

(** What [run] has stored under [rule_COMMENT] is what [rule_COMMENT]
    returns.  A fresh parser has it, and [run] keeps it (below). *)
Definition comment_memo_ok (st : Packratter) : Prop :=
  forall p e,
    map_get key_eqb K_COMMENT (posm_of (_memo st) p) = Some e ->
    e = Res (rule_COMMENT this p).

Lemma comment_memo_ok_fresh : comment_memo_ok fresh.
Proof. intros p e H. discriminate. Qed.

Lemma comment_memo_ok_memo (st st' : Packratter) :
  _memo st = _memo st' -> comment_memo_ok st -> comment_memo_ok st'.
Proof. intros E H p e. rewrite <- E. apply H. Qed.

Lemma comment_memo_ok_ensure (pos : nat) (st : Packratter) :
  comment_memo_ok st -> comment_memo_ok (ensure_posm pos st).
Proof. intros H p e. rewrite posm_of_ensure. apply H. Qed.

Lemma comment_memo_ok_set_other (pos : nat) (k : key) (e : entry)
    (st : Packratter) :
  k <> K_COMMENT -> comment_memo_ok st -> comment_memo_ok (memo_set pos k e st).
Proof.
  intros Hk H p e'. rewrite posm_of_memo_set.
  destruct (p =? pos) eqn:E.
  - apply Nat.eqb_eq in E. subst p.
    rewrite (map_get_set_other key_eqb key_eqb_eq) by congruence. apply H.
  - apply H.
Qed.

Lemma comment_memo_ok_set_res (pos : nat) (st : Packratter) :
  comment_memo_ok st ->
  comment_memo_ok (memo_set pos K_COMMENT (Res (rule_COMMENT this pos)) st).
Proof.
  intros H p e'. rewrite posm_of_memo_set.
  destruct (p =? pos) eqn:E.
  - apply Nat.eqb_eq in E. subst p.
    rewrite (map_get_set_same key_eqb key_eqb_eq). congruence.
  - apply H.
Qed.

(** Setting the probe and then the result leaves the other positions and
    keys alone. *)
Lemma comment_memo_ok_probe_res (pos : nat) (st : Packratter) (h m : nat) :
  comment_memo_ok st ->
  comment_memo_ok
    (memo_set pos K_COMMENT (Res (rule_COMMENT this pos))
       (mkPackratter (_memo (memo_set pos K_COMMENT LEFT_RECUR st)) h m)).
Proof.
  intros H p e'. rewrite posm_of_memo_set.
  destruct (p =? pos) eqn:E.
  - apply Nat.eqb_eq in E. subst p.
    rewrite (map_get_set_same key_eqb key_eqb_eq). congruence.
  - change (_memo (mkPackratter (_memo (memo_set pos K_COMMENT LEFT_RECUR st)) h m))
      with (_memo (memo_set pos K_COMMENT LEFT_RECUR st)).
    rewrite posm_of_memo_set, E. apply H.
Qed.

Lemma run_COMMENT_ok (pos : nat) (st : Packratter) :
  comment_memo_ok st ->
  exists st',
    run_COMMENT memo_probe this pos st = (Ok (rule_COMMENT this pos), st') /\
    comment_memo_ok st'.
Proof.
  intros H. unfold run_COMMENT, run_with.
  pose proof (comment_memo_ok_ensure pos st H) as H0.
  set (st0 := ensure_posm pos st) in *.
  unfold memo_probe.
  destruct (map_get key_eqb K_COMMENT (posm_of (_memo st0) pos)) as [e|] eqn:E.
  - rewrite (H0 _ _ E). eexists. split; [reflexivity|].
    eapply comment_memo_ok_memo; [|exact H0]. reflexivity.
  - unfold ret. eexists. split; [reflexivity|].
    apply comment_memo_ok_probe_res. exact H0.
Qed.

Lemma skip_tok (p : nat) (RE : RegExp) (token : Token) :
  nth_error (toks this) p = Some (Tok token) ->
  skip this p RE =
  if test (allRE (PRe RE)) (text token) then (p + 1, VStr "") else (p, VFail).
Proof.
  intros E. unfold skip. rewrite E.
  assert (p < List.length (toks this)) by (apply nth_error_Some; congruence).
  destruct (Nat.ltb_spec p (List.length (toks this))); [reflexivity | lia].
Qed.

(** A token of white space or a line comment. *)
Definition is_blank (e : element) : bool :=
  match e with
  | Tok token =>
      test (allRE (PRe SPACE_RE)) (text token)
      || test (allRE (PRe LINE_COMMENT_RE)) (text token)
  | Hole _ => false
  end.

Lemma SKIP_loop_spec (fuel : nat) :
  forall pos st,
    comment_memo_ok st ->
    List.length (toks this) - pos <= fuel ->
    exists n st',
      SKIP_loop memo_probe this fuel pos st = (Ok (pos + n, VStr ""), st') /\
      comment_memo_ok st' /\
      (forall i, i < n ->
         exists e, nth_error (toks this) (pos + i) = Some e /\ is_blank e = true) /\
      (forall e, nth_error (toks this) (pos + n) = Some e -> is_blank e = false).
Proof.
  induction fuel as [|fuel IH]; intros pos st Hok Hfuel.
  - assert (Hge : ~ pos < List.length (toks this)) by lia.
    exists 0, st. simpl.
    destruct (Nat.ltb_spec pos (List.length (toks this))); [lia|].
    rewrite Nat.add_0_r. repeat split; auto; [intros i Hi; lia|].
    intros e He. exfalso. apply Hge. apply nth_error_Some. congruence.
  - simpl.
    destruct (Nat.ltb_spec pos (List.length (toks this))) as [Hlt|Hge].
    2:{ exists 0, st. rewrite Nat.add_0_r. repeat split; auto; [intros i Hi; lia|].
        intros e He.
        assert (pos < List.length (toks this)) by (apply nth_error_Some; congruence).
        lia. }
    destruct (nth_error (toks this) pos) as [[token|h]|] eqn:E.
    + (* a token *)
      unfold rule_SPACE. rewrite (skip_tok pos SPACE_RE token E).
      destruct (test (allRE (PRe SPACE_RE)) (text token)) eqn:Hsp; simpl.
      * destruct (IH (pos + 1) st Hok) as (n & st' & Hrun & Hok' & Hbl & Hstop);
          [lia|].
        exists (S n), st'. rewrite Hrun.
        replace (pos + S n) with (pos + 1 + n) by lia.
        repeat split; auto.
        intros [|i] Hi.
        -- rewrite Nat.add_0_r. exists (Tok token). split; [exact E|].
           simpl. rewrite Hsp. reflexivity.
        -- replace (pos + S i) with (pos + 1 + i) by lia. apply Hbl. lia.
      * unfold bind.
        destruct (run_COMMENT_ok pos st Hok) as (st1 & Hrc & Hok1).
        rewrite Hrc. unfold rule_COMMENT.
        rewrite (skip_tok pos LINE_COMMENT_RE token E).
        destruct (test (allRE (PRe LINE_COMMENT_RE)) (text token)) eqn:Hcm; simpl.
        -- destruct (IH (pos + 1) st1 Hok1) as (n & st' & Hrun & Hok' & Hbl & Hstop);
             [lia|].
           exists (S n), st'. rewrite Hrun.
           replace (pos + S n) with (pos + 1 + n) by lia.
           repeat split; auto.
           intros [|i] Hi.
           ++ rewrite Nat.add_0_r. exists (Tok token). split; [exact E|].
              simpl. rewrite Hsp, Hcm. reflexivity.
           ++ replace (pos + S i) with (pos + 1 + i) by lia. apply Hbl. lia.
        -- exists 0, st1. rewrite Nat.add_0_r. unfold ret.
           repeat split; auto; [intros i Hi; lia|].
           intros e He. rewrite E in He. inversion He; subst.
           simpl. rewrite Hsp, Hcm. reflexivity.
    + (* a hole *)
      exists 0, st. rewrite Nat.add_0_r. unfold ret.
      repeat split; auto; [intros i Hi; lia|].
      intros e He. rewrite E in He. inversion He; subst. reflexivity.
    + exists 0, st. rewrite Nat.add_0_r. unfold ret.
      repeat split; auto; [intros i Hi; lia|].
      intros e He. rewrite E in He. discriminate.
Qed.

(** C8.  On a parser whose memo table holds under [rule_COMMENT] what
    [run] stores there, [rule_SKIP(pos)] does not fail: it returns
    [(pos + n, '')], where the [n] elements from [pos] on are tokens of
    white space or comment, and the element at [pos + n], if there is one,
    is a hole marker or a token that is neither.  No hole marker is among the
    elements passed over. *)
Theorem rule_SKIP_never_fails (pos : nat) (st : Packratter) :
  comment_memo_ok st ->
  exists n st',
    rule_SKIP memo_probe this pos st = (Ok (pos + n, VStr ""), st') /\
    (forall i, i < n ->
       exists token,
         nth_error (toks this) (pos + i) = Some (Tok token) /\
         (test (allRE (PRe SPACE_RE)) (text token) = true \/
          test (allRE (PRe LINE_COMMENT_RE)) (text token) = true)) /\
    match nth_error (toks this) (pos + n) with
    | Some (Tok token) =>
        test (allRE (PRe SPACE_RE)) (text token) = false /\
        test (allRE (PRe LINE_COMMENT_RE)) (text token) = false
    | Some (Hole _) => True
    | None => True
    end /\
    comment_memo_ok st'.
Proof.
  intros Hok.
  destruct (SKIP_loop_spec (List.length (toks this)) pos st Hok)
    as (n & st' & Hrun & Hok' & Hbl & Hstop); [lia|].
  exists n, st'. split; [exact Hrun|]. split; [|split; [|exact Hok']].
  - intros i Hi. destruct (Hbl i Hi) as ([token|h] & He & Hb).
    + exists token. split; [exact He|]. simpl in Hb.
      apply orb_true_iff in Hb. exact Hb.
    + discriminate.
  - destruct (nth_error (toks this) (pos + n)) as [[token|h]|] eqn:E; auto.
    specialize (Hstop _ eq_refl). simpl in Hstop.
    apply orb_false_iff in Hstop. exact Hstop.
Qed.

(** After [rule_SKIP] the position is between the one given and the end
    of the stream. *)
Lemma rule_SKIP_bounds (pos : nat) (st : Packratter) :
  comment_memo_ok st ->
  exists p' st',
    rule_SKIP memo_probe this pos st = (Ok (p', VStr ""), st') /\
    pos <= p' /\ (pos <= List.length (toks this) -> p' <= List.length (toks this)) /\
    comment_memo_ok st'.
Proof.
  intros Hok.
  destruct (SKIP_loop_spec (List.length (toks this)) pos st Hok)
    as (n & st' & Hrun & Hok' & Hbl & Hstop); [lia|].
  exists (pos + n), st'. split; [exact Hrun|]. split; [lia|]. split; [|exact Hok'].
  intros Hle. destruct n as [|n]; [lia|].
  destruct (Hbl n) as (e & He & _); [lia|].
  assert (pos + n < List.length (toks this)) by (apply nth_error_Some; congruence).
  lia.
Qed.

(** [eat] in terms of the position that [rule_SKIP] returns. *)
Lemma eat_after_SKIP (pos : nat) (patt0 : patt) (st : Packratter) :
  comment_memo_ok st ->
  exists p' st',
    rule_SKIP memo_probe this pos st = (Ok (p', VStr ""), st') /\
    pos <= p' /\ (pos <= List.length (toks this) -> p' <= List.length (toks this)) /\
    comment_memo_ok st' /\
    eat memo_probe this pos patt0 st =
    (Ok match nth_error (toks this) p' with
        | Some (Tok token) =>
            if eat_matches patt0 (text token)
            then (p' + 1, VStr (text token))
            else (p', VFail)
        | _ => (p', VFail)
        end, st').
Proof.
  intros Hok.
  destruct (rule_SKIP_bounds pos st Hok) as (p' & st' & Hrun & Hle & Hup & Hok').
  exists p', st'. repeat (split; [assumption|]).
  unfold eat, bind. rewrite Hrun. simpl.
  destruct (Nat.ltb_spec p' (List.length (toks this))) as [Hlt|Hge].
  - destruct (nth_error (toks this) p') as [[token|h]|]; try reflexivity.
    destruct (eat_matches patt0 (text token)); reflexivity.
  - assert (E : nth_error (toks this) p' = None) by (apply nth_error_None; lia).
    rewrite E. reflexivity.
Qed.

(** The position of a pair is between [pos] and the end of the stream. *)
Definition in_bounds (pos : nat) (r : rresult) : Prop :=
  pos <= fst r /\ fst r <= List.length (toks this).

Lemma skip_in_bounds (pos : nat) (RE : RegExp) :
  pos <= List.length (toks this) -> in_bounds pos (skip this pos RE).
Proof.
  intros Hle. unfold skip, in_bounds.
  destruct (Nat.ltb_spec pos (List.length (toks this))) as [Hlt|Hge].
  - destruct (nth_error (toks this) pos) as [[token|h]|]; simpl; try lia.
    destruct (test _ _); simpl; lia.
  - simpl. lia.
Qed.

Lemma eat_in_bounds (pos : nat) (patt0 : patt) (st : Packratter) :
  comment_memo_ok st -> pos <= List.length (toks this) ->
  exists r st',
    eat memo_probe this pos patt0 st = (Ok r, st') /\ in_bounds pos r.
Proof.
  intros Hok Hle.
  destruct (eat_after_SKIP pos patt0 st Hok)
    as (p' & st' & _ & Hlo & Hup & _ & Heat).
  specialize (Hup Hle).
  eexists _, st'. split; [exact Heat|]. unfold in_bounds.
  destruct (nth_error (toks this) p') as [[token|h]|] eqn:E; simpl; try lia.
  assert (p' < List.length (toks this)) by (apply nth_error_Some; congruence).
  destruct (eat_matches patt0 (text token)); simpl; lia.
Qed.

(** C10.  On a parser whose memo table holds under [rule_COMMENT] what
    [run] stores there, and from a position [pos] within the stream, each
    terminal operation of the scanner returns a pair, failing or not, whose
    position is at least [pos] and at most the length of the stream. *)
Theorem scanner_positions_in_bounds (pos : nat) (st : Packratter) :
  comment_memo_ok st ->
  pos <= List.length (toks this) ->
  (forall RE, in_bounds pos (skip this pos RE)) /\
  in_bounds pos (rule_SPACE this pos) /\
  in_bounds pos (rule_COMMENT this pos) /\
  (exists r st', rule_SKIP memo_probe this pos st = (Ok r, st') /\ in_bounds pos r) /\
  (forall patt0,
      exists r st', eat memo_probe this pos patt0 st = (Ok r, st') /\ in_bounds pos r) /\
  (exists r st', rule_NUMBER memo_probe this pos st = (Ok r, st') /\ in_bounds pos r) /\
  (exists r st', rule_STRING memo_probe this pos st = (Ok r, st') /\ in_bounds pos r) /\
  (exists r st', rule_IDENT memo_probe this pos st = (Ok r, st') /\ in_bounds pos r) /\
  (exists r st', rule_HOLE memo_probe this pos st = (Ok r, st') /\ in_bounds pos r) /\
  (exists r st', rule_EOF memo_probe this pos st = (Ok r, st') /\ in_bounds pos r).
Proof.
  intros Hok Hle.
  destruct (rule_SKIP_bounds pos st Hok) as (p' & st' & Hrun & Hlo & Hup & _).
  specialize (Hup Hle).
  split; [intros RE; apply skip_in_bounds; exact Hle|].
  split; [apply skip_in_bounds; exact Hle|].
  split; [apply skip_in_bounds; exact Hle|].
  split; [exists (p', VStr ""), st'; split; [exact Hrun | split; simpl; lia]|].
  split; [intros patt0; apply eat_in_bounds; assumption|].
  split; [apply eat_in_bounds; assumption|].
  split; [apply eat_in_bounds; assumption|].
  split; [|split].
  - unfold rule_IDENT, bind. rewrite Hrun. simpl.
    destruct (Nat.leb_spec (List.length (toks this)) p') as [Hge|Hlt].
    + eexists _, _. split; [reflexivity|]. split; simpl; lia.
    + destruct (nth_error (toks this) p') as [[token|h]|];
        try (eexists _, _; split; [reflexivity|]; split; simpl; lia).
      destruct (test _ _ && _);
        eexists _, _; (split; [reflexivity|]); split; simpl; lia.
  - unfold rule_HOLE, bind. rewrite Hrun. simpl.
    destruct (Nat.leb_spec (List.length (toks this)) p') as [Hge|Hlt].
    + eexists _, _. split; [reflexivity|]. split; simpl; lia.
    + destruct (nth_error (toks this) p') as [[token|h]|];
        eexists _, _; (split; [reflexivity|]); split; simpl; lia.
  - unfold rule_EOF, bind. rewrite Hrun. simpl.
    eexists _, _. split; [reflexivity|]. split; simpl; lia.
Qed.

End ScannerFacts.

Lemma rule_SKIP_never_fails_witness :
  comment_memo_ok sp_x_scanner fresh /\
  exists n st',
    rule_SKIP memo_probe sp_x_scanner 0 fresh = (Ok (0 + n, VStr ""), st') /\
    (forall i, i < n ->
       exists token,
         nth_error (toks sp_x_scanner) (0 + i) = Some (Tok token) /\
         (test (allRE (PRe SPACE_RE)) (text token) = true \/
          test (allRE (PRe LINE_COMMENT_RE)) (text token) = true)) /\
    match nth_error (toks sp_x_scanner) (0 + n) with
    | Some (Tok token) =>
        test (allRE (PRe SPACE_RE)) (text token) = false /\
        test (allRE (PRe LINE_COMMENT_RE)) (text token) = false
    | Some (Hole _) => True
    | None => True
    end /\
    comment_memo_ok sp_x_scanner st'.
Proof.
  split; [intros p e H; discriminate|].
  apply (rule_SKIP_never_fails sp_x_scanner 0 fresh).
  intros p e H; discriminate.
Defined.

Lemma scanner_positions_in_bounds_witness :
  comment_memo_ok sp_x_scanner fresh /\
  0 <= List.length (toks sp_x_scanner) /\
  exists r st',
    rule_EOF memo_probe sp_x_scanner 0 fresh = (Ok r, st') /\
    in_bounds sp_x_scanner 0 r.
Proof.
  split; [intros p e H; discriminate|]. split; [simpl; lia|].
  apply (scanner_positions_in_bounds sp_x_scanner 0 fresh).
  - intros p e H; discriminate.
  - simpl; lia.
Defined.

(** ** A string pattern matches its own text only *)

Lemma chars_app (a b : string) : chars (a ++ b) = chars a ++ chars b.
Proof. induction a; simpl; [reflexivity | f_equal; exact IHa]. Qed.

Lemma ascii_eqb_false_sym (a b : ascii) :
  (a =? b)%char = false -> (b =? a)%char = false.
Proof. rewrite (Ascii.eqb_sym a b). auto. Qed.

Definition specials : list ascii := chars "/\^$*+?.()|[]{}".

Lemma special_esc_tok (c : ascii) :
  re_special c = true -> esc_tok c = Some (TChar c).
Proof.
  unfold re_special. fold specials. intros H.
  apply existsb_exists in H. destruct H as (x & Hin & Hx).
  apply Ascii.eqb_eq in Hx. subst x.
  unfold specials in Hin. simpl in Hin.
  repeat (destruct Hin as [<-|Hin]; [reflexivity|]).
  destruct Hin.
Qed.

Lemma plain_lstep (c : ascii) :
  re_special c = false ->
  lstep LNormal c = Some (LNormal, Some (TChar c)).
Proof.
  unfold re_special. fold specials. intros H.
  assert (Hne : forall x, In x specials -> (c =? x)%char = false).
  { intros x Hin. apply ascii_eqb_false_sym.
    destruct (x =? c)%char eqn:E; [|reflexivity].
    assert (existsb (fun x0 => (x0 =? c)%char) specials = true)
      by (apply existsb_exists; exists x; auto).
    congruence. }
  unfold lstep, plain_tok, bs.
  rewrite !Hne by (unfold specials; simpl; tauto).
  reflexivity.
Qed.

Definition escape_char (c : ascii) : list ascii :=
  if re_special c then [bs; c] else [c].

Lemma lex_escaped (cs rest : list ascii) :
  lex_go LNormal (flat_map escape_char cs ++ rest) =
  option_map (app (map TChar cs)) (lex_go LNormal rest).
Proof.
  induction cs as [|c cs IH].
  - simpl. destruct (lex_go LNormal rest); reflexivity.
  - cbn [flat_map map]. rewrite <- app_assoc. unfold escape_char at 1.
    destruct (re_special c) eqn:E.
    + cbn [app lex_go].
      change (lstep LNormal bs) with (Some (LEsc, @None rtok)).
      cbn [lex_go lstep]. rewrite (special_esc_tok c E). rewrite IH.
      destruct (lex_go LNormal rest); reflexivity.
    + cbn [app lex_go]. rewrite (plain_lstep c E). rewrite IH.
      destruct (lex_go LNormal rest); reflexivity.
Qed.

Lemma build_chars (cs : list ascii) :
  forall stack cur rest,
    build stack cur (map TChar cs ++ rest) =
    build stack (rev (map (fun c => RLeaf (TChar c)) cs) ++ cur) rest.
Proof.
  induction cs as [|c cs IH]; intros stack cur rest; simpl; [reflexivity|].
  rewrite IH. rewrite <- app_assoc. reflexivity.
Qed.

Lemma items_of_leaves (ts : list rtok) :
  items_of (map RLeaf ts) = Some (map ILeaf ts).
Proof. induction ts; simpl; [reflexivity | rewrite IHts; reflexivity]. Qed.

Lemma asm_chars (cs : list ascii) :
  forall rest alts sq canq,
    asm (map (fun c => ILeaf (TChar c)) cs ++ rest) alts sq canq =
    asm rest alts (rev (map RChar cs) ++ sq)
      (match cs with [] => canq | _ => true end).
Proof.
  induction cs as [|c cs IH]; intros rest alts sq canq; simpl; [reflexivity|].
  rewrite IH. rewrite <- app_assoc. simpl. destruct cs; reflexivity.
Qed.

(** The pattern that [allRE] builds from a string. *)
Definition literal_re (cs : list ascii) : re :=
  mk_seq (RBol :: map RChar cs ++ [REol]).

Lemma allRE_str_source (s : string) :
  chars (source (allRE (PStr s))) =
  "^"%char :: flat_map escape_char (chars s) ++ ["$"%char].
Proof.
  unfold allRE, re_tag, RegExp_new. cbn [re_parts patt_flags sub_of_patt re_subst].
  cbn [String.append String.eqb source].
  change (chars (String "^" (re_escape s ++ "$")))
    with ("^"%char :: chars (re_escape s ++ "$")).
  rewrite chars_app. unfold re_escape. rewrite chars_str. 
  reflexivity.
Qed.

Lemma lex_literal (cs : list ascii) :
  lex ("^"%char :: flat_map escape_char cs ++ ["$"%char]) =
  Some (TBol :: map TChar cs ++ [TEol]).
Proof.
  unfold lex.
  change (lex_go LNormal ("^"%char :: flat_map escape_char cs ++ ["$"%char]))
    with (option_map (emit (Some TBol))
            (lex_go LNormal (flat_map escape_char cs ++ ["$"%char]))).
  rewrite lex_escaped. reflexivity.
Qed.

Lemma build_literal (cs : list ascii) :
  build [] [] (TBol :: map TChar cs ++ [TEol]) =
  Some (map RLeaf (TBol :: map TChar cs ++ [TEol])).
Proof.
  cbn [build]. rewrite build_chars. cbn [build].
  f_equal. cbn [rev]. rewrite rev_app_distr, rev_involutive. cbn [rev app map].
  rewrite map_app, map_map. reflexivity.
Qed.

Lemma assemble_literal (cs : list ascii) :
  assemble (map ILeaf (TBol :: map TChar cs ++ [TEol])) = Some (literal_re cs).
Proof.
  unfold assemble. cbn [map asm]. rewrite map_app, map_map.
  rewrite asm_chars. cbn [map asm]. unfold literal_re.
  f_equal. cbn [rev app mk_alt]. rewrite rev_app_distr, rev_involutive.
  reflexivity.
Qed.

Lemma parse_allRE_str (s : string) :
  parse (source (allRE (PStr s))) = Some (literal_re (chars s)).
Proof.
  unfold parse. rewrite allRE_str_source, lex_literal.
  unfold parse_tokens. rewrite build_literal, items_of_leaves.
  apply assemble_literal.
Qed.

Lemma mk_seq_cons (a : re) (l : list re) :
  l <> [] -> mk_seq (a :: l) = RSeq a (mk_seq l).
Proof. destruct l; [congruence | reflexivity]. Qed.

Lemma skipn_nth_error {A} (l : list A) (i : nat) (x : A) :
  nth_error l i = Some x -> skipn i l = x :: skipn (S i) l.
Proof.
  revert i. induction l as [|y l IH]; intros [|i] H; simpl in *; try discriminate.
  - congruence.
  - rewrite (IH i H). destruct l; reflexivity.
Qed.

Lemma m_literal_tail (s cs : list ascii) :
  forall g i c k res,
    m false false s (mk_seq (map RChar cs ++ [REol])) g i c k = Some res ->
    skipn i s = cs.
Proof.
  induction cs as [|ch cs IH]; intros g i c k res H.
  - cbn [map app mk_seq m] in H. unfold at_eol in H.
    destruct (nth_error s i) eqn:E; [simpl in H; discriminate|].
    apply skipn_all2. apply nth_error_None. exact E.
  - cbn [map app] in H. rewrite mk_seq_cons in H by (destruct cs; discriminate).
    cbn [m] in H. unfold one_char in H.
    destruct (nth_error s i) as [x|] eqn:E; [|discriminate].
    unfold canon in H.
    destruct (Ascii.eqb_spec x ch) as [->|]; [|discriminate].
    rewrite (skipn_nth_error _ _ _ E). f_equal. eapply IH. exact H.
Qed.

Lemma match_at_literal (s cs : list ascii) (i : nat) (res : nat * caps) :
  match_at false false s (literal_re cs) i = Some res -> i = 0 /\ s = cs.
Proof.
  unfold match_at, literal_re.
  rewrite mk_seq_cons by (destruct cs; discriminate).
  cbn [m]. unfold at_bol. destruct i as [|j]; simpl.
  - intros H. split; [reflexivity|]. apply m_literal_tail in H. exact H.
  - discriminate.
Qed.

Lemma search_literal (s cs : list ascii) (fuel : nat) :
  forall i x, search false false s (literal_re cs) fuel i = Some x -> s = cs.
Proof.
  induction fuel as [|fuel IH]; intros i x; simpl;
    destruct (match_at false false s (literal_re cs) i) as [[j c]|] eqn:E;
    try discriminate; intros H.
  - apply match_at_literal in E. tauto.
  - apply match_at_literal in E. tauto.
  - eapply IH. exact H.
Qed.

(** An anchored string pattern matches no text but its own. *)
Lemma test_allRE_str (s txt : string) :
  test (allRE (PStr s)) txt = true -> s = txt.
Proof.
  unfold test, exec. rewrite parse_allRE_str.
  cbn [flags allRE re_tag RegExp_new patt_flags f_global f_sticky
       f_ignoreCase f_multiline no_flags orb].
  destruct (List.length (chars txt) <? 0); [discriminate|].
  destruct (search false false (chars txt) (literal_re (chars s)) _ 0)
    as [[i [j c]]|] eqn:E; [|discriminate].
  intros _. apply search_literal in E.
  rewrite <- (str_chars s), <- (str_chars txt). congruence.
Qed.

(** When a pattern accepts a text: a string is the token's text, an
    expression matches all of it. *)
Definition patt_matches (patt0 : patt) (txt : string) : bool :=
  match patt0 with
  | PStr s => String.eqb s txt
  | PRe R => test (allRE (PRe R)) txt
  end.

Lemma eat_matches_patt (patt0 : patt) (txt : string) :
  eat_matches patt0 txt = patt_matches patt0 txt.
Proof.
  destruct patt0 as [s|R]; unfold eat_matches, patt_matches; [|reflexivity].
  destruct (String.eqb_spec s txt) as [->|Hne]; [reflexivity|].
  simpl. destruct (test (allRE (PStr s)) txt) eqn:E; [|reflexivity].
  apply test_allRE_str in E. contradiction.
Qed.

(** C3, as the code has it.  [eat(pos, patt)] first runs [rule_SKIP]; with
    [p'] the position after it, if the element at [p'] is a token whose text
    is [patt] (a string) or matches all of [patt] (an expression), [eat]
    returns [(p' + 1, text)]; otherwise it returns [(p', FAIL)], also at
    the position after the skip. *)
Theorem eat_after_skip
    (this : Scanner) (pos : nat) (patt0 : patt) (st : Packratter) :
  comment_memo_ok this st ->
  exists p' st',
    rule_SKIP memo_probe this pos st = (Ok (p', VStr ""), st') /\
    eat memo_probe this pos patt0 st =
    (Ok match nth_error (toks this) p' with
        | Some (Tok token) =>
            if patt_matches patt0 (text token)
            then (p' + 1, VStr (text token))
            else (p', VFail)
        | _ => (p', VFail)
        end, st').
Proof.
  intros Hok.
  destruct (eat_after_SKIP this pos patt0 st Hok)
    as (p' & st' & Hskip & _ & _ & _ & Heat).
  exists p', st'. split; [exact Hskip|]. rewrite Heat.
  destruct (nth_error (toks this) p') as [[token|h]|]; try reflexivity.
  rewrite eat_matches_patt. reflexivity.
Qed.

Lemma eat_after_skip_witness :
  comment_memo_ok sp_x_scanner fresh /\
  exists p' st',
    rule_SKIP memo_probe sp_x_scanner 0 fresh = (Ok (p', VStr ""), st') /\
    eat memo_probe sp_x_scanner 0 (PStr "x") fresh =
    (Ok match nth_error (toks sp_x_scanner) p' with
        | Some (Tok token) =>
            if patt_matches (PStr "x") (text token)
            then (p' + 1, VStr (text token))
            else (p', VFail)
        | _ => (p', VFail)
        end, st').
Proof.
  split; [intros p e H; discriminate|].
  apply (eat_after_skip sp_x_scanner 0 (PStr "x") fresh).
  intros p e H; discriminate.
Defined.

(** C3 as stated fails: on the stream of a space and an [x], [eat(0, 'y')]
    skips the space, finds [x] at position 1, and fails with position 1,
    not with the position 0 it was called with. *)
Lemma eat_fails_after_the_skip :
  nth_error (toks sp_x_scanner) 1 = Some (Tok (mkToken "x" (mkPos 0 1 2))) /\
  fst (eat memo_probe sp_x_scanner 0 (PStr "y") fresh) = Ok (1, VFail) /\
  fst (eat memo_probe sp_x_scanner 0 (PStr "y") fresh) <> Ok (0, VFail).
Proof.
  split; [reflexivity|].
  assert (E : fst (eat memo_probe sp_x_scanner 0 (PStr "y") fresh) = Ok (1, VFail))
    by (vm_compute; reflexivity).
  split; [exact E|]. rewrite E. discriminate.
Qed.

(** ** [run] keeps the memo table of [rule_COMMENT] right

    The hypothesis of the three theorems above holds of the new parser and
    is kept by every call of [run], whatever it returns, so it holds during
    a parse. *)

Section Preservation.

Variable probe : probe_t.
Variable this : Scanner.
Variable rules : nat -> nat -> Proc.

Definition keeps {A} (c : M A) : Prop :=
  forall st, comment_memo_ok this st -> comment_memo_ok this (snd (c st)).

Lemma keeps_ret {A} (a : A) : keeps (ret a).
Proof. intros st H. exact H. Qed.

Lemma keeps_throw {A} (e : error) : keeps (@throw A e).
Proof. intros st H. exact H. Qed.

Lemma keeps_diverge {A} : keeps (@diverge A).
Proof. intros st H. exact H. Qed.

Lemma keeps_bind {A B} (c : M A) (f : A -> M B) :
  keeps c -> (forall a, keeps (f a)) -> keeps (bind c f).
Proof.
  intros Hc Hf st H. unfold bind. specialize (Hc st H).
  destruct (c st) as [[a|e|] st']; simpl in *; auto.
  apply Hf. exact Hc.
Qed.

Lemma keeps_run_with_other (invoke : M rresult) (k : key) (pos : nat)
    (name : string) :
  k <> K_COMMENT -> keeps invoke -> keeps (run_with probe invoke k pos name).
Proof.
  intros Hk Hinv st H. unfold run_with.
  pose proof (comment_memo_ok_ensure this pos st H) as H0.
  set (st0 := ensure_posm pos st) in *.
  destruct (probe (posm_of (_memo st0) pos) k) as [[|r]|]; simpl.
  - exact H0.
  - exact H0.
  - match goal with |- context [invoke ?s] => set (st2 := s) end.
    assert (H2 : comment_memo_ok this st2).
    { eapply comment_memo_ok_memo; [reflexivity|].
      apply comment_memo_ok_set_other; [exact Hk | exact H0]. }
    specialize (Hinv st2 H2).
    destruct (invoke st2) as [[r|e|] st3]; simpl in *; auto.
    apply comment_memo_ok_set_other; assumption.
Qed.

Lemma keeps_run_with_COMMENT (pos : nat) (name : string) :
  keeps (run_with probe (ret (rule_COMMENT this pos)) K_COMMENT pos name).
Proof.
  intros st H. unfold run_with.
  pose proof (comment_memo_ok_ensure this pos st H) as H0.
  set (st0 := ensure_posm pos st) in *.
  destruct (probe (posm_of (_memo st0) pos) K_COMMENT) as [[|r]|]; simpl.
  - exact H0.
  - exact H0.
  - apply comment_memo_ok_probe_res. exact H0.
Qed.

Lemma keeps_run_COMMENT (pos : nat) : keeps (run_COMMENT probe this pos).
Proof. apply keeps_run_with_COMMENT. Qed.

Lemma keeps_SKIP_loop (fuel : nat) :
  forall pos, keeps (SKIP_loop probe this fuel pos).
Proof.
  induction fuel as [|fuel IH]; intros pos; simpl.
  - destruct (pos <? _); [apply keeps_diverge | apply keeps_ret].
  - destruct (pos <? _); [|apply keeps_ret].
    destruct (nth_error (toks this) pos) as [[token|h]|]; try apply keeps_ret.
    destruct (negb (is_FAIL (snd (rule_SPACE this pos)))); [apply IH|].
    apply keeps_bind; [apply keeps_run_COMMENT|].
    intros pair. destruct (negb (is_FAIL (snd pair))); [apply IH | apply keeps_ret].
Qed.

Lemma keeps_eat (pos : nat) (patt0 : patt) : keeps (eat probe this pos patt0).
Proof.
  unfold eat. apply keeps_bind; [apply keeps_SKIP_loop|].
  intros r. destruct (fst r <? _); [|apply keeps_ret].
  destruct (nth_error _ _) as [[token|h]|]; try apply keeps_ret.
  destruct (eat_matches _ _); apply keeps_ret.
Qed.

Lemma keeps_call_builtin (b : builtin) (pos : nat) :
  keeps (call_builtin probe this b pos).
Proof.
  destruct b; simpl; try apply keeps_ret; try apply keeps_SKIP_loop;
    try apply keeps_eat.
  - unfold rule_IDENT. apply keeps_bind; [apply keeps_SKIP_loop|].
    intros r. destruct (_ <=? _); [apply keeps_ret|].
    destruct (nth_error _ _) as [[token|h]|]; try apply keeps_ret.
    destruct (_ && _); apply keeps_ret.
  - unfold rule_HOLE. apply keeps_bind; [apply keeps_SKIP_loop|].
    intros r. destruct (_ <=? _); [apply keeps_ret|].
    destruct (nth_error _ _) as [[token|h]|]; apply keeps_ret.
  - unfold rule_EOF. apply keeps_bind; [apply keeps_SKIP_loop|].
    intros r. apply keeps_ret.
Qed.

Lemma keeps_run_via (call : fn -> nat -> M rresult) (k : key) (pos : nat)
    (name : string) :
  (forall pos', call (Builtin B_COMMENT) pos' = ret (rule_COMMENT this pos')) ->
  (forall f pos', keeps (call f pos')) ->
  keeps (run_via probe this call k pos name).
Proof.
  intros Hcom Hcall. unfold run_via.
  destruct k as [[[]|id]| |s|oid R];
    try (apply keeps_run_with_other; [discriminate|]; simpl;
         first [apply Hcall | apply keeps_throw | apply keeps_eat]).
  simpl. rewrite Hcom. apply keeps_run_with_COMMENT.
Qed.

Lemma keeps_exec_proc (call : fn -> nat -> M rresult) (p : Proc) :
  (forall pos', call (Builtin B_COMMENT) pos' = ret (rule_COMMENT this pos')) ->
  (forall f pos', keeps (call f pos')) ->
  keeps (exec_proc probe this call p).
Proof.
  intros Hcom Hcall. induction p as [r|e|k pos name cont IH|f pos cont IH|pos patt0 cont IH];
    simpl.
  - apply keeps_ret.
  - apply keeps_throw.
  - apply keeps_bind; [apply keeps_run_via; assumption | exact IH].
  - apply keeps_bind; [apply Hcall | exact IH].
  - apply keeps_bind; [apply keeps_eat | exact IH].
Qed.

Lemma keeps_call_fn (fuel : nat) :
  forall f pos, keeps (call_fn probe this rules fuel f pos).
Proof.
  induction fuel as [|fuel IH]; intros [b|id] pos; simpl;
    try apply keeps_call_builtin.
  - apply keeps_diverge.
  - apply keeps_exec_proc; [|exact IH].
    intros pos'. destruct fuel; reflexivity.
Qed.

(** [run] keeps the invariant, whether it returns, throws or goes on for
    ever. *)
Lemma run_keeps_comment_memo_ok (fuel : nat) (k : key) (pos : nat)
    (name : string) :
  keeps (run probe this rules fuel k pos name).
Proof.
  unfold run. apply keeps_run_via; [|apply keeps_call_fn].
  intros pos'. destruct fuel; reflexivity.
Qed.

(** What [rule_SKIP] asks of [run] is [run] itself on the key
    [rule_COMMENT]. *)
Lemma run_COMMENT_is_run (fuel : nat) (pos : nat) :
  run_COMMENT probe this pos = run probe this rules fuel K_COMMENT pos "COMMENT".
Proof. destruct fuel; reflexivity. Qed.

End Preservation.

(** ** Memoization (C1) *)

(** The error that [run] throws on finding its own probe. *)
Definition is_left_recursion (e : error) : Prop :=
  exists name, e = Error ("Left recursion on rule: " ++ name).

Section Memoization.

Variable this : Scanner.
Variable rules : nat -> nat -> Proc.

(** [run] with the memo table, and the variant whose probe misses every
    time. *)
Definition run_memo := run memo_probe this rules.
Definition run_nomemo := run miss_probe this rules.

(** From some budget on, and in whatever state of the parser, the
    computation ends in [o]. *)
Definition settles {A} (c : nat -> M A) (o : outcome A) : Prop :=
  exists m, forall m', m <= m' -> forall st, fst (c m' st) = o.

(** Every result in the memo table is what the variant computes for its
    key and position. *)
Definition sound (st : Packratter) : Prop :=
  forall p k r,
    map_get key_eqb k (posm_of (_memo st) p) = Some (Res r) ->
    forall name, settles (fun m => run_nomemo m k p name) (Ok r).

(** [cM], run with the memo table in a sound state, ends as [cN] does
    without it, unless it throws the left-recursion error. *)
Definition sim {A} (cM : M A) (cN : nat -> M A) : Prop :=
  forall st, sound st ->
    match cM st with
    | (Ok a, st') => sound st' /\ settles cN (Ok a)
    | (Err e, _) => is_left_recursion e \/ settles cN (Err e)
    | (Diverge, _) => True
    end.

Lemma sound_fresh : sound fresh.
Proof. intros p k r H. discriminate. Qed.

Lemma sound_memo (st st' : Packratter) :
  _memo st = _memo st' -> sound st -> sound st'.
Proof. intros E H p k r. rewrite <- E. apply H. Qed.

Lemma settles_ext {A} (c c' : nat -> M A) (o : outcome A) :
  (forall m st, fst (c m st) = fst (c' m st)) -> settles c o -> settles c' o.
Proof.
  intros E [m H]. exists m. intros m' Hm st. rewrite <- E. apply H. exact Hm.
Qed.

Lemma sim_ext {A} (cM : M A) (cN cN' : nat -> M A) :
  (forall m st, fst (cN m st) = fst (cN' m st)) -> sim cM cN -> sim cM cN'.
Proof.
  intros E H st Hs. specialize (H st Hs).
  destruct (cM st) as [[a|e|] st']; auto.
  - destruct H as [H1 H2]. split; [exact H1|]. eapply settles_ext; eauto.
  - destruct H as [H|H]; [left; exact H|]. right. eapply settles_ext; eauto.
Qed.

Lemma sim_ret {A} (a : A) : sim (ret a) (fun _ => ret a).
Proof. intros st Hs. simpl. split; [exact Hs|]. exists 0. reflexivity. Qed.

Lemma sim_throw {A} (e : error) : sim (@throw A e) (fun _ => throw e).
Proof. intros st Hs. simpl. right. exists 0. reflexivity. Qed.

Lemma sim_diverge {A} (cN : nat -> M A) : sim diverge cN.
Proof. intros st Hs. exact I. Qed.

Lemma settles_bind {A B} (cN : nat -> M A) (fN : A -> nat -> M B)
    (a : A) (o : outcome B) :
  settles cN (Ok a) -> settles (fN a) o ->
  settles (fun m => bind (cN m) (fun a => fN a m)) o.
Proof.
  intros [m1 H1] [m2 H2]. exists (Nat.max m1 m2). intros m' Hm st.
  unfold bind. specialize (H1 m' ltac:(lia) st).
  destruct (cN m' st) as [o' st1]. simpl in H1. subst o'.
  apply H2. lia.
Qed.

Lemma settles_bind_err {A B} (cN : nat -> M A) (fN : A -> nat -> M B)
    (e : error) :
  settles cN (Err e) ->
  settles (fun m => bind (cN m) (fun a => fN a m)) (Err e).
Proof.
  intros [m1 H1]. exists m1. intros m' Hm st.
  unfold bind. specialize (H1 m' Hm st).
  destruct (cN m' st) as [o' st1]. simpl in H1. subst o'. reflexivity.
Qed.

Lemma sim_bind {A B} (cM : M A) (cN : nat -> M A)
    (fM : A -> M B) (fN : A -> nat -> M B) :
  sim cM cN -> (forall a, sim (fM a) (fN a)) ->
  sim (bind cM fM) (fun m => bind (cN m) (fun a => fN a m)).
Proof.
  intros Hc Hf st Hs. unfold bind at 1. specialize (Hc st Hs).
  destruct (cM st) as [[a|e|] st1].
  - destruct Hc as [Hs1 Hset]. specialize (Hf a st1 Hs1).
    destruct (fM a st1) as [[b|e|] st2]; auto.
    + destruct Hf as [Hs2 Hset2]. split; [exact Hs2|].
      eapply settles_bind; eauto.
    + destruct Hf as [Hf|Hf]; [left; exact Hf|]. right.
      eapply settles_bind; eauto.
  - destruct Hc as [Hc|Hc]; [left; exact Hc|]. right.
    apply settles_bind_err. exact Hc.
  - exact I.
Qed.

(** On a miss-every-time probe [run] ends as the call of its rule does. *)
Lemma run_with_miss_fst (invoke : M rresult) (k : key) (pos : nat)
    (name : string) (st : Packratter) :
  exists st2,
    fst (run_with miss_probe invoke k pos name st) = fst (invoke st2).
Proof.
  unfold run_with, miss_probe.
  set (st1 := memo_set pos k LEFT_RECUR (ensure_posm pos st)).
  exists (mkPackratter (_memo st1) (hits st1) (S (misses st1))).
  destruct (invoke _) as [[r|e|] st3]; reflexivity.
Qed.

Lemma settles_run_with_miss (inv : nat -> M rresult) (k : key) (pos : nat)
    (name : string) (o : outcome rresult) :
  settles inv o ->
  settles (fun m => run_with miss_probe (inv m) k pos name) o.
Proof.
  intros [m H]. exists m. intros m' Hm st.
  destruct (run_with_miss_fst (inv m') k pos name st) as [st2 ->].
  apply H. exact Hm.
Qed.

Definition invoke_nomemo (k : key) (pos : nat) (name : string) (m : nat)
  : M rresult :=
  invoke miss_probe this (call_fn miss_probe this rules m) k pos name.

(** A pair does not depend on the name the rule was asked under. *)
Lemma invoke_nomemo_name (k : key) (pos : nat) (name name' : string)
    (r : rresult) :
  settles (invoke_nomemo k pos name) (Ok r) ->
  settles (invoke_nomemo k pos name') (Ok r).
Proof.
  destruct k; try (intros H; exact H).
  intros [m H]. specialize (H m (le_n m) fresh). discriminate.
Qed.

Lemma sound_set_probe (pos : nat) (k : key) (st : Packratter) (h m : nat) :
  sound st ->
  sound (mkPackratter (_memo (memo_set pos k LEFT_RECUR st)) h m).
Proof.
  intros Hs p k' r.
  change (_memo (mkPackratter (_memo (memo_set pos k LEFT_RECUR st)) h m))
    with (_memo (memo_set pos k LEFT_RECUR st)).
  rewrite posm_of_memo_set.
  destruct (p =? pos) eqn:E; [|apply Hs].
  apply Nat.eqb_eq in E. subst p.
  destruct (key_eqb k' k) eqn:Ek.
  - apply key_eqb_eq in Ek. subst k'.
    rewrite (map_get_set_same key_eqb key_eqb_eq). discriminate.
  - rewrite (map_get_set_other key_eqb key_eqb_eq); [apply Hs|].
    intros ->. rewrite key_eqb_refl in Ek. discriminate.
Qed.

Lemma sound_set_res (pos : nat) (k : key) (r : rresult) (st : Packratter) :
  sound st ->
  (forall name, settles (fun m => run_nomemo m k pos name) (Ok r)) ->
  sound (memo_set pos k (Res r) st).
Proof.
  intros Hs Hr p k' r'. rewrite posm_of_memo_set.
  destruct (p =? pos) eqn:E; [|apply Hs].
  apply Nat.eqb_eq in E. subst p.
  destruct (key_eqb k' k) eqn:Ek.
  - apply key_eqb_eq in Ek. subst k'.
    rewrite (map_get_set_same key_eqb key_eqb_eq).
    intros [= <-]. exact Hr.
  - rewrite (map_get_set_other key_eqb key_eqb_eq); [apply Hs|].
    intros ->. rewrite key_eqb_refl in Ek. discriminate.
Qed.

Lemma sound_ensure (pos : nat) (st : Packratter) :
  sound st -> sound (ensure_posm pos st).
Proof. intros Hs p k r. rewrite posm_of_ensure. apply Hs. Qed.

(** The heart of the matter: [run] with the memo table agrees with the
    variant when the call of the rule does. *)
Lemma sim_run_with (invM : M rresult) (k : key) (pos : nat) (name : string) :
  sim invM (invoke_nomemo k pos name) ->
  sim (run_with memo_probe invM k pos name)
      (fun m => run_nomemo m k pos name).
Proof.
  intros Hinv st Hs. unfold run_with.
  pose proof (sound_ensure pos st Hs) as H0.
  set (st0 := ensure_posm pos st) in *.
  unfold memo_probe.
  destruct (map_get key_eqb k (posm_of (_memo st0) pos)) as [[|r]|] eqn:E.
  - left. exists name. reflexivity.
  - split; [eapply sound_memo; [|exact H0]; reflexivity|].
    apply (H0 _ _ _ E).
  - match goal with |- context [invM ?s] => set (st2 := s) end.
    assert (H2 : sound st2) by (apply sound_set_probe; exact H0).
    specialize (Hinv st2 H2).
    destruct (invM st2) as [[r|e|] st3]; auto.
    + destruct Hinv as [H3 Hset].
      assert (Hrun : forall name',
                 settles (fun m => run_nomemo m k pos name') (Ok r)).
      { intros name'.
        apply (settles_run_with_miss (invoke_nomemo k pos name')).
        eapply invoke_nomemo_name. exact Hset. }
      split; [|apply Hrun].
      apply sound_set_res; assumption.
    + destruct Hinv as [Hl|Hset]; [left; exact Hl|]. right.
      apply (settles_run_with_miss (invoke_nomemo k pos name)). exact Hset.
Qed.

Lemma call_fn_builtin (probe : probe_t) (m : nat) (b : builtin) (pos : nat) :
  call_fn probe this rules m (Builtin b) pos = call_builtin probe this b pos.
Proof. destruct m; reflexivity. Qed.

Lemma sim_run_COMMENT (pos : nat) :
  sim (run_COMMENT memo_probe this pos)
      (fun _ => run_COMMENT miss_probe this pos).
Proof.
  apply (sim_ext _ (fun m => run_nomemo m K_COMMENT pos "COMMENT")).
  { intros m st. unfold run_nomemo.
    rewrite <- (run_COMMENT_is_run miss_probe this rules m pos). reflexivity. }
  apply sim_run_with.
  apply (sim_ext _ (fun _ => ret (rule_COMMENT this pos))).
  { intros m st. unfold invoke_nomemo. simpl. rewrite call_fn_builtin.
    reflexivity. }
  apply sim_ret.
Qed.

Lemma sim_SKIP_loop (fuel : nat) :
  forall pos,
    sim (SKIP_loop memo_probe this fuel pos)
        (fun _ => SKIP_loop miss_probe this fuel pos).
Proof.
  induction fuel as [|fuel IH]; intros pos; simpl.
  - destruct (pos <? _); [apply sim_diverge | apply sim_ret].
  - destruct (pos <? _); [|apply sim_ret].
    destruct (nth_error (toks this) pos) as [[token|h]|]; try apply sim_ret.
    destruct (negb (is_FAIL (snd (rule_SPACE this pos)))); [apply IH|].
    apply (sim_bind _ (fun _ => run_COMMENT miss_probe this pos) _
             (fun pair _ =>
                if negb (is_FAIL (snd pair))
                then SKIP_loop miss_probe this fuel (fst pair)
                else ret (pos, VStr ""))).
    + apply sim_run_COMMENT.
    + intros pair. destruct (negb (is_FAIL (snd pair)));
        [apply IH | apply sim_ret].
Qed.

Lemma sim_eat (pos : nat) (patt0 : patt) :
  sim (eat memo_probe this pos patt0) (fun _ => eat miss_probe this pos patt0).
Proof.
  unfold eat.
  apply (sim_bind _ (fun _ => rule_SKIP miss_probe this pos) _
           (fun r _ =>
              if fst r <? List.length (toks this) then
                match nth_error (toks this) (fst r) with
                | Some (Tok token) =>
                    if eat_matches patt0 (text token)
                    then ret (fst r + 1, VStr (text token))
                    else ret (fst r, VFail)
                | _ => ret (fst r, VFail)
                end
              else ret (fst r, VFail))).
  - apply sim_SKIP_loop.
  - intros r. destruct (fst r <? _); [|apply sim_ret].
    destruct (nth_error _ _) as [[token|h]|]; try apply sim_ret.
    destruct (eat_matches _ _); apply sim_ret.
Qed.

Lemma sim_call_builtin (b : builtin) (pos : nat) :
  sim (call_builtin memo_probe this b pos)
      (fun _ => call_builtin miss_probe this b pos).
Proof.
  destruct b; simpl; try apply sim_ret; try apply sim_SKIP_loop;
    try apply sim_eat.
  - unfold rule_IDENT.
    apply (sim_bind _ (fun _ => rule_SKIP miss_probe this pos) _
             (fun r _ =>
                if List.length (toks this) <=? fst r then ret (fst r, VFail)
                else
                  match nth_error (toks this) (fst r) with
                  | Some (Tok token) =>
                      if test (allRE (PRe IDENT_RE)) (text token)
                         && negb (set_has (text token) (keywords this))
                      then ret (fst r + 1, VStr (text token))
                      else ret (fst r, VFail)
                  | _ => ret (fst r, VFail)
                  end)).
    + apply sim_SKIP_loop.
    + intros r. destruct (_ <=? _); [apply sim_ret|].
      destruct (nth_error _ _) as [[token|h]|]; try apply sim_ret.
      destruct (_ && _); apply sim_ret.
  - unfold rule_HOLE.
    apply (sim_bind _ (fun _ => rule_SKIP miss_probe this pos) _
             (fun r _ =>
                if List.length (toks this) <=? fst r then ret (fst r, VFail)
                else
                  match nth_error (toks this) (fst r) with
                  | Some (Hole token) => ret (fst r + 1, VNum token)
                  | _ => ret (fst r, VFail)
                  end)).
    + apply sim_SKIP_loop.
    + intros r. destruct (_ <=? _); [apply sim_ret|].
      destruct (nth_error _ _) as [[token|h]|]; apply sim_ret.
  - unfold rule_EOF.
    apply (sim_bind _ (fun _ => rule_SKIP miss_probe this pos) _
             (fun r _ =>
                ret (fst r,
                     if List.length (toks this) <=? fst r then VEof else VFail))).
    + apply sim_SKIP_loop.
    + intros r. apply sim_ret.
Qed.

Definition call_nomemo (m : nat) : fn -> nat -> M rresult :=
  call_fn miss_probe this rules m.

Lemma sim_invoke (callM : fn -> nat -> M rresult) (k : key) (pos : nat)
    (name : string) :
  (forall f pos', sim (callM f pos') (fun m => call_nomemo m f pos')) ->
  sim (invoke memo_probe this callM k pos name) (invoke_nomemo k pos name).
Proof.
  intros Hcall. unfold invoke_nomemo. destruct k as [f| |s|oid R]; simpl.
  - apply Hcall.
  - apply sim_throw.
  - apply sim_eat.
  - apply sim_eat.
Qed.

Lemma sim_exec_proc (callM : fn -> nat -> M rresult) (p : Proc) :
  (forall f pos', sim (callM f pos') (fun m => call_nomemo m f pos')) ->
  sim (exec_proc memo_probe this callM p)
      (fun m => exec_proc miss_probe this (call_nomemo m) p).
Proof.
  intros Hcall.
  induction p as [r|e|k pos name cont IH|f pos cont IH|pos patt0 cont IH];
    simpl.
  - apply sim_ret.
  - apply sim_throw.
  - apply (sim_bind _ (fun m => run_nomemo m k pos name) _
             (fun r m => exec_proc miss_probe this (call_nomemo m) (cont r))).
    + unfold run_via. apply sim_run_with. apply sim_invoke. exact Hcall.
    + exact IH.
  - apply (sim_bind _ (fun m => call_nomemo m f pos) _
             (fun r m => exec_proc miss_probe this (call_nomemo m) (cont r))).
    + apply Hcall.
    + exact IH.
  - apply (sim_bind _ (fun _ => eat miss_probe this pos patt0) _
             (fun r m => exec_proc miss_probe this (call_nomemo m) (cont r))).
    + apply sim_eat.
    + exact IH.
Qed.

Lemma settles_call_user {A} (c : nat -> M A) (c' : nat -> M A)
    (o : outcome A) :
  (forall m st, c' (S m) st = c m st) -> settles c o -> settles c' o.
Proof.
  intros E [m H]. exists (S m). intros [|m'] Hm st; [lia|].
  rewrite E. apply H. lia.
Qed.

Lemma sim_call_fn (fuel : nat) :
  forall f pos,
    sim (call_fn memo_probe this rules fuel f pos)
        (fun m => call_nomemo m f pos).
Proof.
  induction fuel as [|fuel IH]; intros [b|id] pos.
  - apply (sim_ext _ (fun _ => call_builtin miss_probe this b pos)).
    { intros m st. unfold call_nomemo. rewrite call_fn_builtin. reflexivity. }
    apply sim_call_builtin.
  - apply sim_diverge.
  - apply (sim_ext _ (fun _ => call_builtin miss_probe this b pos)).
    { intros m st. unfold call_nomemo. rewrite call_fn_builtin. reflexivity. }
    apply sim_call_builtin.
  - simpl. pose proof (sim_exec_proc _ (rules id pos) IH) as H.
    intros st Hs. specialize (H st Hs).
    destruct (exec_proc memo_probe this _ (rules id pos) st) as [[r|e|] st'];
      auto.
    + destruct H as [H1 H2]. split; [exact H1|].
      eapply settles_call_user; [|exact H2]. reflexivity.
    + destruct H as [H|H]; [left; exact H|]. right.
      eapply settles_call_user; [|exact H]. reflexivity.
Qed.

Lemma sim_run (fuel : nat) (k : key) (pos : nat) (name : string) :
  sim (run_memo fuel k pos name) (fun m => run_nomemo m k pos name).
Proof.
  unfold run_memo, run, run_via. apply sim_run_with.
  apply sim_invoke. apply sim_call_fn.
Qed.

End Memoization.

(** A parser as the constructor leaves it. *)
Definition is_fresh (st : Packratter) : Prop :=
  _memo st = [] /\ hits st = 0 /\ misses st = 0.

(** C1, as the code has it.  Two runs of a parse on new parsers give the
    same outcome and the same final state.  And whenever the run with the
    memo table returns a pair, or throws an error other than the
    left-recursion error, the variant whose probe misses every time ends in
    the same pair or error, given budget enough. *)
Theorem memoization_equivalence
    (this : Scanner) (rules : nat -> nat -> Proc) (fuel : nat)
    (ruleOrPatt : key) (pos : nat) (name : string)
    (o : outcome rresult) :
  fst (run memo_probe this rules fuel ruleOrPatt pos name fresh) = o ->
  match o with
  | Ok _ => True
  | Err e => ~ is_left_recursion e
  | Diverge => False
  end ->
  (forall st1 st2, is_fresh st1 -> is_fresh st2 ->
     run memo_probe this rules fuel ruleOrPatt pos name st1 =
     run memo_probe this rules fuel ruleOrPatt pos name st2) /\
  exists m, forall m', m <= m' ->
    fst (run miss_probe this rules m' ruleOrPatt pos name fresh) = o.
Proof.
  intros Hrun Ho. split.
  - intros [m1 h1 s1] [m2 h2 s2] (E1 & E2 & E3) (F1 & F2 & F3).
    simpl in *. subst. reflexivity.
  - pose proof (sim_run this rules fuel ruleOrPatt pos name fresh
                  (sound_fresh this rules)) as H.
    unfold run_memo in H.
    destruct (run memo_probe this rules fuel ruleOrPatt pos name fresh)
      as [o' st'].
    simpl in Hrun. subst o'.
    destruct o as [r|e|].
    + destruct H as [_ [m H]]. exists m. intros m' Hm. apply H. exact Hm.
    + destruct H as [H|[m H]]; [contradiction|].
      exists m. intros m' Hm. apply H. exact Hm.
    + contradiction.
Qed.

(** A rule that asks for the pattern [x] twice at its own position: the
    second time the memo table has the answer. *)
Definition twice_rules (id pos : nat) : Proc :=
  PRun (KStr "x") pos "x" (fun _ => PRun (KStr "x") pos "x" PRet).

Lemma memoization_equivalence_witness :
  fst (run memo_probe sp_x_scanner twice_rules 1 (KFun (User 0)) 0 "start"
         fresh)
  = Ok (2, VStr "x") /\
  exists m, forall m', m <= m' ->
    fst (run miss_probe sp_x_scanner twice_rules m' (KFun (User 0)) 0 "start"
           fresh)
    = Ok (2, VStr "x").
Proof.
  split; [vm_compute; reflexivity|].
  apply (memoization_equivalence sp_x_scanner twice_rules 1 (KFun (User 0)) 0
           "start" (Ok (2, VStr "x"))).
  - vm_compute; reflexivity.
  - exact I.
Defined.

(** On that rule the two runs return the same pair and differ in the
    counters: one hit with the memo table, none without. *)
Example counters_differ :
  let with_memo :=
    run memo_probe sp_x_scanner twice_rules 1 (KFun (User 0)) 0 "start" fresh in
  let without :=
    run miss_probe sp_x_scanner twice_rules 1 (KFun (User 0)) 0 "start" fresh in
  fst with_memo = fst without /\
  (hits (snd with_memo), misses (snd with_memo)) = (1, 3) /\
  (hits (snd without), misses (snd without)) = (0, 5).
Proof. vm_compute. repeat split. Qed.

Lemma left_recursion_without_memo (m : nat) :
  forall st,
    fst (run miss_probe x_x_scanner left_recursive_rules m
           (KFun (User 0)) 0 "A" st) = Diverge.
Proof.
  induction m as [|m IH]; intros st; unfold run, run_via.
  - destruct (run_with_miss_fst
                (invoke miss_probe x_x_scanner
                   (call_fn miss_probe x_x_scanner left_recursive_rules 0)
                   (KFun (User 0)) 0 "A")
                (KFun (User 0)) 0 "A" st) as [st2 ->].
    reflexivity.
  - destruct (run_with_miss_fst
                (invoke miss_probe x_x_scanner
                   (call_fn miss_probe x_x_scanner left_recursive_rules (S m))
                   (KFun (User 0)) 0 "A")
                (KFun (User 0)) 0 "A" st) as [st2 ->].
    simpl. unfold bind.
    specialize (IH st2). unfold run in IH.
    destruct (run_via miss_probe x_x_scanner _ (KFun (User 0)) 0 "A" st2)
      as [o st3].
    simpl in IH. subst o. reflexivity.
Qed.

(** C1 as stated fails on a left-recursive grammar.  With the memo table
    the rule [A ::= A x / x] throws the left-recursion error; the variant
    that never consults the table does not find the probe, asks for the rule
    again and again, and ends in no result for any budget. *)
Lemma no_memo_differs_on_left_recursion :
  fst (run memo_probe x_x_scanner left_recursive_rules 1
         (KFun (User 0)) 0 "A" fresh)
  = Err (Error "Left recursion on rule: A") /\
  ~ (exists m,
       fst (run miss_probe x_x_scanner left_recursive_rules m
              (KFun (User 0)) 0 "A" fresh)
       = fst (run memo_probe x_x_scanner left_recursive_rules 1
                (KFun (User 0)) 0 "A" fresh)).
Proof.
  split; [reflexivity|].
  intros [m H]. rewrite left_recursion_without_memo in H. discriminate.
Qed.

(** ** The lexer: totality (C5) *)

(** A pattern that may match the empty string; [false] promises that every
    match takes at least one character. *)
Fixpoint nullable (r : re) : bool :=
  match r with
  | REmpty | RBol | REol => true
  | RChar _ | RSet _ _ | RDot => false
  | RSeq a b => nullable a && nullable b
  | RAlt a b => nullable a || nullable b
  | RStar _ | ROpt _ => true
  | RPlus a | RGroup a | RNGroup a => nullable a
  | RCount n a => (n =? 0) || nullable a
  end.

Section MatcherFacts.

Variables icase multi : bool.
Variable s : list ascii.

(** Where a successful match may end: at or after its start ([strict]:
    after it), and inside the subject when it started there. *)
Definition ends (strict : bool) (i j : nat) : Prop :=
  i <= j /\ (strict = true -> i < j) /\
  (i <= List.length s -> j <= List.length s).

Definition advances (strict : bool)
    (step : nat -> caps -> cont -> result) : Prop :=
  forall i c k res,
    step i c k = Some res ->
    exists j c', ends strict i j /\ k j c' = Some res.

Lemma ends_refl (i : nat) : ends false i i.
Proof. unfold ends. repeat split; auto; discriminate. Qed.

Lemma ends_trans (b1 b2 : bool) (i j l : nat) :
  ends b1 i j -> ends b2 j l -> ends (b1 || b2) i l.
Proof.
  unfold ends. intros (H1 & H2 & H3) (G1 & G2 & G3).
  split; [lia|]. split.
  - intros H. apply orb_true_iff in H.
    destruct H as [H|H]; [specialize (H2 H) | specialize (G2 H)]; lia.
  - auto.
Qed.

Lemma ends_weaken (b : bool) (i j : nat) : ends b i j -> ends false i j.
Proof. unfold ends. intros (H1 & H2 & H3). repeat split; auto; discriminate. Qed.

Lemma one_char_advances (p : ascii -> bool) : advances true (one_char s p).
Proof.
  intros i c k res H. unfold one_char in H.
  destruct (nth_error s i) as [x|] eqn:E; [|discriminate].
  destruct (p x); [|discriminate].
  exists (S i), c. split; [|exact H].
  assert (i < List.length s) by (apply nth_error_Some; congruence).
  unfold ends. repeat split; lia.
Qed.

Lemma star_loop_advances (step : nat -> caps -> cont -> result) (b : bool) :
  advances b step ->
  forall n k i c res,
    star_loop step k n i c = Some res ->
    exists j c', ends false i j /\ k j c' = Some res.
Proof.
  intros Hstep. induction n as [|n IH]; intros k i c res H; simpl in H.
  - exists i, c. split; [apply ends_refl | exact H].
  - unfold orelse in H.
    destruct (step i c _) as [res'|] eqn:E.
    + inversion H; subst res'; clear H.
      apply Hstep in E. destruct E as (j & c' & He & Hk).
      destruct (j =? i); [discriminate|].
      apply IH in Hk. destruct Hk as (l & c'' & He' & Hk).
      exists l, c''. split; [|exact Hk].
      apply (ends_trans false false i j l); [eapply ends_weaken; eauto | exact He'].
    + exists i, c. split; [apply ends_refl | exact H].
Qed.

Lemma rep_loop_advances (step : nat -> caps -> cont -> result) (b : bool) :
  advances b step ->
  forall n k i c res,
    rep_loop step k n i c = Some res ->
    exists j c', ends ((0 <? n) && b) i j /\ k j c' = Some res.
Proof.
  intros Hstep. induction n as [|n IH]; intros k i c res H; simpl in H.
  - exists i, c. split; [apply ends_refl | exact H].
  - apply Hstep in H. destruct H as (j & c' & He & Hk).
    apply IH in Hk. destruct Hk as (l & c'' & He' & Hk).
    exists l, c''. split; [|exact Hk].
    pose proof (ends_trans _ _ _ _ _ He He') as Ht.
    unfold ends in *. destruct Ht as (T1 & T2 & T3). repeat split; auto.
    intros Hb. apply T2. simpl in Hb. rewrite Hb. reflexivity.
Qed.

Lemma m_advances (r : re) :
  forall g, advances (negb (nullable r)) (fun i c k => m icase multi s r g i c k).
Proof.
  induction r as [| ch | neg items | | | | a IHa b IHb | a IHa b IHb
                 | a IHa | a IHa | a IHa | n a IHa | a IHa | a IHa];
    intros g i c k res H; cbn [m nullable negb] in *.
  - exists i, c. split; [apply ends_refl | exact H].
  - apply one_char_advances in H. exact H.
  - apply one_char_advances in H. exact H.
  - apply one_char_advances in H. exact H.
  - destruct (at_bol multi s i); [|discriminate].
    exists i, c. split; [apply ends_refl | exact H].
  - destruct (at_eol multi s i); [|discriminate].
    exists i, c. split; [apply ends_refl | exact H].
  - apply IHa in H. destruct H as (j & c' & He & H).
    apply IHb in H. destruct H as (l & c'' & He' & H).
    exists l, c''. split; [|exact H].
    rewrite negb_andb. eapply ends_trans; eauto.
  - rewrite negb_orb. unfold orelse in H.
    destruct (m icase multi s a g i c k) as [res'|] eqn:E.
    + inversion H; subst res'. apply IHa in E.
      destruct E as (j & c' & He & Hk). exists j, c'. split; [|exact Hk].
      unfold ends in *. destruct He as (H1 & H2 & H3). repeat split; auto.
      intros Hb. apply andb_true_iff in Hb. tauto.
    + apply IHb in H. destruct H as (j & c' & He & Hk).
      exists j, c'. split; [|exact Hk].
      unfold ends in *. destruct He as (H1 & H2 & H3). repeat split; auto.
      intros Hb. apply andb_true_iff in Hb. tauto.
  - eapply (star_loop_advances _ (negb (nullable a))); [|exact H].
    intros i' c0 k' res' H'. eapply IHa. exact H'.
  - apply IHa in H. destruct H as (j & c' & He & H).
    eapply (star_loop_advances _ (negb (nullable a))) in H.
    2:{ intros i' c0 k' res' H'. eapply IHa. exact H'. }
    destruct H as (l & c'' & He' & H). exists l, c''. split; [|exact H].
    pose proof (ends_trans _ _ _ _ _ He He') as Ht.
    rewrite orb_false_r in Ht. exact Ht.
  - unfold orelse in H.
    destruct (m icase multi s a g i _ _) as [res'|] eqn:E.
    + inversion H; subst res'. apply IHa in E.
      destruct E as (j & c' & He & Hk).
      destruct (j =? i); [discriminate|].
      exists j, c'. split; [eapply ends_weaken; eauto | exact Hk].
    + exists i, c. split; [apply ends_refl | exact H].
  - eapply (rep_loop_advances _ (negb (nullable a))) in H.
    2:{ intros i' c0 k' res' H'. eapply IHa. exact H'. }
    destruct H as (j & c' & He & Hk). exists j, c'. split; [|exact Hk].
    unfold ends in *. destruct He as (H1 & H2 & H3). repeat split; auto.
    intros Hb. apply H2. rewrite negb_orb in Hb.
    apply andb_true_iff in Hb. destruct Hb as [Hn Ha]. rewrite Ha.
    destruct n; [discriminate | reflexivity].
  - apply IHa in H. destruct H as (j & c' & He & Hk).
    exists j, (set_cap g (i, j) c'). split; [exact He | exact Hk].
  - apply IHa in H. exact H.
Qed.

(** A match of a pattern that is one capturing group: it ends inside the
    subject, after its start when the body cannot be empty, and group 1
    spans all of it. *)
Lemma match_at_group (a : re) (i j : nat) (c : caps) :
  match_at icase multi s (RGroup a) i = Some (j, c) ->
  ends (negb (nullable a)) i j /\ get_cap 1 c = Some (i, j).
Proof.
  unfold match_at. cbn [m]. intros H.
  apply (m_advances a 2) in H.
  destruct H as (j' & c' & He & Hk).
  inversion Hk; subst. split; [exact He|].
  unfold get_cap, set_cap. simpl. reflexivity.
Qed.

End MatcherFacts.

Lemma length_str (l : list ascii) : String.length (str l) = List.length l.
Proof. induction l; simpl; auto. Qed.

Lemma str_app (a b : list ascii) : str (a ++ b) = (str a ++ str b)%string.
Proof. induction a; simpl; [reflexivity | f_equal; exact IHa]. Qed.

Lemma length_slice (seg : string) (a b : nat) :
  b <= String.length seg -> String.length (slice seg a b) = b - a.
Proof.
  intros H. unfold slice. rewrite length_str, length_firstn, length_skipn.
  rewrite length_chars. lia.
Qed.

Lemma firstn_plus {A} (n m : nat) (l : list A) :
  firstn (n + m) l = firstn n l ++ firstn m (skipn n l).
Proof.
  revert l. induction n as [|n IH]; intros [|x l]; simpl; auto.
  - destruct m; reflexivity.
  - f_equal. apply IH.
Qed.

Lemma skipn_plus {A} (n m : nat) (l : list A) :
  skipn n (skipn m l) = skipn (n + m) l.
Proof.
  revert l. induction m as [|m IH]; intros l.
  - rewrite Nat.add_0_r. reflexivity.
  - rewrite Nat.add_succ_r. destruct l as [|x l]; simpl.
    + destruct n; reflexivity.
    + apply IH.
Qed.

Lemma slice_app (seg : string) (a b c : nat) :
  a <= b -> b <= c ->
  (slice seg a b ++ slice seg b c)%string = slice seg a c.
Proof.
  intros H1 H2. unfold slice. rewrite <- str_app. f_equal.
  replace (c - a) with ((b - a) + (c - b)) by lia.
  rewrite firstn_plus. f_equal. rewrite skipn_plus.
  replace (b - a + a) with b by lia. reflexivity.
Qed.

Lemma slice_all (seg : string) : slice seg 0 (String.length seg) = seg.
Proof.
  unfold slice. simpl. rewrite Nat.sub_0_r, <- length_chars, firstn_all.
  apply str_chars.
Qed.

Lemma slice_empty (seg : string) (a : nat) : slice seg a a = EmptyString.
Proof. unfold slice. rewrite Nat.sub_diag. reflexivity. Qed.

(** What [exec] returns for a sticky expression whose pattern is one
    capturing group around a body that cannot match the empty string. *)
Lemma exec_sticky_group (R : RegExp) (a : re) (seg : string) (li : nat) :
  f_sticky (flags R) = true ->
  parse (source R) = Some (RGroup a) ->
  nullable a = false ->
  li <= String.length seg ->
  forall arr li',
    exec R seg li = (Some arr, li') ->
    li < li' /\ li' <= String.length seg /\
    nth 1 (groups arr) None = Some (slice seg li li').
Proof.
  intros Hy Hp Hn Hle arr li'. unfold exec.
  rewrite Hy, orb_true_r, Hp.
  destruct (Nat.ltb_spec (List.length (chars seg)) li) as [Hlt|_].
  { rewrite length_chars in Hlt. lia. }
  destruct (match_at (f_ignoreCase (flags R)) (f_multiline (flags R))
              (chars seg) (RGroup a) li) as [[j c]|] eqn:E;
    simpl; [|discriminate].
  intros [= <- <-].
  apply match_at_group in E. destruct E as [(H1 & H2 & H3) Hc].
  rewrite Hn in H2. specialize (H2 eq_refl).
  rewrite length_chars in H3. specialize (H3 Hle).
  split; [exact H2|]. split; [exact H3|].
  simpl. rewrite Hc. reflexivity.
Qed.

(** The tokens [ts] of segment [segnum] cover the offsets [from .. to) of
    [seg] without gap or overlap, each holding the text of its span. *)
Fixpoint tiles (segnum : nat) (seg : string) (from to : nat)
    (ts : list Token) : Prop :=
  match ts with
  | [] => from = to
  | t :: ts' =>
      pos t = mkPos segnum from (after (pos t)) /\
      from < after (pos t) /\
      text t = slice seg from (after (pos t)) /\
      tiles segnum seg (after (pos t)) to ts'
  end.

(** [toks.map(t => t.text).join('')] *)
Definition concat_text (ts : list Token) : string :=
  fold_right (fun t acc => (text t ++ acc)%string) EmptyString ts.

(** Each token starts where the one before it ended, the first at
    [from]. *)
Fixpoint contiguous (from : nat) (ts : list Token) : Prop :=
  match ts with
  | [] => True
  | t :: ts' => start (pos t) = from /\ contiguous (after (pos t)) ts'
  end.

Lemma tiles_le (segnum : nat) (seg : string) (ts : list Token) :
  forall from to, tiles segnum seg from to ts -> from <= to.
Proof.
  induction ts as [|t ts IH]; intros from to H; simpl in H.
  - lia.
  - destruct H as (_ & Hlt & _ & H). apply IH in H. lia.
Qed.

Lemma tiles_concat (segnum : nat) (seg : string) (ts : list Token) :
  forall from to,
    tiles segnum seg from to ts -> concat_text ts = slice seg from to.
Proof.
  induction ts as [|t ts IH]; intros from to H; simpl in H.
  - subst. simpl. symmetry. apply slice_empty.
  - destruct H as (_ & Hlt & Ht & H). simpl.
    rewrite (IH _ _ H), Ht. apply slice_app; [lia|].
    eapply tiles_le. exact H.
Qed.

Lemma tiles_contiguous (segnum : nat) (seg : string) (ts : list Token) :
  forall from to, tiles segnum seg from to ts -> contiguous from ts.
Proof.
  induction ts as [|t ts IH]; intros from to H; simpl in *; [exact I|].
  destruct H as (Hp & _ & _ & H). split; [rewrite Hp; reflexivity|].
  eapply IH. exact H.
Qed.

(** The offsets that the loop of [tokensInSegment] reaches with the sticky
    expression [RE]: offset 0, and the end of the match found at an offset
    it has reached inside the segment. *)
Inductive reaches (RE : RegExp) (seg : string) : nat -> Prop :=
| reaches_start : reaches RE seg 0
| reaches_next (i j : nat) (arr : MatchArr) :
    reaches RE seg i -> i < String.length seg ->
    exec RE seg i = (Some arr, j) ->
    reaches RE seg j.

Section Tokenizing.

Variable RE : RegExp.
Variable body : re.
Variable segnum : nat.
Variable seg : string.
Hypothesis RE_sticky : f_sticky (flags RE) = true.
Hypothesis RE_group : parse (source RE) = Some (RGroup body).
Hypothesis body_consumes : nullable body = false.
Hypothesis matchable :
  forall i, reaches RE seg i -> i < String.length seg ->
            fst (exec RE seg i) <> None.

Lemma tokens_loop_tiles (fuel : nat) :
  forall li acc,
    reaches RE seg li ->
    li <= String.length seg ->
    String.length seg - li <= fuel ->
    exists rest,
      tokens_loop fuel segnum seg RE li li acc = Ok (acc ++ rest) /\
      tiles segnum seg li (String.length seg) rest.
Proof.
  induction fuel as [|fuel IH]; intros li acc Hr Hle Hfuel.
  - exists []. simpl.
    destruct (Nat.ltb_spec li (String.length seg)); [lia|].
    rewrite app_nil_r. split; [reflexivity | lia].
  - simpl. destruct (Nat.ltb_spec li (String.length seg)) as [Hlt|Hge].
    2:{ exists []. rewrite app_nil_r. split; [reflexivity | simpl; lia]. }
    pose proof (matchable li Hr Hlt) as Hm.
    destruct (exec RE seg li) as [[arr|] li'] eqn:E; simpl in Hm;
      [|contradiction].
    destruct (exec_sticky_group RE body seg li RE_sticky RE_group
                body_consumes Hle arr li' E) as (H1 & H2 & H3).
    rewrite H3. rewrite (length_slice seg li li' H2).
    replace (li' - (li' - li)) with li by lia.
    rewrite Nat.eqb_refl. simpl.
    destruct (IH li' (acc ++ [mkToken (slice seg li li') (mkPos segnum li li')]))
      as (rest & Hrun & Ht);
      [exact (reaches_next RE seg li li' arr Hr Hlt E) | lia | lia |].
    exists (mkToken (slice seg li li') (mkPos segnum li li') :: rest).
    rewrite Hrun, <- app_assoc. split; [reflexivity|].
    simpl. repeat split; auto.
Qed.

End Tokenizing.

(** Tokenization with any expression whose sticky form is one capturing
    group around a body that cannot match the empty string, when that form
    finds a token at each offset the loop reaches. *)
Lemma tokensInSegment_capturing (RE RE' : RegExp) (body : re)
    (segnum : nat) (seg : string) :
  stickyRE RE = Ok RE' ->
  parse (source RE') = Some (RGroup body) ->
  nullable body = false ->
  (forall i, reaches RE' seg i -> i < String.length seg ->
             fst (exec RE' seg i) <> None) ->
  exists toks,
    tokensInSegment segnum seg RE = Ok toks /\
    tiles segnum seg 0 (String.length seg) toks.
Proof.
  intros Hs Hp Hn Hm. unfold tokensInSegment. rewrite Hs. simpl.
  assert (Hy : f_sticky (flags RE') = true).
  { unfold stickyRE in Hs. destruct (f_sticky (flags RE)); [discriminate|].
    inversion Hs. reflexivity. }
  destruct (tokens_loop_tiles RE' body segnum seg Hy Hp Hn Hm
              (String.length seg) 0 [] (reaches_start RE' seg))
    as (rest & Hrun & Ht); [lia | lia |].
  exists rest. split; [exact Hrun | exact Ht].
Qed.

(** The token expression at offset [i] of [seg]: its sticky form finds a
    token there. *)
Definition matchable_at (RE : RegExp) (seg : string) (i : nat) : Prop :=
  exists RE', stickyRE RE = Ok RE' /\ fst (exec RE' seg i) <> None.

(** An offset of [seg] at which the lexer looks for a token: one that the
    loop reaches with the sticky form of [RE]. *)
Definition token_offset (RE : RegExp) (seg : string) (i : nat) : Prop :=
  exists RE', stickyRE RE = Ok RE' /\ reaches RE' seg i.

(** C5.  When the token expression matches at every offset of the segment
    where the lexer looks for a token (offset 0, and the end of each token
    found), [tokensInSegment] returns a list of tokens, throwing nothing:
    their texts put together are the segment, each token's text is the
    slice of its span, the first span starts at 0, each further one where
    the one before ended, and the last ends at the end of the segment.
    The offsets inside a token are not asked to be matchable, so a segment
    with a string literal or a comment is covered; a segment matchable at
    every offset is the special case. *)
Theorem tokensInSegment_total (segnum : nat) (seg : string) :
  (forall i, token_offset TOKEN_RE seg i -> i < String.length seg ->
             matchable_at TOKEN_RE seg i) ->
  exists toks,
    tokensInSegment segnum seg TOKEN_RE = Ok toks /\
    concat_text toks = seg /\
    contiguous 0 toks /\
    tiles segnum seg 0 (String.length seg) toks.
Proof.
  intros Hm.
  assert (Hs : exists RE' body,
             stickyRE TOKEN_RE = Ok RE' /\
             parse (source RE') = Some (RGroup body) /\
             nullable body = false).
  { eexists _, _. split; [reflexivity|]. split; vm_compute; reflexivity. }
  destruct Hs as (RE' & body & Hs & Hp & Hn).
  destruct (tokensInSegment_capturing TOKEN_RE RE' body segnum seg Hs Hp Hn)
    as (toks & Hrun & Ht).
  { intros i Hr Hi.
    destruct (Hm i (ex_intro _ RE' (conj Hs Hr)) Hi) as (R & HR & Hex).
    rewrite Hs in HR. inversion HR; subst. exact Hex. }
  exists toks. split; [exact Hrun|]. split; [|split; [|exact Ht]].
  - rewrite (tiles_concat _ _ _ _ _ Ht). apply slice_all.
  - eapply tiles_contiguous. exact Ht.
Qed.

(** A segment of a grammar: a name, the sign of a rule and a string
    literal; inside the literal, at its closing quote, the token expression
    finds nothing. *)
Definition rule_segment : string := ("k ::= " ++ dqs ++ "let" ++ dqs ++ ";")%string.

Example rule_segment_inside_literal :
  ~ matchable_at TOKEN_RE rule_segment 10.
Proof.
  intros (RE' & Hs & Hex). inversion Hs; subst RE'. apply Hex.
  vm_compute. reflexivity.
Qed.

(** The offsets at which the lexer looks for a token in that segment. *)
Lemma rule_segment_offsets (RE' : RegExp) (i : nat) :
  stickyRE TOKEN_RE = Ok RE' -> reaches RE' rule_segment i ->
  In i [0; 1; 2; 5; 6; 11; 12].
Proof.
  intros Hs Hr. inversion Hs; subst RE'. clear Hs.
  induction Hr as [|i j arr _ IH Hlt He]; [simpl; auto|].
  simpl in IH.
  destruct IH as [<-|[<-|[<-|[<-|[<-|[<-|[<-|[]]]]]]]];
    vm_compute in He; inversion He; subst; simpl; tauto.
Qed.

Lemma tokensInSegment_total_witness :
  (forall i, token_offset TOKEN_RE rule_segment i ->
             i < String.length rule_segment ->
             matchable_at TOKEN_RE rule_segment i) /\
  exists toks,
    tokensInSegment 0 rule_segment TOKEN_RE = Ok toks /\
    concat_text toks = rule_segment /\
    contiguous 0 toks /\
    tiles 0 rule_segment 0 (String.length rule_segment) toks.
Proof.
  assert (H : forall i, token_offset TOKEN_RE rule_segment i ->
                        i < String.length rule_segment ->
                        matchable_at TOKEN_RE rule_segment i).
  { intros i (RE' & Hs & Hr) Hi.
    pose proof (rule_segment_offsets RE' i Hs Hr) as Hin. simpl in Hin.
    destruct Hin as [<-|[<-|[<-|[<-|[<-|[<-|[<-|[]]]]]]]];
      try (eexists; split; [reflexivity | vm_compute; discriminate]).
    vm_compute in Hi. lia. }
  split; [exact H|].
  apply (tokensInSegment_total 0 rule_segment H).
Defined.

(** ** Alternation (C7) *)

(** The source of [anyRE] is the sources joined by [|], nothing around
    them, and the result has no flag, whatever flags the arguments have. *)
Lemma anyRE_source (REs : list RegExp) :
  join "|" (map source REs) <> EmptyString ->
  source (anyRE REs) = join "|" (map source REs) /\
  flags (anyRE REs) = no_flags.
Proof.
  intros H. unfold anyRE, RegExp_new. simpl. split; [|reflexivity].
  destruct (String.eqb_spec (join "|" (map source REs)) ""); [contradiction|].
  reflexivity.
Qed.

(** *** Arguments without flags *)

Lemma lex_go_app (s1 : list ascii) :
  forall md t1 s2,
    lex_go md s1 = Some t1 ->
    lex_go md (s1 ++ s2) = option_map (app t1) (lex_go LNormal s2).
Proof.
  induction s1 as [|c s1 IH]; intros md t1 s2 H; simpl in *.
  - destruct md; try discriminate. inversion H; subst.
    destruct (lex_go LNormal s2); reflexivity.
  - destruct (lstep md c) as [[md' ot]|]; [|discriminate].
    destruct (lex_go md' s1) as [t1'|] eqn:E; [|discriminate].
    inversion H; subst. rewrite (IH _ _ s2 E).
    destruct (lex_go LNormal s2); simpl; [|reflexivity].
    destruct ot; reflexivity.
Qed.

(** [build] on the open groups as one list, innermost first. *)
Definition build_frames (frames : list (list rtree)) (ts : list rtok)
  : option (list rtree) :=
  match frames with
  | [] => None
  | cur :: stack => build stack cur ts
  end.

Lemma build_frames_app (ts : list rtok) :
  forall upper bot f below rest,
    build_frames (upper ++ [bot]) ts = Some f ->
    build_frames (upper ++ [bot ++ below]) (ts ++ rest) =
    build [] (rev f ++ below) rest.
Proof.
  induction ts as [|t ts IH]; intros upper bot f below rest H.
  - destruct upper as [|cur [|par upper]]; simpl in H.
    + inversion H; subst. simpl. rewrite rev_involutive. reflexivity.
    + discriminate.
    + discriminate.
  - destruct upper as [|cur upper].
    + destruct t; simpl in H; try discriminate;
        try (apply (IH [] (RLeaf _ :: bot) f below rest); exact H).
      apply (IH [[]] bot f below rest). exact H.
    + destruct t; simpl in H;
        try (apply (IH ((RLeaf _ :: cur) :: upper) bot f below rest); exact H).
      * apply (IH ([] :: cur :: upper) bot f below rest). exact H.
      * destruct upper as [|par upper]; simpl in H.
        -- apply (IH [] (RNode (rev cur) :: bot) f below rest). exact H.
        -- apply (IH ((RNode (rev cur) :: par) :: upper) bot f below rest).
           exact H.
Qed.

Lemma build_app (t1 t2 : list rtok) (f1 f2 : list rtree) :
  build [] [] t1 = Some f1 ->
  build [] [] t2 = Some f2 ->
  build [] [] (t1 ++ TBar :: t2) = Some (f1 ++ RLeaf TBar :: f2).
Proof.
  intros H1 H2.
  pose proof (build_frames_app t1 [] [] f1 [] (TBar :: t2) H1) as E1.
  simpl in E1. rewrite E1. rewrite app_nil_r. simpl.
  pose proof (build_frames_app t2 [] [] f2 (RLeaf TBar :: rev f1) [] H2) as E2.
  simpl in E2. rewrite app_nil_r in E2. rewrite E2. simpl.
  rewrite rev_app_distr. simpl. rewrite !rev_involutive, <- app_assoc.
  reflexivity.
Qed.

Lemma items_of_app (f1 f2 : list rtree) (i1 i2 : list item) :
  items_of f1 = Some i1 -> items_of f2 = Some i2 ->
  items_of (f1 ++ f2) = Some (i1 ++ i2).
Proof.
  revert i1. induction f1 as [|x f1 IH]; intros i1 H1 H2; simpl in *.
  - inversion H1; subst. exact H2.
  - destruct (item_of x) as [i|]; [|discriminate].
    destruct (items_of f1) as [i1'|]; [|discriminate].
    inversion H1; subst. rewrite (IH _ eq_refl H2). reflexivity.
Qed.

(** The state of [asm] after some items: the finished alternatives, the
    atoms of the current one, and whether a quantifier may follow. *)
Definition asm_state : Type := (list re * list re * bool)%type.

Definition asm_step (st : asm_state) (it : item) : option asm_state :=
  let '(alts, sq, canq) := st in
  let quant (q : re -> re) :=
    match canq, sq with
    | true, a :: sq' => Some (alts, q a :: sq', false)
    | _, _ => None
    end in
  match it with
  | IAtom r => Some (alts, r :: sq, true)
  | ILeaf (TChar c) => Some (alts, RChar c :: sq, true)
  | ILeaf (TSet n l) => Some (alts, RSet n l :: sq, true)
  | ILeaf TDot => Some (alts, RDot :: sq, true)
  | ILeaf TBol => Some (alts, RBol :: sq, false)
  | ILeaf TEol => Some (alts, REol :: sq, false)
  | ILeaf TBar => Some (mk_seq (rev sq) :: alts, [], false)
  | ILeaf TStar => quant RStar
  | ILeaf TPlus => quant RPlus
  | ILeaf TQuest => quant ROpt
  | ILeaf (TCount n) => quant (RCount n)
  | ILeaf TOpen => None
  | ILeaf TClose => None
  end.

Fixpoint asm_run (its : list item) (st : asm_state) : option asm_state :=
  match its with
  | [] => Some st
  | it :: its' =>
      match asm_step st it with
      | Some st' => asm_run its' st'
      | None => None
      end
  end.

(** The alternatives that a finished state stands for, in order. *)
Definition asm_alts (st : asm_state) : list re :=
  let '(alts, sq, _) := st in rev (mk_seq (rev sq) :: alts).

Lemma asm_asm_run (its : list item) :
  forall alts sq canq,
    asm its alts sq canq =
    option_map (fun st => mk_alt (asm_alts st)) (asm_run its (alts, sq, canq)).
Proof.
  induction its as [|it its IH]; intros alts sq canq; [reflexivity|].
  destruct it as [t|r]; [destruct t|]; simpl; try apply IH; try reflexivity;
    destruct canq, sq; simpl; try apply IH; reflexivity.
Qed.

Lemma asm_run_app (its1 its2 : list item) (st : asm_state) :
  asm_run (its1 ++ its2) st =
  match asm_run its1 st with
  | Some st' => asm_run its2 st'
  | None => None
  end.
Proof.
  revert st. induction its1 as [|it its1 IH]; intros st; simpl; [reflexivity|].
  destruct (asm_step st it); [apply IH | reflexivity].
Qed.

(** Alternatives finished earlier stay below the ones added. *)
Lemma asm_run_below (its : list item) (below : list re) :
  forall alts sq canq,
    asm_run its (alts ++ below, sq, canq) =
    option_map (fun st : asm_state =>
                  let '(a, s, c) := st in (a ++ below, s, c))
      (asm_run its (alts, sq, canq)).
Proof.
  induction its as [|it its IH]; intros alts sq canq; [reflexivity|].
  destruct it as [t|r]; [destruct t|]; simpl; try apply IH; try reflexivity;
    try (destruct canq, sq; simpl; try apply IH; reflexivity).
  apply (IH (mk_seq (rev sq) :: alts)).
Qed.

Lemma asm_run_bar (its1 its2 : list item) (st1 st2 : asm_state) :
  asm_run its1 ([], [], false) = Some st1 ->
  asm_run its2 ([], [], false) = Some st2 ->
  exists st,
    asm_run (its1 ++ ILeaf TBar :: its2) ([], [], false) = Some st /\
    asm_alts st = asm_alts st1 ++ asm_alts st2.
Proof.
  intros H1 H2. rewrite asm_run_app, H1.
  destruct st1 as [[a1 s1] c1]. simpl.
  pose proof (asm_run_below its2 (mk_seq (rev s1) :: a1) [] [] false) as E.
  simpl in E. rewrite E, H2. destruct st2 as [[a2 s2] c2]. simpl.
  eexists. split; [reflexivity|]. simpl.
  rewrite rev_app_distr. simpl. rewrite <- !app_assoc. reflexivity.
Qed.

(** The alternatives of a pattern text, in order. *)
Definition parse_alts (src : string) : option (list re) :=
  match lex (chars src) with
  | None => None
  | Some ts =>
      match build [] [] ts with
      | None => None
      | Some f =>
          match items_of f with
          | None => None
          | Some its => option_map asm_alts (asm_run its ([], [], false))
          end
      end
  end.

Lemma parse_parse_alts (src : string) :
  parse src = option_map mk_alt (parse_alts src).
Proof.
  unfold parse, parse_alts, parse_tokens, assemble.
  destruct (lex (chars src)) as [ts|]; [|reflexivity].
  destruct (build [] [] ts) as [f|]; [|reflexivity].
  destruct (items_of f) as [its|]; [|reflexivity].
  rewrite asm_asm_run. destruct (asm_run its _); reflexivity.
Qed.

Lemma parse_alts_bar (s1 s2 : string) (l1 l2 : list re) :
  parse_alts s1 = Some l1 -> parse_alts s2 = Some l2 ->
  parse_alts (s1 ++ "|" ++ s2) = Some (l1 ++ l2).
Proof.
  unfold parse_alts, lex. intros H1 H2.
  rewrite chars_app. simpl chars.
  destruct (lex_go LNormal (chars s1)) as [t1|] eqn:L1; [|discriminate].
  destruct (lex_go LNormal (chars s2)) as [t2|] eqn:L2; [|discriminate].
  rewrite (lex_go_app _ _ _ ("|"%char :: chars s2) L1).
  change (lex_go LNormal ("|"%char :: chars s2))
    with (option_map (emit (Some TBar)) (lex_go LNormal (chars s2))).
  rewrite L2. simpl.
  destruct (build [] [] t1) as [f1|] eqn:B1; [|discriminate].
  destruct (build [] [] t2) as [f2|] eqn:B2; [|discriminate].
  rewrite (build_app _ _ _ _ B1 B2).
  destruct (items_of f1) as [i1|] eqn:I1; [|discriminate].
  destruct (items_of f2) as [i2|] eqn:I2; [|discriminate].
  rewrite (items_of_app f1 (RLeaf TBar :: f2) i1 (ILeaf TBar :: i2) I1)
    by (simpl; rewrite I2; reflexivity).
  destruct (asm_run i1 _) as [st1|] eqn:A1; [|discriminate].
  destruct (asm_run i2 _) as [st2|] eqn:A2; [|discriminate].
  destruct (asm_run_bar i1 i2 st1 st2 A1 A2) as (st & E & Ealts).
  rewrite E. simpl in *. inversion H1; inversion H2; subst. f_equal. exact Ealts.
Qed.

Lemma parse_alts_nonempty (src : string) (l : list re) :
  parse_alts src = Some l -> l <> [].
Proof.
  unfold parse_alts. destruct (lex _); [|discriminate].
  destruct (build _ _ _); [|discriminate].
  destruct (items_of _); [|discriminate].
  destruct (asm_run _ _) as [[[a s] c]|]; [|discriminate].
  simpl. intros [= <-]. intros E. apply app_eq_nil in E. destruct E. discriminate.
Qed.

Lemma join_cons (sep x y : string) (l : list string) :
  join sep (x :: y :: l) = (x ++ sep ++ join sep (y :: l))%string.
Proof. reflexivity. Qed.

Lemma parse_alts_join (srcs : list string) :
  forall ls,
    srcs <> [] ->
    Forall2 (fun src l => parse_alts src = Some l) srcs ls ->
    parse_alts (join "|" srcs) = Some (List.concat ls).
Proof.
  induction srcs as [|x srcs IH]; intros ls Hne H; [contradiction|].
  inversion H as [|? l ? ls' Hx Hrest]; subst.
  destruct srcs as [|y srcs].
  - inversion Hrest; subst. simpl. rewrite app_nil_r. exact Hx.
  - rewrite join_cons. cbn [List.concat].
    apply parse_alts_bar; [exact Hx|]. apply IH; [discriminate | exact Hrest].
Qed.

(** *** Where a match ends

    The captures have no bearing on where a match ends: the matcher with
    the captures left out. *)

Definition orelse_e (a b : option nat) : option nat :=
  match a with
  | Some x => Some x
  | None => b
  end.

Definition oend (r : result) : option nat := option_map fst r.

Lemma oend_orelse (a b : result) :
  oend (orelse a b) = orelse_e (oend a) (oend b).
Proof. destruct a; reflexivity. Qed.

Section Ends.

Variables icase multi : bool.
Variable s : list ascii.

Definition econt : Type := nat -> option nat.

Definition one_char_e (p : ascii -> bool) (i : nat) (k : econt) : option nat :=
  match nth_error s i with
  | Some x => if p x then k (S i) else None
  | None => None
  end.

Fixpoint star_e (step : nat -> econt -> option nat) (k : econt)
    (n : nat) (i : nat) {struct n} : option nat :=
  match n with
  | 0 => k i
  | S n' =>
      orelse_e
        (step i (fun j => if j =? i then None else star_e step k n' j))
        (k i)
  end.

Fixpoint rep_e (step : nat -> econt -> option nat) (k : econt)
    (n : nat) (i : nat) {struct n} : option nat :=
  match n with
  | 0 => k i
  | S n' => step i (fun j => rep_e step k n' j)
  end.

Fixpoint me (r : re) (i : nat) (k : econt) {struct r} : option nat :=
  match r with
  | REmpty => k i
  | RChar ch => one_char_e (fun x => (canon icase x =? canon icase ch)%char) i k
  | RSet neg items => one_char_e (in_set icase neg items) i k
  | RDot => one_char_e (fun x => negb (is_line_terminator x)) i k
  | RBol => if at_bol multi s i then k i else None
  | REol => if at_eol multi s i then k i else None
  | RSeq a b => me a i (fun j => me b j k)
  | RAlt a b => orelse_e (me a i k) (me b i k)
  | RGroup a => me a i k
  | RNGroup a => me a i k
  | RStar a => star_e (fun i k' => me a i k') k (List.length s) i
  | RPlus a => me a i (star_e (fun i k' => me a i k') k (List.length s))
  | ROpt a => orelse_e (me a i (fun j => if j =? i then None else k j)) (k i)
  | RCount n a => rep_e (fun i k' => me a i k') k n i
  end.

(** [k0] is the continuation [k] with the captures left out. *)
Definition erases (k : cont) (k0 : econt) : Prop :=
  forall j c, oend (k j c) = k0 j.

Definition step_erases (step : nat -> caps -> cont -> result)
    (step0 : nat -> econt -> option nat) : Prop :=
  forall i c k k0, erases k k0 -> oend (step i c k) = step0 i k0.

Lemma one_char_erases (p : ascii -> bool) (i : nat) (c : caps)
    (k : cont) (k0 : econt) :
  erases k k0 -> oend (one_char s p i c k) = one_char_e p i k0.
Proof.
  intros H. unfold one_char, one_char_e.
  destruct (nth_error s i) as [x|]; [|reflexivity].
  destruct (p x); [apply H | reflexivity].
Qed.

Lemma star_erases (step : nat -> caps -> cont -> result)
    (step0 : nat -> econt -> option nat) (k : cont) (k0 : econt) :
  step_erases step step0 -> erases k k0 ->
  forall n, erases (star_loop step k n) (star_e step0 k0 n).
Proof.
  intros Hs Hk. induction n as [|n IH]; intros i c; simpl.
  - apply Hk.
  - rewrite oend_orelse, Hk. f_equal. apply Hs.
    intros j c'. destruct (j =? i); [reflexivity | apply IH].
Qed.

Lemma rep_erases (step : nat -> caps -> cont -> result)
    (step0 : nat -> econt -> option nat) (k : cont) (k0 : econt) :
  step_erases step step0 -> erases k k0 ->
  forall n, erases (rep_loop step k n) (rep_e step0 k0 n).
Proof.
  intros Hs Hk. induction n as [|n IH]; intros i c; simpl.
  - apply Hk.
  - apply Hs. exact IH.
Qed.

Lemma m_erases (r : re) :
  forall g i c k k0,
    erases k k0 -> oend (m icase multi s r g i c k) = me r i k0.
Proof.
  induction r as [| ch | neg items | | | | a IHa b IHb | a IHa b IHb
                 | a IHa | a IHa | a IHa | n a IHa | a IHa | a IHa];
    intros g i c k k0 Hk; cbn [m me].
  - apply Hk.
  - apply one_char_erases. exact Hk.
  - apply one_char_erases. exact Hk.
  - apply one_char_erases. exact Hk.
  - destruct (at_bol multi s i); [apply Hk | reflexivity].
  - destruct (at_eol multi s i); [apply Hk | reflexivity].
  - apply IHa. intros j c'. apply IHb. exact Hk.
  - rewrite oend_orelse. f_equal; [apply IHa | apply IHb]; exact Hk.
  - apply (star_erases _ (fun i k' => me a i k')); [|exact Hk].
    intros i' c' k' k0' Hk'. apply IHa. exact Hk'.
  - apply IHa.
    apply (star_erases _ (fun i k' => me a i k')); [|exact Hk].
    intros i' c' k' k0' Hk'. apply IHa. exact Hk'.
  - rewrite oend_orelse, Hk. f_equal. apply IHa.
    intros j c'. destruct (j =? i); [reflexivity | apply Hk].
  - apply (rep_erases _ (fun i k' => me a i k')); [|exact Hk].
    intros i' c' k' k0' Hk'. apply IHa. exact Hk'.
  - apply IHa. intros j c'. apply Hk.
  - apply IHa. exact Hk.
Qed.

(** Where the match of [r] at [i] ends, if there is one. *)
Definition match_end (r : re) (i : nat) : option nat := me r i Some.

Lemma match_at_end (r : re) (i : nat) :
  oend (match_at icase multi s r i) = match_end r i.
Proof. apply m_erases. intros j c. reflexivity. Qed.

Lemma orelse_e_assoc (a b c : option nat) :
  orelse_e (orelse_e a b) c = orelse_e a (orelse_e b c).
Proof. destruct a; reflexivity. Qed.

Lemma me_mk_alt_app (l1 l2 : list re) (i : nat) (k : econt) :
  l1 <> [] -> l2 <> [] ->
  me (mk_alt (l1 ++ l2)) i k =
  orelse_e (me (mk_alt l1) i k) (me (mk_alt l2) i k).
Proof.
  intros H1 H2. induction l1 as [|a l1 IH]; [contradiction|].
  destruct l1 as [|b l1].
  - simpl. destruct l2; [contradiction | reflexivity].
  - change (mk_alt ((a :: b :: l1) ++ l2))
      with (RAlt a (mk_alt ((b :: l1) ++ l2))).
    change (mk_alt (a :: b :: l1)) with (RAlt a (mk_alt (b :: l1))).
    cbn [me]. rewrite IH by discriminate. symmetry. apply orelse_e_assoc.
Qed.

(** The first of the ends, in order. *)
Fixpoint first_end (l : list (option nat)) : option nat :=
  match l with
  | [] => None
  | x :: l' => orelse_e x (first_end l')
  end.

Lemma me_mk_alt_concat (ls : list (list re)) (i : nat) (k : econt) :
  ls <> [] -> Forall (fun l => l <> []) ls ->
  me (mk_alt (List.concat ls)) i k =
  first_end (map (fun l => me (mk_alt l) i k) ls).
Proof.
  intros Hne Hall. induction ls as [|l ls IH]; [contradiction|].
  inversion Hall as [|? ? Hl Hls]; subst.
  destruct ls as [|l' ls].
  - simpl. rewrite app_nil_r. destruct (me (mk_alt l) i k); reflexivity.
  - cbn [List.concat map first_end]. rewrite me_mk_alt_app.
    + f_equal. apply IH; [discriminate | exact Hls].
    + exact Hl.
    + inversion Hls; subst. simpl. intros E. apply app_eq_nil in E. tauto.
Qed.

End Ends.

Definition is_some {A} (o : option A) : bool :=
  match o with
  | Some _ => true
  | None => false
  end.

Lemma is_some_oend (r : result) : is_some (oend r) = is_some r.
Proof. destruct r; reflexivity. Qed.

Lemma search_some (icase multi : bool) (s : list ascii) (r : re) (fuel : nat) :
  forall i,
    is_some (search icase multi s r fuel i) =
    existsb (fun i' => is_some (match_end icase multi s r i')) (seq i (S fuel)).
Proof.
  induction fuel as [|fuel IH]; intros i.
  - simpl. rewrite <- match_at_end, is_some_oend.
    destruct (match_at icase multi s r i) as [[j c]|]; reflexivity.
  - cbn [search]. change (seq i (S (S fuel))) with (i :: seq (S i) (S fuel)).
    cbn [existsb]. rewrite <- match_at_end, is_some_oend.
    destruct (match_at icase multi s r i) as [[j c]|]; [reflexivity|].
    apply IH.
Qed.

(** [test] on an expression that is neither global nor sticky: some
    offset of the string has a match. *)
Lemma test_search (R : RegExp) (str0 : string) :
  f_global (flags R) = false -> f_sticky (flags R) = false ->
  test R str0 =
  match parse (source R) with
  | None => false
  | Some r =>
      existsb
        (fun i => is_some (match_end (f_ignoreCase (flags R))
                             (f_multiline (flags R)) (chars str0) r i))
        (seq 0 (S (List.length (chars str0))))
  end.
Proof.
  intros Hg Hy. unfold test, exec. rewrite Hg, Hy. cbn [orb].
  change (List.length (chars str0) <? 0) with false. cbv iota.
  destruct (parse (source R)) as [r|]; [|reflexivity].
  rewrite Nat.sub_0_r, <- search_some.
  destruct (search _ _ _ r _ 0) as [[i [j c]]|]; reflexivity.
Qed.

Lemma is_some_first_end (l : list (option nat)) :
  is_some (first_end l) = existsb is_some l.
Proof. induction l as [|[x|] l IH]; simpl; auto. Qed.

Lemma existsb_swap {A B} (f : A -> B -> bool) (la : list A) (lb : list B) :
  existsb (fun a => existsb (f a) lb) la =
  existsb (fun b => existsb (fun a => f a b) la) lb.
Proof.
  induction la as [|a la IH]; simpl.
  - induction lb; simpl; auto.
  - rewrite IH. clear IH. induction lb as [|b lb IH]; simpl.
    + reflexivity.
    + rewrite <- IH. destruct (f a b), (existsb (f a) lb),
        (existsb (fun a0 => f a0 b) la); reflexivity.
Qed.

Lemma existsb_pointwise {A} (f g : A -> bool) (l : list A) :
  (forall a, f a = g a) -> existsb f l = existsb g l.
Proof. intros H. induction l; simpl; [reflexivity | rewrite H, IHl; reflexivity]. Qed.

Lemma existsb_of_map {A B} (f : B -> bool) (g : A -> B) (l : list A) :
  existsb f (map g l) = existsb (fun x => f (g x)) l.
Proof. induction l; simpl; [reflexivity | rewrite IHl; reflexivity]. Qed.

Lemma join_nonempty (sep x : string) (l : list string) :
  x <> EmptyString -> join sep (x :: l) <> EmptyString.
Proof. destruct x; [contradiction|]. destruct l; discriminate. Qed.

(** An expression whose source the model reads, without flags. *)
Definition plain (R : RegExp) : Prop :=
  flags R = no_flags /\ source R <> EmptyString /\ parse (source R) <> None.

Lemma plain_alts (Rs : list RegExp) :
  Forall plain Rs ->
  exists ls,
    Forall2 (fun src l => parse_alts src = Some l) (map source Rs) ls /\
    Forall (fun l => l <> []) ls /\
    Forall2 (fun R l => parse (source R) = Some (mk_alt l)) Rs ls.
Proof.
  induction Rs as [|R Rs IH]; intros H.
  - exists []. repeat split; constructor.
  - inversion H as [|? ? (_ & _ & Hp) Hrest]; subst.
    destruct (IH Hrest) as (ls & H1 & H2 & H3).
    rewrite parse_parse_alts in Hp.
    destruct (parse_alts (source R)) as [l|] eqn:E; [|contradiction].
    exists (l :: ls). repeat split; constructor; auto.
    + eapply parse_alts_nonempty. exact E.
    + rewrite parse_parse_alts, E. reflexivity.
Qed.

Lemma anyRE_parse (Rs : list RegExp) :
  Rs <> [] -> Forall plain Rs ->
  exists ls,
    Forall (fun l => l <> []) ls /\
    Forall2 (fun R l => parse (source R) = Some (mk_alt l)) Rs ls /\
    parse (source (anyRE Rs)) = Some (mk_alt (List.concat ls)).
Proof.
  intros Hne Hall. destruct (plain_alts Rs Hall) as (ls & H1 & H2 & H3).
  exists ls. split; [exact H2|]. split; [exact H3|].
  unfold anyRE, RegExp_new. cbn [source].
  destruct Rs as [|R Rs]; [contradiction|].
  inversion Hall as [|? ? (_ & Hsrc & _) _]; subst.
  pose proof (join_nonempty "|" (source R) (map source Rs) Hsrc) as Hj.
  change (source R :: map source Rs) with (map source (R :: Rs)) in Hj.
  destruct (String.eqb_spec (join "|" (map source (R :: Rs))) "");
    [contradiction|].
  rewrite parse_parse_alts, (parse_alts_join _ ls); [reflexivity | discriminate | exact H1].
Qed.

(** For expressions without flags, at each offset the alternation ends
    where the first argument that matches there ends: the first
    alternative that matches wins. *)
Lemma anyRE_first_wins (Rs : list RegExp) :
  Rs <> [] -> Forall plain Rs ->
  exists r,
    parse (source (anyRE Rs)) = Some r /\
    forall s i,
      match_end false false s r i =
      first_end
        (map (fun R =>
                match parse (source R) with
                | Some rj => match_end false false s rj i
                | None => None
                end) Rs).
Proof.
  intros Hne Hall. destruct (anyRE_parse Rs Hne Hall) as (ls & H2 & H3 & Hp).
  eexists. split; [exact Hp|]. intros s i. unfold match_end.
  assert (Hls : ls <> []).
  { destruct Rs; [contradiction|]. inversion H3. discriminate. }
  rewrite me_mk_alt_concat by assumption.
  clear Hp Hne Hall Hls H2. induction H3 as [|R l Rs ls HR _ IH]; [reflexivity|].
  simpl. rewrite HR, IH. reflexivity.
Qed.

(** For expressions without flags, the alternation matches a string
    exactly when one of the arguments does. *)
Lemma anyRE_matches_any (Rs : list RegExp) (str0 : string) :
  Rs <> [] -> Forall plain Rs ->
  test (anyRE Rs) str0 = existsb (fun R => test R str0) Rs.
Proof.
  intros Hne Hall.
  destruct (anyRE_first_wins Rs Hne Hall) as (r & Hp & Hend).
  rewrite test_search by reflexivity. rewrite Hp.
  cbn [anyRE RegExp_new flags f_ignoreCase f_multiline no_flags].
  erewrite existsb_pointwise.
  2:{ intros i. rewrite Hend, is_some_first_end, existsb_of_map. reflexivity. }
  rewrite (existsb_swap
             (fun i R => is_some match parse (source R) with
                                 | Some rj => match_end false false (chars str0) rj i
                                 | None => None
                                 end)).
  clear Hp Hend Hne. induction Hall as [|R Rs (Hf & _ & HR) _ IH]; [reflexivity|].
  cbn [existsb]. rewrite IH. f_equal.
  rewrite test_search by (rewrite Hf; reflexivity). rewrite Hf.
  cbn [f_ignoreCase f_multiline no_flags].
  destruct (parse (source R)) as [rj|]; [reflexivity | contradiction].
Qed.

(** The alternatives of the token expression are such expressions. *)
Example token_alternatives_plain :
  Forall plain [SPACE_RE; NUMBER_RE; STRING_RE; IDENT_RE;
                SINGLE_OP; MULTI_OP; LINE_COMMENT_RE].
Proof.
  repeat constructor; try discriminate; vm_compute; discriminate.
Qed.

(** The expression [/a/i]. *)
Definition a_ignoring_case : RegExp :=
  mkRegExp "a" (mkFlags false true false false).

(** C7 at a failing input.  [/a/i] matches [A]; [anyRE(/a/i)] is [/a/],
    the source kept and the flag dropped, and does not match [A]: a string
    matched by an argument is not matched by the result. *)
Theorem anyRE_drops_flags :
  test a_ignoring_case "A" = true /\
  source (anyRE [a_ignoring_case]) = "a"%string /\
  flags (anyRE [a_ignoring_case]) = no_flags /\
  test (anyRE [a_ignoring_case]) "A" = false.
Proof. repeat split; vm_compute; reflexivity. Qed.

From Stdlib Require Import NArith.

(** * Further properties of the substrate and the scanner *)

(** ** The memo table as a map *)

(** [this._memo.get(pos).get(ruleOrPatt)], [None] when either is absent. *)
Definition memo_get (st : Packratter) (pos : nat) (k : key) : option entry :=
  map_get key_eqb k (posm_of (_memo st) pos).

Lemma memo_get_set (pos p : nat) (k k' : key) (e : entry) (st : Packratter) :
  memo_get (memo_set pos k e st) p k' =
  if (p =? pos) && key_eqb k' k then Some e else memo_get st p k'.
Proof.
  unfold memo_get. rewrite posm_of_memo_set.
  destruct (p =? pos) eqn:Ep; simpl; [|reflexivity].
  apply Nat.eqb_eq in Ep. subst p.
  destruct (key_eqb k' k) eqn:Ek.
  - apply key_eqb_eq in Ek. subst k'.
    apply (map_get_set_same key_eqb key_eqb_eq).
  - apply (map_get_set_other key_eqb key_eqb_eq).
    intros ->. rewrite key_eqb_refl in Ek. discriminate.
Qed.

Lemma memo_get_ensure (pos p : nat) (k : key) (st : Packratter) :
  memo_get (ensure_posm pos st) p k = memo_get st p k.
Proof. unfold memo_get. rewrite posm_of_ensure. reflexivity. Qed.

(** The parser right after [run] has set its probe and counted the miss. *)
Definition probing (pos : nat) (k : key) (st : Packratter) : Packratter :=
  let st1 := memo_set pos k LEFT_RECUR st in
  mkPackratter (_memo st1) (hits st1) (S (misses st1)).

(** The parser after a hit. *)
Definition hit (st : Packratter) : Packratter :=
  mkPackratter (_memo st) (S (hits st)) (misses st).

Lemma memo_get_probing (pos p : nat) (k k' : key) (st : Packratter) :
  memo_get (probing pos k st) p k' =
  if (p =? pos) && key_eqb k' k then Some LEFT_RECUR else memo_get st p k'.
Proof. apply memo_get_set. Qed.

Lemma memo_get_hit (p : nat) (k : key) (st : Packratter) :
  memo_get (hit st) p k = memo_get st p k.
Proof. reflexivity. Qed.

(** [run] in terms of the three cases of its probe. *)
Lemma run_with_cases (invoke : M rresult) (k : key) (pos : nat)
    (name : string) (st : Packratter) :
  run_with memo_probe invoke k pos name st =
  let st0 := ensure_posm pos st in
  match memo_get st pos k with
  | Some LEFT_RECUR => (Err (Error ("Left recursion on rule: " ++ name)), st0)
  | Some (Res r) => (Ok r, hit st0)
  | None =>
      match invoke (probing pos k st0) with
      | (Ok r, st3) => (Ok r, memo_set pos k (Res r) st3)
      | other => other
      end
  end.
Proof.
  unfold run_with, memo_probe. rewrite <- (memo_get_ensure pos pos k st).
  reflexivity.
Qed.

(** ** What every [run] keeps

    A relation between the parser before and after a computation, which may
    ask more of a computation that returns ([true]) than of one that throws
    or does not end ([false]). *)

Definition returned {A} (o : outcome A) : bool :=
  match o with
  | Ok _ => true
  | _ => false
  end.

Section RunRelation.

Variable this : Scanner.
Variable rules : nat -> nat -> Proc.
Variable R : bool -> Packratter -> Packratter -> Prop.

Hypothesis R_refl : forall b st, R b st st.
Hypothesis R_trans :
  forall b st1 st2 st3, R true st1 st2 -> R b st2 st3 -> R b st1 st3.
Hypothesis R_ensure : forall pos st, R true st (ensure_posm pos st).
Hypothesis R_hit : forall st, R true st (hit st).
Hypothesis R_miss_returns :
  forall pos k r st st3,
    memo_get st pos k = None ->
    R true (probing pos k st) st3 ->
    R true st (memo_set pos k (Res r) st3).
Hypothesis R_miss_throws :
  forall pos k st st3,
    memo_get st pos k = None ->
    R false (probing pos k st) st3 ->
    R false st st3.

Definition respects {A} (c : M A) : Prop :=
  forall st, R (returned (fst (c st))) st (snd (c st)).

Lemma R_weaken (st st' : Packratter) : R true st st' -> R false st st'.
Proof. intros H. apply (R_trans false st st' st'); [exact H | apply R_refl]. Qed.

Lemma respects_ret {A} (a : A) : respects (ret a).
Proof. intros st. apply R_refl. Qed.

Lemma respects_throw {A} (e : error) : respects (@throw A e).
Proof. intros st. apply R_refl. Qed.

Lemma respects_diverge {A} : respects (@diverge A).
Proof. intros st. apply R_refl. Qed.

Lemma respects_bind {A B} (c : M A) (f : A -> M B) :
  respects c -> (forall a, respects (f a)) -> respects (bind c f).
Proof.
  intros Hc Hf st. unfold bind. specialize (Hc st).
  destruct (c st) as [[a|e|] st1]; simpl in *; try exact Hc.
  eapply R_trans; [exact Hc | apply Hf].
Qed.

Lemma respects_run_with (invoke : M rresult) (k : key) (pos : nat)
    (name : string) :
  respects invoke -> respects (run_with memo_probe invoke k pos name).
Proof.
  intros Hinv st. rewrite run_with_cases. cbv zeta.
  destruct (memo_get st pos k) as [[|r]|] eqn:E; simpl.
  - apply R_weaken, R_ensure.
  - eapply R_trans; [apply R_ensure | apply R_hit].
  - specialize (Hinv (probing pos k (ensure_posm pos st))).
    rewrite <- (memo_get_ensure pos pos k st) in E.
    destruct (invoke _) as [[r|e|] st3]; simpl in *.
    + eapply R_trans; [apply R_ensure|]. eapply R_miss_returns; eauto.
    + eapply R_trans; [apply R_ensure|]. eapply R_miss_throws; eauto.
    + eapply R_trans; [apply R_ensure|]. eapply R_miss_throws; eauto.
Qed.

Lemma respects_SKIP_loop (fuel : nat) :
  forall pos, respects (SKIP_loop memo_probe this fuel pos).
Proof.
  induction fuel as [|fuel IH]; intros pos; simpl.
  - destruct (pos <? _); [apply respects_diverge | apply respects_ret].
  - destruct (pos <? _); [|apply respects_ret].
    destruct (nth_error (toks this) pos) as [[token|h]|]; try apply respects_ret.
    destruct (negb (is_FAIL (snd (rule_SPACE this pos)))); [apply IH|].
    apply respects_bind; [apply respects_run_with, respects_ret|].
    intros pair. destruct (negb (is_FAIL (snd pair)));
      [apply IH | apply respects_ret].
Qed.

Lemma respects_eat (pos : nat) (patt0 : patt) :
  respects (eat memo_probe this pos patt0).
Proof.
  unfold eat. apply respects_bind; [apply respects_SKIP_loop|].
  intros r. destruct (fst r <? _); [|apply respects_ret].
  destruct (nth_error _ _) as [[token|h]|]; try apply respects_ret.
  destruct (eat_matches _ _); apply respects_ret.
Qed.

Lemma respects_call_builtin (b : builtin) (pos : nat) :
  respects (call_builtin memo_probe this b pos).
Proof.
  destruct b; simpl; try apply respects_ret; try apply respects_SKIP_loop;
    try apply respects_eat.
  - unfold rule_IDENT. apply respects_bind; [apply respects_SKIP_loop|].
    intros r. destruct (_ <=? _); [apply respects_ret|].
    destruct (nth_error _ _) as [[token|h]|]; try apply respects_ret.
    destruct (_ && _); apply respects_ret.
  - unfold rule_HOLE. apply respects_bind; [apply respects_SKIP_loop|].
    intros r. destruct (_ <=? _); [apply respects_ret|].
    destruct (nth_error _ _) as [[token|h]|]; apply respects_ret.
  - unfold rule_EOF. apply respects_bind; [apply respects_SKIP_loop|].
    intros r. apply respects_ret.
Qed.

Lemma respects_invoke (call : fn -> nat -> M rresult) (k : key) (pos : nat)
    (name : string) :
  (forall f pos', respects (call f pos')) ->
  respects (invoke memo_probe this call k pos name).
Proof.
  intros Hcall. destruct k as [f| |s|oid Rx]; simpl;
    first [apply Hcall | apply respects_throw | apply respects_eat].
Qed.

Lemma respects_run_via (call : fn -> nat -> M rresult) (k : key) (pos : nat)
    (name : string) :
  (forall f pos', respects (call f pos')) ->
  respects (run_via memo_probe this call k pos name).
Proof.
  intros Hcall. unfold run_via. apply respects_run_with, respects_invoke, Hcall.
Qed.

Lemma respects_exec_proc (call : fn -> nat -> M rresult) (p : Proc) :
  (forall f pos', respects (call f pos')) ->
  respects (exec_proc memo_probe this call p).
Proof.
  intros Hcall.
  induction p as [r|e|k pos name cont IH|f pos cont IH|pos patt0 cont IH];
    simpl.
  - apply respects_ret.
  - apply respects_throw.
  - apply respects_bind; [apply respects_run_via; assumption | exact IH].
  - apply respects_bind; [apply Hcall | exact IH].
  - apply respects_bind; [apply respects_eat | exact IH].
Qed.

Lemma respects_call_fn (fuel : nat) :
  forall f pos, respects (call_fn memo_probe this rules fuel f pos).
Proof.
  induction fuel as [|fuel IH]; intros [b|id] pos; simpl;
    try apply respects_call_builtin.
  - apply respects_diverge.
  - apply respects_exec_proc. exact IH.
Qed.

Lemma respects_run (fuel : nat) (k : key) (pos : nat) (name : string) :
  respects (run memo_probe this rules fuel k pos name).
Proof. unfold run. apply respects_run_via, respects_call_fn. Qed.

End RunRelation.

(** ** The life of a memo entry *)

(** No result is changed or dropped. *)
Definition results_kept (st st' : Packratter) : Prop :=
  forall p k r, memo_get st p k = Some (Res r) -> memo_get st' p k = Some (Res r).

(** No counter goes down. *)
Definition counters_grow (st st' : Packratter) : Prop :=
  hits st <= hits st' /\ misses st <= misses st'.

(** Every probe still in the table was there before. *)
Definition no_new_probe (st st' : Packratter) : Prop :=
  forall p k, memo_get st' p k = Some LEFT_RECUR ->
              memo_get st p k = Some LEFT_RECUR.

Definition run_rel (b : bool) (st st' : Packratter) : Prop :=
  results_kept st st' /\ counters_grow st st' /\
  (b = true -> no_new_probe st st').

Lemma pair_eqb_false (pos p : nat) (k k' : key) :
  (p =? pos) && key_eqb k' k = false -> p <> pos \/ k' <> k.
Proof.
  intros H. apply andb_false_iff in H. destruct H as [H|H].
  - left. apply Nat.eqb_neq. exact H.
  - right. intros E. rewrite E, key_eqb_refl in H. discriminate.
Qed.

Lemma pair_eqb_true (pos p : nat) (k k' : key) :
  (p =? pos) && key_eqb k' k = true -> p = pos /\ k' = k.
Proof.
  intros H. apply andb_true_iff in H. destruct H as [H1 H2].
  apply Nat.eqb_eq in H1. apply key_eqb_eq in H2. auto.
Qed.

Lemma run_rel_refl (b : bool) (st : Packratter) : run_rel b st st.
Proof.
  split; [|split].
  - intros p k r H. exact H.
  - split; lia.
  - intros Hb p k H. exact H.
Qed.

Lemma run_rel_trans (b : bool) (st1 st2 st3 : Packratter) :
  run_rel true st1 st2 -> run_rel b st2 st3 -> run_rel b st1 st3.
Proof.
  intros (K1 & [C1 C1'] & Q1) (K2 & [C2 C2'] & Q2). split; [|split].
  - intros p k r H. apply K2, K1, H.
  - split; lia.
  - intros Hb p k H. apply (Q1 eq_refl), (Q2 Hb), H.
Qed.

Lemma run_rel_ensure (pos : nat) (st : Packratter) :
  run_rel true st (ensure_posm pos st).
Proof.
  split; [|split].
  - intros p k r H. rewrite memo_get_ensure. exact H.
  - unfold counters_grow, ensure_posm.
    destruct (map_get Nat.eqb pos (_memo st)); simpl; lia.
  - intros _ p k H. rewrite memo_get_ensure in H. exact H.
Qed.

Lemma run_rel_hit (st : Packratter) : run_rel true st (hit st).
Proof.
  split; [|split].
  - intros p k r H. exact H.
  - unfold counters_grow, hit. simpl. lia.
  - intros _ p k H. exact H.
Qed.

Lemma run_rel_miss_returns (pos : nat) (k : key) (r : rresult)
    (st st3 : Packratter) :
  memo_get st pos k = None ->
  run_rel true (probing pos k st) st3 ->
  run_rel true st (memo_set pos k (Res r) st3).
Proof.
  intros Hnone (K & [C C'] & P). split; [|split].
  - intros p k' r' H. rewrite memo_get_set.
    destruct ((p =? pos) && key_eqb k' k) eqn:E.
    + apply pair_eqb_true in E. destruct E as [-> ->]. congruence.
    + apply K. rewrite memo_get_probing, E. exact H.
  - unfold counters_grow, probing in *. simpl in *. lia.
  - intros _ p k' H. rewrite memo_get_set in H.
    destruct ((p =? pos) && key_eqb k' k) eqn:E; [discriminate|].
    apply (P eq_refl) in H. rewrite memo_get_probing, E in H. exact H.
Qed.

Lemma run_rel_miss_throws (pos : nat) (k : key) (st st3 : Packratter) :
  memo_get st pos k = None ->
  run_rel false (probing pos k st) st3 ->
  run_rel false st st3.
Proof.
  intros Hnone (K & [C C'] & P). split; [|split].
  - intros p k' r' H. apply K. rewrite memo_get_probing.
    destruct ((p =? pos) && key_eqb k' k) eqn:E; [|exact H].
    apply pair_eqb_true in E. destruct E as [-> ->]. congruence.
  - unfold counters_grow, probing in *. simpl in *. lia.
  - discriminate.
Qed.

Lemma run_run_rel (this : Scanner) (rules : nat -> nat -> Proc) (fuel : nat)
    (k : key) (pos : nat) (name : string) (st : Packratter) :
  run_rel (returned (fst (run memo_probe this rules fuel k pos name st)))
    st (snd (run memo_probe this rules fuel k pos name st)).
Proof.
  apply (respects_run this rules run_rel run_rel_refl run_rel_trans
           run_rel_ensure run_rel_hit run_rel_miss_returns
           run_rel_miss_throws).
Qed.

(** X1.  A result in the memo table stays as it is through every later
    [run], whatever that one is asked and however it ends: no pair of
    position and rule is given a second result. *)
Theorem run_keeps_results
    (this : Scanner) (rules : nat -> nat -> Proc) (fuel : nat)
    (ruleOrPatt : key) (pos : nat) (name : string) (st : Packratter)
    (p : nat) (k : key) (r : rresult) :
  memo_get st p k = Some (Res r) ->
  memo_get (snd (run memo_probe this rules fuel ruleOrPatt pos name st)) p k
  = Some (Res r).
Proof. intros H. apply (run_run_rel this rules fuel ruleOrPatt pos name st), H. Qed.

(** X2.  When [run] returns, every probe it set has been replaced by a
    result: a table without [LEFT_RECUR] before the call has none after
    it. *)
Theorem run_returns_without_probe
    (this : Scanner) (rules : nat -> nat -> Proc) (fuel : nat)
    (ruleOrPatt : key) (pos : nat) (name : string) (st st' : Packratter)
    (r : rresult) :
  run memo_probe this rules fuel ruleOrPatt pos name st = (Ok r, st') ->
  (forall p k, memo_get st p k <> Some LEFT_RECUR) ->
  forall p k, memo_get st' p k <> Some LEFT_RECUR.
Proof.
  intros Hrun Hnone p k H.
  pose proof (run_run_rel this rules fuel ruleOrPatt pos name st) as (_ & _ & P).
  rewrite Hrun in P. simpl in P. apply (Hnone p k), (P eq_refl), H.
Qed.

Lemma invoke_run_rel (this : Scanner) (rules : nat -> nat -> Proc)
    (fuel : nat) (k : key) (pos : nat) (name : string) :
  respects run_rel
    (invoke memo_probe this (call_fn memo_probe this rules fuel) k pos name).
Proof.
  apply respects_invoke;
    first [ exact run_rel_refl | exact run_rel_trans
          | exact run_rel_ensure | exact run_rel_hit
          | exact run_rel_miss_returns | exact run_rel_miss_throws
          | intros; apply respects_call_fn;
            first [ exact run_rel_refl | exact run_rel_trans
                  | exact run_rel_ensure | exact run_rel_hit
                  | exact run_rel_miss_returns | exact run_rel_miss_throws ] ].
Qed.

Lemma counters_ensure (pos : nat) (st : Packratter) :
  hits (ensure_posm pos st) = hits st /\
  misses (ensure_posm pos st) = misses st.
Proof.
  unfold ensure_posm. destruct (map_get Nat.eqb pos (_memo st)); auto.
Qed.

(** X3.  The counters only go up, and every call of [run] counts: unless
    it finds its own probe and throws at once, [run] leaves the sum of
    [hits] and [misses] greater than it found it, and when the table has
    nothing under the position and the key it counts a miss, however the
    rule ends. *)
Theorem run_counts
    (this : Scanner) (rules : nat -> nat -> Proc) (fuel : nat)
    (ruleOrPatt : key) (pos : nat) (name : string) (st : Packratter) :
  let st' := snd (run memo_probe this rules fuel ruleOrPatt pos name st) in
  hits st <= hits st' /\ misses st <= misses st' /\
  (memo_get st pos ruleOrPatt <> Some LEFT_RECUR ->
   hits st + misses st < hits st' + misses st') /\
  (memo_get st pos ruleOrPatt = None -> misses st < misses st').
Proof.
  cbv zeta.
  pose proof (run_run_rel this rules fuel ruleOrPatt pos name st) as (_ & G & _).
  destruct G as [G1 G2]. split; [exact G1|]. split; [exact G2|].
  assert (Hmiss : memo_get st pos ruleOrPatt = None ->
                  misses st < misses (snd (run memo_probe this rules fuel
                                             ruleOrPatt pos name st))).
  { intros Hnone. unfold run, run_via. rewrite run_with_cases, Hnone. cbv zeta.
    pose proof (invoke_run_rel this rules fuel ruleOrPatt pos name
                  (probing pos ruleOrPatt (ensure_posm pos st))) as (_ & C & _).
    destruct C as [_ C]. destruct (counters_ensure pos st) as [_ Em].
    assert (Hp : misses (probing pos ruleOrPatt (ensure_posm pos st))
                 = S (misses st)).
    { unfold probing. cbn [misses]. unfold memo_set. cbn [misses].
      rewrite Em. reflexivity. }
    rewrite Hp in C.
    destruct (invoke _ _ _ _ _ _ _) as [[r|e|] st3]; cbn [snd fst] in *;
      try lia.
    unfold memo_set. cbn [misses]. lia. }
  split; [|exact Hmiss].
  intros Hne. destruct (memo_get st pos ruleOrPatt) as [[|r]|] eqn:E.
  - contradiction.
  - unfold run, run_via. rewrite run_with_cases, E. cbv zeta. cbn [snd].
    destruct (counters_ensure pos st) as [Eh Em].
    unfold hit. cbn [hits misses]. lia.
  - specialize (Hmiss eq_refl). lia.
Qed.

(** A hit: the rule is not called and the table is as it was. *)
Lemma run_hit (this : Scanner) (rules : nat -> nat -> Proc) (fuel : nat)
    (ruleOrPatt : key) (pos : nat) (name : string) (st : Packratter)
    (r : rresult) :
  memo_get st pos ruleOrPatt = Some (Res r) ->
  run memo_probe this rules fuel ruleOrPatt pos name st =
  (Ok r, mkPackratter (_memo st) (S (hits st)) (misses st)).
Proof.
  intros H. unfold run, run_via. rewrite run_with_cases, H. cbv zeta.
  unfold memo_get in H.
  rewrite (ensure_posm_present pos st ruleOrPatt (Res r) H). reflexivity.
Qed.

Lemma run_stores (this : Scanner) (rules : nat -> nat -> Proc) (fuel : nat)
    (k : key) (pos : nat) (name : string) (st st' : Packratter) (r : rresult) :
  run memo_probe this rules fuel k pos name st = (Ok r, st') ->
  memo_get st' pos k = Some (Res r).
Proof.
  unfold run, run_via. rewrite run_with_cases. cbv zeta.
  destruct (memo_get st pos k) as [[|r0]|] eqn:E.
  - discriminate.
  - intros [= <- <-]. rewrite memo_get_hit, memo_get_ensure. exact E.
  - destruct (invoke _ _ _ _ _ _ _) as [[r1|e|] st3]; try discriminate.
    intros [= <- <-]. rewrite memo_get_set, Nat.eqb_refl, key_eqb_refl.
    reflexivity.
Qed.

(** X4.  Insert and look up: once [run] has returned a pair for a position
    and a key, the table holds it, and asking again, with any budget and
    under any name, is a hit that returns the same pair and only counts. *)
Theorem run_again_hits
    (this : Scanner) (rules : nat -> nat -> Proc) (fuel : nat)
    (ruleOrPatt : key) (pos : nat) (name : string) (st st' : Packratter)
    (r : rresult) :
  run memo_probe this rules fuel ruleOrPatt pos name st = (Ok r, st') ->
  memo_get st' pos ruleOrPatt = Some (Res r) /\
  forall fuel' name',
    run memo_probe this rules fuel' ruleOrPatt pos name' st' =
    (Ok r, mkPackratter (_memo st') (S (hits st')) (misses st')).
Proof.
  intros H. pose proof (run_stores _ _ _ _ _ _ _ _ _ H) as Hs.
  split; [exact Hs|]. intros fuel' name'. apply run_hit. exact Hs.
Qed.

Lemma run_on_probe (this : Scanner) (rules : nat -> nat -> Proc) (fuel : nat)
    (k : key) (pos : nat) (name : string) (st : Packratter) :
  memo_get st pos k = Some LEFT_RECUR ->
  run memo_probe this rules fuel k pos name st =
  (Err (Error ("Left recursion on rule: " ++ name)), st).
Proof.
  intros H. unfold run, run_via. rewrite run_with_cases, H. cbv zeta.
  unfold memo_get in H.
  rewrite (ensure_posm_present pos st k LEFT_RECUR H). reflexivity.
Qed.

(** X5.  A missing rule: [run(undefined, pos, name)] with nothing in the
    table throws "Rule missing: name", having counted a miss and left its
    probe behind; so the same call made again throws the left-recursion
    error instead. *)
Theorem run_missing_rule
    (this : Scanner) (rules : nat -> nat -> Proc) (fuel : nat)
    (pos : nat) (name : string) (st : Packratter) :
  memo_get st pos KUndef = None ->
  exists st',
    run memo_probe this rules fuel KUndef pos name st =
    (Err (Error ("Rule missing: " ++ name)), st') /\
    misses st' = S (misses st) /\ hits st' = hits st /\
    memo_get st' pos KUndef = Some LEFT_RECUR /\
    forall fuel' name',
      run memo_probe this rules fuel' KUndef pos name' st' =
      (Err (Error ("Left recursion on rule: " ++ name')), st').
Proof.
  intros H. unfold run, run_via. rewrite run_with_cases, H. cbv zeta.
  cbn [invoke throw].
  eexists. split; [reflexivity|].
  assert (Hp : memo_get (probing pos KUndef (ensure_posm pos st)) pos KUndef
               = Some LEFT_RECUR).
  { rewrite memo_get_probing, Nat.eqb_refl. reflexivity. }
  split; [|split; [|split; [exact Hp|]]].
  - unfold probing, ensure_posm. simpl.
    destruct (map_get Nat.eqb pos (_memo st)); reflexivity.
  - unfold probing, ensure_posm. simpl.
    destruct (map_get Nat.eqb pos (_memo st)); reflexivity.
  - intros fuel' name'.
    apply (run_on_probe this rules fuel' KUndef pos name'). exact Hp.
Qed.

(** *** A rule that throws *)

(** The probes of [st] are still in [st']. *)
Definition probes_kept (b : bool) (st st' : Packratter) : Prop :=
  forall p k, memo_get st p k = Some LEFT_RECUR ->
              memo_get st' p k = Some LEFT_RECUR.

Lemma probes_kept_other (pos : nat) (k : key) (e : entry)
    (st st3 : Packratter) :
  memo_get st pos k = None ->
  probes_kept true (probing pos k st) st3 ->
  forall p k', memo_get st p k' = Some LEFT_RECUR ->
    ((p =? pos) && key_eqb k' k = false) /\
    memo_get st3 p k' = Some LEFT_RECUR.
Proof.
  intros Hnone H p k' Hp.
  assert (E : (p =? pos) && key_eqb k' k = false).
  { destruct ((p =? pos) && key_eqb k' k) eqn:E; [|reflexivity].
    apply pair_eqb_true in E. destruct E as [-> ->]. congruence. }
  split; [exact E|]. apply H. rewrite memo_get_probing, E. exact Hp.
Qed.

Lemma probes_kept_refl (b : bool) (st : Packratter) : probes_kept b st st.
Proof. intros p k H. exact H. Qed.

Lemma probes_kept_trans (b : bool) (st1 st2 st3 : Packratter) :
  probes_kept true st1 st2 -> probes_kept b st2 st3 -> probes_kept b st1 st3.
Proof. intros H1 H2 p k H. apply H2, H1, H. Qed.

Lemma probes_kept_ensure (pos : nat) (st : Packratter) :
  probes_kept true st (ensure_posm pos st).
Proof. intros p k H. rewrite memo_get_ensure. exact H. Qed.

Lemma probes_kept_hit (st : Packratter) : probes_kept true st (hit st).
Proof. intros p k H. rewrite memo_get_hit. exact H. Qed.

Lemma probes_kept_miss_returns (pos : nat) (k : key) (r : rresult)
    (st st3 : Packratter) :
  memo_get st pos k = None ->
  probes_kept true (probing pos k st) st3 ->
  probes_kept true st (memo_set pos k (Res r) st3).
Proof.
  intros Hnone H p k' Hp.
  destruct (probes_kept_other pos k (Res r) st st3 Hnone H p k' Hp) as [E H3].
  rewrite memo_get_set, E. exact H3.
Qed.

Lemma probes_kept_miss_throws (pos : nat) (k : key) (st st3 : Packratter) :
  memo_get st pos k = None ->
  probes_kept false (probing pos k st) st3 ->
  probes_kept false st st3.
Proof.
  intros Hnone H p k' Hp.
  apply (probes_kept_other pos k LEFT_RECUR st st3 Hnone H p k' Hp).
Qed.

Lemma call_fn_keeps_probes (this : Scanner) (rules : nat -> nat -> Proc)
    (fuel : nat) (f : fn) (pos : nat) :
  respects probes_kept (call_fn memo_probe this rules fuel f pos).
Proof.
  apply (respects_call_fn this rules probes_kept probes_kept_refl
           probes_kept_trans probes_kept_ensure probes_kept_hit
           probes_kept_miss_returns probes_kept_miss_throws).
Qed.

Lemma invoke_keeps_probes (this : Scanner) (rules : nat -> nat -> Proc)
    (fuel : nat) (k : key) (pos : nat) (name : string) :
  respects probes_kept
    (invoke memo_probe this (call_fn memo_probe this rules fuel) k pos name).
Proof.
  apply respects_invoke;
    first [ exact probes_kept_refl | exact probes_kept_trans
          | exact probes_kept_ensure | exact probes_kept_hit
          | exact probes_kept_miss_returns | exact probes_kept_miss_throws
          | intros; apply call_fn_keeps_probes ].
Qed.

(** X6.  An exception poisons the entry.  When [run] misses and the rule
    or pattern throws, the probe that [run] set stays in the table; so
    every later [run] of that rule at that position, whatever else has run
    in between, throws the left-recursion error, though no rule called
    itself. *)
Theorem run_exception_leaves_probe
    (this : Scanner) (rules : nat -> nat -> Proc) (fuel : nat)
    (ruleOrPatt : key) (pos : nat) (name : string) (st st' : Packratter)
    (e : error) :
  memo_get st pos ruleOrPatt = None ->
  run memo_probe this rules fuel ruleOrPatt pos name st = (Err e, st') ->
  memo_get st' pos ruleOrPatt = Some LEFT_RECUR /\
  forall fuel' name',
    run memo_probe this rules fuel' ruleOrPatt pos name' st' =
    (Err (Error ("Left recursion on rule: " ++ name')), st').
Proof.
  intros Hnone Hrun.
  assert (Hp : memo_get st' pos ruleOrPatt = Some LEFT_RECUR).
  { unfold run, run_via in Hrun. rewrite run_with_cases, Hnone in Hrun.
    cbv zeta in Hrun.
    pose proof (invoke_keeps_probes this rules fuel ruleOrPatt pos name
                  (probing pos ruleOrPatt (ensure_posm pos st))) as Hk.
    destruct (invoke _ _ _ _ _ _ _) as [[r1|e1|] st3]; try discriminate.
    inversion Hrun; subst. apply Hk.
    rewrite memo_get_probing, Nat.eqb_refl, key_eqb_refl. reflexivity. }
  split; [exact Hp|]. intros fuel' name'. apply run_on_probe. exact Hp.
Qed.

(** A rule that throws. *)
Definition throwing_rules (id pos : nat) : Proc :=
  PThrow (TypeError "x is not a function").

Lemma run_exception_leaves_probe_witness :
  memo_get fresh 0 (KFun (User 0)) = None /\
  let st' := snd (run memo_probe sp_x_scanner throwing_rules 1
                    (KFun (User 0)) 0 "start" fresh) in
  memo_get st' 0 (KFun (User 0)) = Some LEFT_RECUR /\
  forall fuel' name',
    run memo_probe sp_x_scanner throwing_rules fuel' (KFun (User 0)) 0 name' st' =
    (Err (Error ("Left recursion on rule: " ++ name')), st').
Proof.
  split; [reflexivity|].
  apply (run_exception_leaves_probe sp_x_scanner throwing_rules 1
           (KFun (User 0)) 0 "start" fresh _
           (TypeError "x is not a function")); reflexivity.
Defined.

Lemma run_keeps_results_witness :
  memo_get after_EOF_probe 1 K_COMMENT = Some (Res (1, VFail)) /\
  memo_get (snd (run memo_probe sp_x_scanner no_rules 1 (KStr "x") 0 "x"
                   after_EOF_probe)) 1 K_COMMENT
  = Some (Res (1, VFail)).
Proof.
  split; [reflexivity|].
  apply (run_keeps_results sp_x_scanner no_rules 1 (KStr "x") 0 "x"
           after_EOF_probe 1 K_COMMENT (1, VFail)).
  reflexivity.
Defined.

Lemma run_returns_without_probe_witness :
  (forall p k, memo_get fresh p k <> Some LEFT_RECUR) /\
  (forall p k, memo_get after_EOF_probe p k <> Some LEFT_RECUR).
Proof.
  assert (H : forall p k, memo_get fresh p k <> Some LEFT_RECUR)
    by (intros p k E; discriminate).
  split; [exact H|].
  apply (run_returns_without_probe sp_x_scanner no_rules 0
           (KFun (Builtin B_EOF)) 0 "EOF" fresh after_EOF_probe (1, VFail));
    [reflexivity | exact H].
Defined.

Lemma run_again_hits_witness :
  memo_get after_EOF_probe 0 (KFun (Builtin B_EOF)) = Some (Res (1, VFail)) /\
  forall fuel' name',
    run memo_probe sp_x_scanner no_rules fuel' (KFun (Builtin B_EOF)) 0 name'
      after_EOF_probe =
    (Ok (1, VFail),
     mkPackratter (_memo after_EOF_probe) (S (hits after_EOF_probe))
       (misses after_EOF_probe)).
Proof.
  apply (run_again_hits sp_x_scanner no_rules 0 (KFun (Builtin B_EOF)) 0 "EOF"
           fresh after_EOF_probe (1, VFail)).
  reflexivity.
Defined.

Lemma run_missing_rule_witness :
  memo_get fresh 3 KUndef = None /\
  exists st',
    run memo_probe sp_x_scanner no_rules 0 KUndef 3 "expr" fresh =
    (Err (Error ("Rule missing: " ++ "expr")), st') /\
    misses st' = S (misses fresh) /\ hits st' = hits fresh /\
    memo_get st' 3 KUndef = Some LEFT_RECUR /\
    forall fuel' name',
      run memo_probe sp_x_scanner no_rules fuel' KUndef 3 name' st' =
      (Err (Error ("Left recursion on rule: " ++ name')), st').
Proof.
  split; [reflexivity|].
  apply (run_missing_rule sp_x_scanner no_rules 0 3 "expr" fresh).
  reflexivity.
Defined.

(** ** The terminals of the scanner *)

(** X7.  [rule_EOF] succeeds exactly when nothing but white space and
    comments is left: it returns the [EOF] sentinel when every element from
    [pos] on is a token of white space or a comment, and [FAIL] when some
    other token or a hole marker is among them. *)
Theorem rule_EOF_iff_only_blanks
    (this : Scanner) (pos : nat) (st : Packratter) :
  comment_memo_ok this st ->
  exists p' v st',
    rule_EOF memo_probe this pos st = (Ok (p', v), st') /\
    (v = VEof \/ v = VFail) /\
    (v = VEof <->
     forall i e, pos <= i -> nth_error (toks this) i = Some e ->
                 is_blank e = true).
Proof.
  intros Hok.
  destruct (SKIP_loop_spec this (List.length (toks this)) pos st Hok)
    as (n & st' & Hrun & _ & Hbl & Hstop); [lia|].
  unfold rule_EOF, bind, rule_SKIP. rewrite Hrun. cbn [fst ret].
  eexists _, _, st'. split; [reflexivity|].
  destruct (Nat.leb_spec (List.length (toks this)) (pos + n)) as [Hge|Hlt].
  - split; [left; reflexivity|]. split; [|reflexivity].
    intros _ i e Hi He.
    assert (i < List.length (toks this)) by (apply nth_error_Some; congruence).
    destruct (Hbl (i - pos)) as (e' & He' & Hb); [lia|].
    replace (pos + (i - pos)) with i in He' by lia. congruence.
  - split; [right; reflexivity|]. split; [discriminate|].
    intros Hall. exfalso.
    destruct (nth_error (toks this) (pos + n)) as [e|] eqn:E.
    + rewrite <- E in Hstop. pose proof (Hall (pos + n) e ltac:(lia) E) as Hb.
      rewrite (Hstop e E) in Hb. discriminate.
    + apply nth_error_None in E. lia.
Qed.

Lemma rule_EOF_iff_only_blanks_witness :
  comment_memo_ok sp_x_scanner fresh /\
  exists p' v st',
    rule_EOF memo_probe sp_x_scanner 2 fresh = (Ok (p', v), st') /\
    (v = VEof \/ v = VFail) /\
    (v = VEof <->
     forall i e, 2 <= i -> nth_error (toks sp_x_scanner) i = Some e ->
                 is_blank e = true).
Proof.
  split; [intros p e H; discriminate|].
  apply (rule_EOF_iff_only_blanks sp_x_scanner 2 fresh).
  intros p e H; discriminate.
Defined.

Lemma rule_SKIP_at_hole (this : Scanner) (pos h : nat) (st : Packratter) :
  nth_error (toks this) pos = Some (Hole h) ->
  rule_SKIP memo_probe this pos st = (Ok (pos, VStr ""), st).
Proof.
  intros E. unfold rule_SKIP.
  assert (Hlt : pos < List.length (toks this))
    by (apply nth_error_Some; congruence).
  destruct (List.length (toks this)) as [|n] eqn:El; [lia|].
  cbn [SKIP_loop]. rewrite El.
  destruct (Nat.ltb_spec pos (S n)); [|lia]. rewrite E. reflexivity.
Qed.

(** X8.  A hole marker is taken by [rule_HOLE] and by nothing else: at a
    hole, [rule_HOLE] returns the hole number and steps over it, while
    [rule_SKIP] stays put, [skip] and [eat] fail for every pattern, and so
    do the number, string, identifier and end-of-input rules; none of them
    touches the parser. *)
Theorem hole_taken_by_rule_HOLE_only
    (this : Scanner) (pos h : nat) (st : Packratter) :
  nth_error (toks this) pos = Some (Hole h) ->
  rule_HOLE memo_probe this pos st = (Ok (pos + 1, VNum h), st) /\
  rule_SKIP memo_probe this pos st = (Ok (pos, VStr ""), st) /\
  (forall RE, skip this pos RE = (pos, VFail)) /\
  (forall patt0, eat memo_probe this pos patt0 st = (Ok (pos, VFail), st)) /\
  rule_NUMBER memo_probe this pos st = (Ok (pos, VFail), st) /\
  rule_STRING memo_probe this pos st = (Ok (pos, VFail), st) /\
  rule_IDENT memo_probe this pos st = (Ok (pos, VFail), st) /\
  rule_EOF memo_probe this pos st = (Ok (pos, VFail), st).
Proof.
  intros E.
  pose proof (rule_SKIP_at_hole this pos h st E) as Hskip.
  assert (Hlt : pos < List.length (toks this))
    by (apply nth_error_Some; congruence).
  assert (Heat : forall patt0,
             eat memo_probe this pos patt0 st = (Ok (pos, VFail), st)).
  { intros patt0. unfold eat, bind. rewrite Hskip. cbn [fst].
    destruct (Nat.ltb_spec pos (List.length (toks this))); [|lia].
    rewrite E. reflexivity. }
  split; [|split; [exact Hskip|split; [|split; [exact Heat|split;
    [apply Heat|split; [apply Heat|split]]]]]].
  - unfold rule_HOLE, bind. rewrite Hskip. cbn [fst].
    destruct (Nat.leb_spec (List.length (toks this)) pos); [lia|].
    rewrite E. reflexivity.
  - intros RE. unfold skip.
    destruct (Nat.ltb_spec pos (List.length (toks this))); [|lia].
    rewrite E. reflexivity.
  - unfold rule_IDENT, bind. rewrite Hskip. cbn [fst].
    destruct (Nat.leb_spec (List.length (toks this)) pos); [lia|].
    rewrite E. reflexivity.
  - unfold rule_EOF, bind. rewrite Hskip. cbn [fst ret].
    destruct (Nat.leb_spec (List.length (toks this)) pos); [lia|].
    reflexivity.
Qed.

(** The stream of [a], a hole, [b]. *)
Definition a_hole_b : Scanner :=
  mkScanner ["a"; "b"]%string [] []
    [Tok (mkToken "a" (mkPos 0 0 1)); Hole 0; Tok (mkToken "b" (mkPos 1 0 1))].

Example a_hole_b_built : new_Scanner ["a"; "b"]%string [] = Ok a_hole_b.
Proof. vm_compute; reflexivity. Qed.

Lemma hole_taken_by_rule_HOLE_only_witness :
  nth_error (toks a_hole_b) 1 = Some (Hole 0) /\
  rule_HOLE memo_probe a_hole_b 1 fresh = (Ok (1 + 1, VNum 0), fresh) /\
  (forall patt0, eat memo_probe a_hole_b 1 patt0 fresh = (Ok (1, VFail), fresh)).
Proof.
  split; [reflexivity|].
  pose proof (hole_taken_by_rule_HOLE_only a_hole_b 1 0 fresh eq_refl) as H.
  split; [apply H | apply H].
Defined.

Lemma set_has_In (x : string) (l : list string) :
  set_has x l = true <-> In x l.
Proof.
  unfold set_has. rewrite existsb_exists. split.
  - intros (y & Hy & E). apply String.eqb_eq in E. subst. exact Hy.
  - intros H. exists x. split; [exact H | apply String.eqb_refl].
Qed.

(** X9.  [rule_IDENT] never returns a reserved word: when it does not fail,
    its value is the text of the token just before the position it returns,
    that text matches all of the identifier expression, and it is not among
    the keywords of the scanner. *)
Theorem rule_IDENT_rejects_keywords
    (this : Scanner) (pos q : nat) (v : value) (st st' : Packratter) :
  comment_memo_ok this st ->
  rule_IDENT memo_probe this pos st = (Ok (q, v), st') ->
  v <> VFail ->
  exists p' token,
    q = p' + 1 /\ pos <= p' /\
    nth_error (toks this) p' = Some (Tok token) /\
    v = VStr (text token) /\
    test (allRE (PRe IDENT_RE)) (text token) = true /\
    ~ In (text token) (keywords this).
Proof.
  intros Hok Hrun Hv.
  destruct (rule_SKIP_bounds this pos st Hok) as (p' & st1 & Hskip & Hle & _ & _).
  unfold rule_IDENT, bind in Hrun. rewrite Hskip in Hrun. cbn [fst] in Hrun.
  destruct (List.length (toks this) <=? p');
    [inversion Hrun; subst; contradiction|].
  destruct (nth_error (toks this) p') as [[token|h]|] eqn:E;
    try (inversion Hrun; subst; contradiction).
  destruct (test (allRE (PRe IDENT_RE)) (text token)) eqn:Ht;
    [|inversion Hrun; subst; contradiction].
  destruct (set_has (text token) (keywords this)) eqn:Hk;
    [inversion Hrun; subst; contradiction|].
  simpl in Hrun. inversion Hrun; subst.
  exists p', token. repeat split; auto.
  intros Hin. apply set_has_In in Hin. congruence.
Qed.

(** The scanner of [if x] with the keyword [if]. *)
Definition if_x_scanner : Scanner :=
  mkScanner ["if x"%string] ["if"%string] []
    [Tok (mkToken "if" (mkPos 0 0 2)); Tok (mkToken " " (mkPos 0 2 3));
     Tok (mkToken "x" (mkPos 0 3 4))].

Example if_x_scanner_built :
  new_Scanner ["if x"%string] ["if"%string] = Ok if_x_scanner.
Proof. vm_compute; reflexivity. Qed.

Lemma rule_IDENT_rejects_keywords_witness :
  comment_memo_ok if_x_scanner fresh /\
  fst (rule_IDENT memo_probe if_x_scanner 0 fresh) = Ok (0, VFail) /\
  exists p' token,
    3 = p' + 1 /\ 1 <= p' /\
    nth_error (toks if_x_scanner) p' = Some (Tok token) /\
    VStr "x" = VStr (text token) /\
    test (allRE (PRe IDENT_RE)) (text token) = true /\
    ~ In (text token) (keywords if_x_scanner).
Proof.
  split; [intros p e H; discriminate|]. split; [vm_compute; reflexivity|].
  apply (rule_IDENT_rejects_keywords if_x_scanner 1 3 (VStr "x") fresh
           (snd (rule_IDENT memo_probe if_x_scanner 1 fresh))).
  - intros p e H; discriminate.
  - vm_compute; reflexivity.
  - discriminate.
Defined.

(** ** The constructor *)

Lemma set_add_In (x y : string) (l : list string) :
  In y (set_add x l) <-> y = x \/ In y l.
Proof.
  unfold set_add. destruct (set_has x l) eqn:E.
  - apply set_has_In in E. split; [auto|]. intros [->|H]; auto.
  - rewrite in_app_iff. simpl. split; [intros [H|[H|[]]] | intros [H|H]]; auto.
Qed.

Lemma set_add_NoDup (x : string) (l : list string) :
  NoDup l -> NoDup (set_add x l).
Proof.
  intros H. unfold set_add. destruct (set_has x l) eqn:E; [exact H|].
  assert (Hn : ~ In x l).
  { intros Hin. apply set_has_In in Hin. congruence. }
  clear E. induction H as [|a l Ha Hl IH]; simpl.
  - constructor; [intros [] | constructor].
  - constructor.
    + rewrite in_app_iff. simpl. intros [H|[H|[]]]; [contradiction|].
      subst. apply Hn. left; reflexivity.
    + apply IH. intros Hin. apply Hn. right. exact Hin.
Qed.

(** The two sets that the constructor fills from [tokenTypeList]. *)
Definition sort_token_types (tokenTypeList : list string)
    (acc : list string * list string) : list string * list string :=
  fold_left (fun acc tt =>
               if test (allRE (PRe IDENT_RE)) tt
               then (set_add tt (fst acc), snd acc)
               else (fst acc, set_add tt (snd acc)))
    tokenTypeList acc.

Lemma sort_token_types_spec (l : list string) :
  forall acc,
    NoDup (fst acc) -> NoDup (snd acc) ->
    let res := sort_token_types l acc in
    NoDup (fst res) /\ NoDup (snd res) /\
    (forall tt, In tt (fst res) <->
       In tt (fst acc) \/ (In tt l /\ test (allRE (PRe IDENT_RE)) tt = true)) /\
    (forall tt, In tt (snd res) <->
       In tt (snd acc) \/ (In tt l /\ test (allRE (PRe IDENT_RE)) tt = false)).
Proof.
  induction l as [|x l IH]; intros [ks os] Hk Ho; simpl in *.
  - repeat split; auto; intros [H|[[] _]]; exact H.
  - destruct (test (allRE (PRe IDENT_RE)) x) eqn:E.
    + destruct (IH (set_add x ks, os)) as (N1 & N2 & I1 & I2);
        [apply set_add_NoDup; exact Hk | exact Ho |].
      simpl in *. split; [exact N1|]. split; [exact N2|]. split.
      * intros tt. rewrite I1, set_add_In. split.
        -- intros [[->|H]|[H1 H2]]; auto.
        -- intros [H|[[->|H1] H2]]; auto.
      * intros tt. rewrite I2. split.
        -- intros [H|[H1 H2]]; auto.
        -- intros [H|[[->|H1] H2]]; auto. congruence.
    + destruct (IH (ks, set_add x os)) as (N1 & N2 & I1 & I2);
        [exact Hk | apply set_add_NoDup; exact Ho |].
      simpl in *. split; [exact N1|]. split; [exact N2|]. split.
      * intros tt. rewrite I1. split.
        -- intros [H|[H1 H2]]; auto.
        -- intros [H|[[->|H1] H2]]; auto. congruence.
      * intros tt. rewrite I2, set_add_In. split.
        -- intros [[->|H]|[H1 H2]]; auto.
        -- intros [H|[[->|H1] H2]]; auto.
Qed.

(** X10.  The constructor sorts the token types: a type that matches all of
    the identifier expression becomes a keyword, any other goes to
    [otherTokenTypes]; both sets hold each of their members once; the
    stream is the one [tokensInTemplate] returns for the token expression;
    and the constructor throws exactly when the lexer does. *)
Theorem new_Scanner_sorts_token_types
    (template : list string) (tokenTypeList : list string) :
  match new_Scanner template tokenTypeList with
  | Ok this =>
      tokensInTemplate template TOKEN_RE = Ok (toks this) /\
      NoDup (keywords this) /\ NoDup (otherTokenTypes this) /\
      (forall tt, In tt (keywords this) <->
         In tt tokenTypeList /\ test (allRE (PRe IDENT_RE)) tt = true) /\
      (forall tt, In tt (otherTokenTypes this) <->
         In tt tokenTypeList /\ test (allRE (PRe IDENT_RE)) tt = false)
  | Err e => tokensInTemplate template TOKEN_RE = Err e
  | Diverge => tokensInTemplate template TOKEN_RE = Diverge
  end.
Proof.
  unfold new_Scanner.
  destruct (tokensInTemplate template TOKEN_RE) as [stream|e|]; simpl;
    try reflexivity.
  destruct (sort_token_types_spec tokenTypeList ([], []))
    as (N1 & N2 & I1 & I2); [constructor | constructor |].
  unfold sort_token_types in *. simpl in *.
  split; [reflexivity|]. split; [exact N1|]. split; [exact N2|]. split.
  - intros tt. rewrite I1. split; [intros [[]|H]; exact H | auto].
  - intros tt. rewrite I2. split; [intros [[]|H]; exact H | auto].
Qed.

(** ** The expression kit *)

(** *** An expression inside a group *)

Lemma build_under (ts : list rtok) :
  forall upper bot f below lower rest,
    build_frames (upper ++ [bot]) ts = Some f ->
    build_frames (upper ++ (bot ++ below) :: lower) (ts ++ rest) =
    build lower (rev f ++ below) rest.
Proof.
  induction ts as [|t ts IH]; intros upper bot f below lower rest H.
  - destruct upper as [|cur [|par upper]]; simpl in H.
    + inversion H; subst. simpl. rewrite rev_involutive. reflexivity.
    + discriminate.
    + discriminate.
  - destruct upper as [|cur upper].
    + destruct t; simpl in H; try discriminate;
        try (apply (IH [] (RLeaf _ :: bot) f below lower rest); exact H).
      apply (IH [[]] bot f below lower rest). exact H.
    + destruct t; simpl in H;
        try (apply (IH ((RLeaf _ :: cur) :: upper) bot f below lower rest);
             exact H).
      * apply (IH ([] :: cur :: upper) bot f below lower rest). exact H.
      * destruct upper as [|par upper]; simpl in H.
        -- apply (IH [] (RNode (rev cur) :: bot) f below lower rest). exact H.
        -- apply (IH ((RNode (rev cur) :: par) :: upper) bot f below lower rest).
           exact H.
Qed.

Lemma item_of_node (ch : list rtree) :
  item_of (RNode ch) =
  match items_of ch with
  | Some its => group_of its
  | None => None
  end.
Proof.
  cbn [item_of].
  match goal with
  | |- match ?F ch with _ => _ end = _ =>
      assert (E : forall l, F l = items_of l)
  end.
  { induction l as [|x l IH]; [reflexivity|].
    cbn [items_of]. rewrite <- IH. reflexivity. }
  rewrite E. reflexivity.
Qed.

(** The tree of [(?:src)] for the trees [f] of [src]. *)
Definition ngroup_tree (f : list rtree) : rtree :=
  RNode (RLeaf TQuest :: RLeaf (TChar ":") :: f).

Lemma lex_ngroup (src rest : list ascii) (ts : list rtok) :
  lex_go LNormal src = Some ts ->
  lex_go LNormal ("("%char :: "?"%char :: ":"%char :: src ++ ")"%char :: rest) =
  option_map (app (TOpen :: TQuest :: TChar ":" :: ts ++ [TClose]))
    (lex_go LNormal rest).
Proof.
  intros H.
  change (lex_go LNormal ("("%char :: "?"%char :: ":"%char :: src ++ ")"%char :: rest))
    with (option_map (emit (Some TOpen))
            (option_map (emit (Some TQuest))
               (option_map (emit (Some (TChar ":")))
                  (lex_go LNormal (src ++ ")"%char :: rest))))).
  rewrite (lex_go_app src LNormal ts (")"%char :: rest) H).
  change (lex_go LNormal (")"%char :: rest))
    with (option_map (emit (Some TClose)) (lex_go LNormal rest)).
  destruct (lex_go LNormal rest) as [tr|]; [|reflexivity].
  simpl. rewrite <- app_assoc. reflexivity.
Qed.

Lemma build_ngroup (ts : list rtok) (f : list rtree)
    (stack : list (list rtree)) (cur : list rtree) (rest : list rtok) :
  build [] [] ts = Some f ->
  build stack cur (TOpen :: TQuest :: TChar ":" :: (ts ++ [TClose]) ++ rest) =
  build stack (ngroup_tree f :: cur) rest.
Proof.
  intros H. cbn [build]. rewrite <- app_assoc. cbn [app].
  pose proof (build_under ts [] [] f [RLeaf (TChar ":"); RLeaf TQuest]
                (cur :: stack) ([TClose] ++ rest) H) as E.
  cbn [app build_frames] in E. rewrite E. cbn [app build].
  rewrite rev_app_distr, rev_involutive. reflexivity.
Qed.

Lemma item_of_ngroup (f : list rtree) (its : list item) (r : re) :
  items_of f = Some its -> assemble its = Some r ->
  item_of (ngroup_tree f) = Some (IAtom (RNGroup r)).
Proof.
  intros Hi Ha. unfold ngroup_tree. rewrite item_of_node.
  cbn [items_of item_of]. rewrite Hi. cbn [group_of]. rewrite Ha. reflexivity.
Qed.

Lemma parse_stages (src : string) (r : re) :
  parse src = Some r ->
  exists ts f its,
    lex_go LNormal (chars src) = Some ts /\ build [] [] ts = Some f /\
    items_of f = Some its /\ assemble its = Some r.
Proof.
  unfold parse, parse_tokens, lex.
  destruct (lex_go LNormal (chars src)) as [ts|]; [|discriminate].
  destruct (build [] [] ts) as [f|] eqn:Hb; [|discriminate].
  destruct (items_of f) as [its|] eqn:Hi; [|discriminate].
  intros H. exists ts, f, its. repeat split; auto.
Qed.

(** The pattern of [allRE] on an expression: the pattern of the
    expression, as a unit, between the two anchors. *)
Lemma allRE_parse (R : RegExp) (r : re) :
  parse (source R) = Some r ->
  parse (source (allRE (PRe R))) = Some (RSeq RBol (RSeq (RNGroup r) REol)).
Proof.
  intros H. destruct (parse_stages _ _ H) as (ts & f & its & Hl & Hb & Hi & Ha).
  unfold allRE, re_tag, RegExp_new.
  cbn [re_parts patt_flags sub_of_patt re_subst String.append String.eqb source].
  unfold parse, lex.
  change (chars (String "^" (String "(" (String "?" (String ":"
            ((source R ++ ")") ++ "$")%string)))))
    with ("^"%char :: "("%char :: "?"%char :: ":"%char ::
          chars ((source R ++ ")") ++ "$")%string).
  rewrite !chars_app, <- app_assoc.
  change (chars ")" ++ chars "$") with (")"%char :: ["$"%char]).
  change (lex_go LNormal ("^"%char :: "("%char :: "?"%char :: ":"%char ::
            chars (source R) ++ [")"%char; "$"%char]))
    with (option_map (emit (Some TBol))
            (lex_go LNormal ("("%char :: "?"%char :: ":"%char ::
               chars (source R) ++ ")"%char :: ["$"%char]))).
  rewrite (lex_ngroup _ ["$"%char] ts Hl).
  change (lex_go LNormal ["$"%char]) with (Some [TEol]).
  cbn [option_map emit]. unfold parse_tokens.
  change (build [] [] (TBol :: (TOpen :: TQuest :: TChar ":" :: ts ++ [TClose]) ++ [TEol]))
    with (build [] [RLeaf TBol]
            (TOpen :: TQuest :: TChar ":" :: (ts ++ [TClose]) ++ [TEol])).
  rewrite (build_ngroup ts f [] [RLeaf TBol] [TEol] Hb).
  cbn [build rev app items_of].
  rewrite (item_of_ngroup f its r Hi Ha). cbn [item_of]. reflexivity.
Qed.

(** The pattern of [captureRE]: the pattern of the expression, as a unit,
    inside one capturing group. *)
Lemma captureRE_parse (R : RegExp) (r : re) :
  parse (source R) = Some r ->
  parse (source (captureRE R)) = Some (RGroup (RNGroup r)).
Proof.
  intros H. destruct (parse_stages _ _ H) as (ts & f & its & Hl & Hb & Hi & Ha).
  unfold captureRE, re_tag, RegExp_new.
  cbn [re_parts sub_of_patt re_subst String.append String.eqb source].
  unfold parse, lex.
  change (chars (String "(" (String "(" (String "?" (String ":"
            ((source R ++ ")") ++ ")")%string)))))
    with ("("%char :: "("%char :: "?"%char :: ":"%char ::
          chars ((source R ++ ")") ++ ")")%string).
  rewrite !chars_app, <- app_assoc.
  change (chars ")" ++ chars ")") with (")"%char :: [")"%char]).
  change (lex_go LNormal ("("%char :: "("%char :: "?"%char :: ":"%char ::
            chars (source R) ++ [")"%char; ")"%char]))
    with (option_map (emit (Some TOpen))
            (lex_go LNormal ("("%char :: "?"%char :: ":"%char ::
               chars (source R) ++ ")"%char :: [")"%char]))).
  rewrite (lex_ngroup _ [")"%char] ts Hl).
  change (lex_go LNormal [")"%char]) with (Some [TClose]).
  cbn [option_map emit]. unfold parse_tokens.
  change (build [] [] (TOpen :: (TOpen :: TQuest :: TChar ":" :: ts ++ [TClose]) ++ [TClose]))
    with (build [[]] []
            (TOpen :: TQuest :: TChar ":" :: (ts ++ [TClose]) ++ [TClose])).
  rewrite (build_ngroup ts f [[]] [] [TClose] Hb).
  cbn [build rev app items_of]. rewrite item_of_node.
  cbn [items_of]. rewrite (item_of_ngroup f its r Hi Ha).
  reflexivity.
Qed.

(** *** A weaker continuation *)

Lemma is_some_orelse_e (a b : option nat) :
  is_some (orelse_e a b) = is_some a || is_some b.
Proof. destruct a; reflexivity. Qed.

Section EndsMono.

Variables icase multi : bool.
Variable s : list ascii.

(** [k'] accepts wherever [k] does. *)
Definition weaker (k k' : econt) : Prop :=
  forall j, is_some (k j) = true -> is_some (k' j) = true.

Definition step_mono (step : nat -> econt -> option nat) : Prop :=
  forall i k k',
    weaker k k' -> is_some (step i k) = true -> is_some (step i k') = true.

Lemma one_char_e_mono (p : ascii -> bool) : step_mono (one_char_e s p).
Proof.
  intros i k k' Hk. unfold one_char_e.
  destruct (nth_error s i) as [x|]; [|auto]. destruct (p x); [apply Hk | auto].
Qed.

Lemma star_e_mono (step : nat -> econt -> option nat) (k k' : econt) :
  step_mono step -> weaker k k' ->
  forall n, weaker (star_e step k n) (star_e step k' n).
Proof.
  intros Hs Hk. induction n as [|n IH]; intros i; simpl.
  - apply Hk.
  - rewrite !is_some_orelse_e, !orb_true_iff. intros [H|H].
    + left. revert H. apply Hs. intros j. destruct (j =? i); [auto | apply IH].
    + right. apply Hk. exact H.
Qed.

Lemma rep_e_mono (step : nat -> econt -> option nat) (k k' : econt) :
  step_mono step -> weaker k k' ->
  forall n, weaker (rep_e step k n) (rep_e step k' n).
Proof.
  intros Hs Hk. induction n as [|n IH]; intros i; simpl.
  - apply Hk.
  - apply Hs. exact IH.
Qed.

Lemma me_mono (r : re) : step_mono (me icase multi s r).
Proof.
  induction r as [| ch | neg items | | | | a IHa b IHb | a IHa b IHb
                 | a IHa | a IHa | a IHa | n a IHa | a IHa | a IHa];
    intros i k k' Hk; cbn [me].
  - apply Hk.
  - apply one_char_e_mono. exact Hk.
  - apply one_char_e_mono. exact Hk.
  - apply one_char_e_mono. exact Hk.
  - destruct (at_bol multi s i); [apply Hk | auto].
  - destruct (at_eol multi s i); [apply Hk | auto].
  - apply IHa. intros j. apply IHb. exact Hk.
  - rewrite !is_some_orelse_e, !orb_true_iff.
    intros [H|H]; [left; revert H; apply IHa | right; revert H; apply IHb];
      exact Hk.
  - apply (star_e_mono _ k k' IHa Hk).
  - apply IHa. apply (star_e_mono _ k k' IHa Hk).
  - rewrite !is_some_orelse_e, !orb_true_iff. intros [H|H].
    + left. revert H. apply IHa. intros j. destruct (j =? i); [auto | apply Hk].
    + right. apply Hk. exact H.
  - apply (rep_e_mono _ k k' IHa Hk).
  - apply IHa. exact Hk.
  - apply IHa. exact Hk.
Qed.

End EndsMono.

Lemma is_some_match_at (icase multi : bool) (s : list ascii) (r : re)
    (i : nat) :
  is_some (match_at icase multi s r i) = is_some (match_end icase multi s r i).
Proof. rewrite <- match_at_end, is_some_oend. reflexivity. Qed.

(** A match of the anchored pattern is one of the pattern it anchors. *)
Lemma anchored_match_end (icase multi : bool) (s : list ascii) (r : re)
    (i : nat) :
  is_some (match_end icase multi s (RSeq RBol (RSeq (RNGroup r) REol)) i) = true ->
  is_some (match_end icase multi s r i) = true.
Proof.
  unfold match_end. cbn [me]. destruct (at_bol multi s i); [|discriminate].
  apply me_mono. intros j. destruct (at_eol multi s j); [auto | discriminate].
Qed.

Lemma search_sound (icase multi : bool) (s : list ascii) (r : re)
    (fuel : nat) :
  forall i0 i j c,
    search icase multi s r fuel i0 = Some (i, (j, c)) ->
    match_at icase multi s r i = Some (j, c) /\ i0 <= i <= i0 + fuel.
Proof.
  induction fuel as [|fuel IH]; intros i0 i j c; simpl;
    destruct (match_at icase multi s r i0) as [[j0 c0]|] eqn:E;
    try discriminate.
  - intros [= <- <- <-]. split; [exact E | lia].
  - intros [= <- <- <-]. split; [exact E | lia].
  - intros H. apply IH in H. destruct H as [H1 H2]. split; [exact H1 | lia].
Qed.

Lemma existsb_impl {A} (f g : A -> bool) (l : list A) :
  (forall x, f x = true -> g x = true) ->
  existsb f l = true -> existsb g l = true.
Proof.
  intros H. rewrite !existsb_exists. intros (x & Hx & Hf). eauto.
Qed.

(** The match that [exec] reports is a match of the pattern. *)
Lemma exec_found (R : RegExp) (r : re) (str0 : string) (li li' : nat)
    (arr : MatchArr) :
  parse (source R) = Some r ->
  exec R str0 li = (Some arr, li') ->
  exists j c,
    match_at (f_ignoreCase (flags R)) (f_multiline (flags R)) (chars str0) r
      (index arr) = Some (j, c) /\
    arr = mk_arr str0 r (index arr) j c /\
    li' = (if f_global (flags R) || f_sticky (flags R) then j else li).
Proof.
  intros Hp. unfold exec. rewrite Hp.
  destruct (List.length (chars str0) <? _); [discriminate|].
  destruct (f_sticky (flags R)).
  - destruct (match_at _ _ _ r _) as [[j c]|] eqn:E; [|discriminate].
    cbn [option_map]. intros [= <- <-]. exists j, c.
    cbn [mk_arr index]. repeat split. exact E.
  - destruct (search _ _ _ r _ _) as [[i [j c]]|] eqn:E; [|discriminate].
    intros [= <- <-]. apply search_sound in E. destruct E as [E _].
    exists j, c. cbn [mk_arr index]. repeat split. exact E.
Qed.

(** X11.  [allRE] must match the entire string: for an expression without
    the multiline flag, a match of [allRE(RE)] starts at offset 0 and its
    text is the whole subject. *)
Theorem allRE_matches_entire_string
    (R : RegExp) (r : re) (txt : string) (li li' : nat) (arr : MatchArr) :
  f_multiline (flags R) = false ->
  parse (source R) = Some r ->
  exec (allRE (PRe R)) txt li = (Some arr, li') ->
  index arr = 0 /\ hd_error (groups arr) = Some (Some txt).
Proof.
  intros Hm Hp He.
  destruct (exec_found _ _ _ _ _ _ (allRE_parse R r Hp) He)
    as (j & c & Hmatch & Harr & _).
  change (flags (allRE (PRe R))) with (flags R) in Hmatch. rewrite Hm in Hmatch.
  unfold match_at in Hmatch. cbn [m ngroups] in Hmatch.
  destruct (at_bol false (chars txt) (index arr)) eqn:Eb; [|discriminate].
  assert (Hi : index arr = 0).
  { unfold at_bol in Eb. destruct (index arr); [reflexivity | discriminate]. }
  apply (m_advances (f_ignoreCase (flags R)) false (chars txt) r) in Hmatch.
  destruct Hmatch as (j' & c' & (_ & _ & Hin) & Hk).
  destruct (at_eol false (chars txt) j') eqn:Ee; [|discriminate].
  inversion Hk; subst j' c'. clear Hk.
  unfold at_eol in Ee.
  destruct (nth_error (chars txt) j) eqn:En; [discriminate|].
  apply nth_error_None in En.
  assert (Hj : j = String.length txt).
  { rewrite Hi in Hin. rewrite <- length_chars. lia. }
  split; [exact Hi|]. rewrite Harr. cbn [mk_arr groups hd_error].
  rewrite Hi, Hj, slice_all. reflexivity.
Qed.

Lemma allRE_matches_entire_string_witness :
  f_multiline (flags IDENT_RE) = false /\
  index (mkMatchArr 0 [Some "ab"%string]) = 0 /\
  hd_error (groups (mkMatchArr 0 [Some "ab"%string])) = Some (Some "ab"%string).
Proof.
  split; [reflexivity|].
  apply (allRE_matches_entire_string IDENT_RE
           (RSeq (RSet false [CRange "a" "z"; CRange "A" "Z"; CChar "_"; CChar "$"])
                 (RStar (RSet false [CWord false; CChar "$"])))
           "ab" 0 0 (mkMatchArr 0 [Some "ab"%string])).
  - reflexivity.
  - vm_compute; reflexivity.
  - vm_compute; reflexivity.
Defined.

(** [test] as a search or, for a sticky expression, a match at offset 0. *)
Lemma test_some (R : RegExp) (r : re) (str0 : string) :
  parse (source R) = Some r ->
  test R str0 =
  if f_sticky (flags R)
  then is_some (match_end (f_ignoreCase (flags R)) (f_multiline (flags R))
                  (chars str0) r 0)
  else existsb
         (fun i => is_some (match_end (f_ignoreCase (flags R))
                              (f_multiline (flags R)) (chars str0) r i))
         (seq 0 (S (List.length (chars str0)))).
Proof.
  intros Hp. unfold test, exec. rewrite Hp.
  replace (List.length (chars str0) <?
           (if f_global (flags R) || f_sticky (flags R) then 0 else 0))
    with false by (destruct (_ || _); reflexivity).
  replace (if f_global (flags R) || f_sticky (flags R) then 0 else 0)
    with 0 by (destruct (_ || _); reflexivity).
  destruct (f_sticky (flags R)).
  - rewrite <- is_some_match_at.
    destruct (match_at _ _ _ r 0) as [[j c]|]; reflexivity.
  - rewrite Nat.sub_0_r, <- search_some.
    destruct (search _ _ _ r _ 0) as [[i [j c]]|]; reflexivity.
Qed.

(** X12.  A string that [allRE(RE)] accepts is one that [RE] accepts,
    whatever the flags. *)
Theorem allRE_accepts_only_what_RE_does
    (R : RegExp) (r : re) (txt : string) :
  parse (source R) = Some r ->
  test (allRE (PRe R)) txt = true -> test R txt = true.
Proof.
  intros Hp. rewrite (test_some _ _ txt (allRE_parse R r Hp)).
  rewrite (test_some _ _ txt Hp).
  change (flags (allRE (PRe R))) with (flags R).
  destruct (f_sticky (flags R)).
  - apply anchored_match_end.
  - apply existsb_impl. intros i. apply anchored_match_end.
Qed.

Lemma allRE_accepts_only_what_RE_does_witness :
  test (allRE (PRe NUMBER_RE)) "-12.5e3" = true /\
  test NUMBER_RE "-12.5e3" = true.
Proof.
  split; [vm_compute; reflexivity|].
  refine (allRE_accepts_only_what_RE_does NUMBER_RE
            (match parse (source NUMBER_RE) with Some r => r | None => REmpty end)
            "-12.5e3" _ _); vm_compute; reflexivity.
Defined.

(** *** The capture form *)

Lemma search_ends_ext (icase multi : bool) (s : list ascii) (r r' : re) :
  (forall i, oend (match_at icase multi s r' i) =
             oend (match_at icase multi s r i)) ->
  forall fuel i,
    option_map (fun x => (fst x, fst (snd x))) (search icase multi s r' fuel i) =
    option_map (fun x => (fst x, fst (snd x))) (search icase multi s r fuel i).
Proof.
  intros H. induction fuel as [|fuel IH]; intros i; simpl; specialize (H i);
    destruct (match_at icase multi s r' i) as [[j' c']|],
             (match_at icase multi s r i) as [[j c]|];
    simpl in H; try discriminate; try reflexivity.
  - inversion H; subst. reflexivity.
  - inversion H; subst. reflexivity.
  - apply IH.
Qed.

(** X13.  For an expression of the fragment that [parse] reads, which has
    no back reference, [captureRE(RE)] matches where [RE] does: on every
    subject and from every [lastIndex], both find a match or both find
    none, at the same offset, with the same text, and with the same
    [lastIndex] afterwards; and the first group of [captureRE(RE)] holds
    the text of the whole match.  The hypothesis is needed: the group that
    [captureRE] adds renumbers the groups of [RE], so an expression with a
    back reference refers to another group once wrapped, and matches
    otherwise. *)
Theorem captureRE_captures_whole_match
    (R : RegExp) (r : re) (txt : string) (li : nat) :
  parse (source R) = Some r ->
  snd (exec (captureRE R) txt li) = snd (exec R txt li) /\
  match fst (exec (captureRE R) txt li), fst (exec R txt li) with
  | Some a', Some a =>
      index a' = index a /\ hd_error (groups a') = hd_error (groups a) /\
      nth_error (groups a') 1 = hd_error (groups a')
  | None, None => True
  | _, _ => False
  end.
Proof.
  intros Hp. pose proof (captureRE_parse R r Hp) as Hp'.
  assert (Hends : forall i,
             oend (match_at (f_ignoreCase (flags R)) (f_multiline (flags R))
                     (chars txt) (RGroup (RNGroup r)) i) =
             oend (match_at (f_ignoreCase (flags R)) (f_multiline (flags R))
                     (chars txt) r i)).
  { intros i. rewrite !match_at_end. reflexivity. }
  unfold exec. rewrite Hp, Hp'.
  change (flags (captureRE R)) with (flags R).
  destruct (List.length (chars txt) <? _); [split; [reflexivity | exact I]|].
  destruct (f_sticky (flags R)).
  - set (start := if f_global (flags R) || true then li else 0).
    specialize (Hends start).
    destruct (match_at _ _ _ (RGroup (RNGroup r)) start) as [[j' c']|] eqn:E';
      destruct (match_at _ _ _ r start) as [[j c]|] eqn:E;
      simpl in Hends; try discriminate; cbn [option_map fst snd];
      [|split; [reflexivity | exact I]].
    inversion Hends; subst j'.
    apply match_at_group in E'. destruct E' as [_ Hg].
    split; [reflexivity|]. cbn [mk_arr index groups hd_error ngroups seq map nth_error].
    rewrite Hg. repeat split.
  - set (start := if f_global (flags R) || false then li else 0).
    pose proof (search_ends_ext _ _ _ _ _ Hends
                  (List.length (chars txt) - start) start) as Hs.
    destruct (search _ _ _ (RGroup (RNGroup r)) _ start) as [[i' [j' c']]|] eqn:E';
      destruct (search _ _ _ r _ start) as [[i [j c]]|] eqn:E;
      simpl in Hs; try discriminate; cbn [fst snd];
      [|split; [reflexivity | exact I]].
    inversion Hs; subst i' j'.
    apply search_sound in E'. destruct E' as [E' _].
    apply match_at_group in E'. destruct E' as [_ Hg].
    split; [reflexivity|]. cbn [mk_arr index groups hd_error ngroups seq map nth_error].
    rewrite Hg. repeat split.
Qed.

Lemma captureRE_captures_whole_match_witness :
  snd (exec (captureRE IDENT_RE) "a1 b" 0) = snd (exec IDENT_RE "a1 b" 0) /\
  match fst (exec (captureRE IDENT_RE) "a1 b" 0), fst (exec IDENT_RE "a1 b" 0) with
  | Some a', Some a =>
      index a' = index a /\ hd_error (groups a') = hd_error (groups a) /\
      nth_error (groups a') 1 = hd_error (groups a')
  | None, None => True
  | _, _ => False
  end.
Proof.
  refine (captureRE_captures_whole_match IDENT_RE
            (match parse (source IDENT_RE) with Some r => r | None => REmpty end)
            "a1 b" 0 _).
  vm_compute; reflexivity.
Defined.

(** *** The alternation *)

(** X14.  For expressions that are [plain], without flags and of the
    fragment that [parse] reads, which has no back reference, [anyRE] tries
    its arguments in order: at each offset of each subject, its match ends
    where the match of the first argument that matches there ends, and it
    has none where no argument has one; so it accepts a string exactly when
    one of the arguments does.  The hypothesis is needed: joined into one
    pattern, the groups of the later arguments are renumbered, so an
    argument with a back reference refers to another group and matches
    otherwise. *)
Theorem anyRE_takes_first_match (Rs : list RegExp) :
  Rs <> [] -> Forall plain Rs ->
  (exists r,
     parse (source (anyRE Rs)) = Some r /\
     forall s i,
       oend (match_at false false s r i) =
       first_end
         (map (fun R =>
                 match parse (source R) with
                 | Some rj => oend (match_at false false s rj i)
                 | None => None
                 end) Rs)) /\
  forall str0, test (anyRE Rs) str0 = existsb (fun R => test R str0) Rs.
Proof.
  intros Hne Hall. split.
  - destruct (anyRE_first_wins Rs Hne Hall) as (r & Hp & Hend).
    exists r. split; [exact Hp|]. intros s i.
    rewrite match_at_end, Hend. f_equal. apply map_ext. intros R.
    destruct (parse (source R)); [|reflexivity].
    rewrite match_at_end. reflexivity.
  - intros str0. apply anyRE_matches_any; assumption.
Qed.

Lemma anyRE_takes_first_match_witness :
  [NUMBER_RE; MULTI_OP] <> [] /\ Forall plain [NUMBER_RE; MULTI_OP] /\
  (exists r,
     parse (source (anyRE [NUMBER_RE; MULTI_OP])) = Some r /\
     forall s i,
       oend (match_at false false s r i) =
       first_end
         (map (fun R =>
                 match parse (source R) with
                 | Some rj => oend (match_at false false s rj i)
                 | None => None
                 end) [NUMBER_RE; MULTI_OP])) /\
  forall str0,
    test (anyRE [NUMBER_RE; MULTI_OP]) str0 =
    existsb (fun R => test R str0) [NUMBER_RE; MULTI_OP].
Proof.
  split; [discriminate|].
  assert (H : Forall plain [NUMBER_RE; MULTI_OP]).
  { repeat constructor; try discriminate; vm_compute; discriminate. }
  split; [exact H|].
  apply (anyRE_takes_first_match [NUMBER_RE; MULTI_OP]); [discriminate | exact H].
Defined.

(** X15.  The alternation of no expression at all is the empty pattern
    [(?:)], which matches every string, where an alternation without
    alternatives would match none. *)
Theorem anyRE_of_nothing_matches_everything (str0 : string) :
  source (anyRE []) = "(?:)"%string /\ test (anyRE []) str0 = true.
Proof.
  split; [reflexivity|].
  rewrite (test_some (anyRE []) (RNGroup REmpty) str0) by reflexivity.
  cbn [anyRE RegExp_new flags no_flags f_sticky f_ignoreCase f_multiline].
  reflexivity.
Qed.

(** *** The sticky form *)

(** X16.  The emulation of the sticky flag.  On an expression with
    neither the global nor the sticky flag, the emulated [exec] and the
    [exec] of the sticky form agree on every subject and from every
    [lastIndex], in what they return and in the [lastIndex] they leave.
    On a global expression they part: the sticky form exists, and the
    emulation throws, for naming the global flag twice. *)
Theorem sticky_emulation_agrees (RE : RegExp) :
  f_sticky (flags RE) = false ->
  exists Ry,
    stickyRE RE = Ok Ry /\
    if f_global (flags RE)
    then stickyREShim RE =
         Err (SyntaxError "Invalid flags supplied to RegExp constructor")
    else exists Rg,
           stickyREShim RE = Ok Rg /\
           forall str0 lastIndex,
             stickyExec Rg str0 lastIndex = exec Ry str0 lastIndex.
Proof.
  intros Hy. unfold stickyRE. rewrite Hy. eexists. split; [reflexivity|].
  destruct (f_global (flags RE)) eqn:Hg.
  - unfold stickyREShim. rewrite Hg. reflexivity.
  - eexists. split; [unfold stickyREShim; rewrite Hg; reflexivity|].
    intros str0 lastIndex. apply (stickyExec_is_sticky_exec RE).
    + exact Hy.
    + unfold stickyRE. rewrite Hy, Hg. reflexivity.
    + unfold stickyREShim. rewrite Hg, Hy. reflexivity.
Qed.

Lemma sticky_emulation_agrees_witness :
  f_sticky (flags IDENT_RE) = false /\
  exists Ry,
    stickyRE IDENT_RE = Ok Ry /\
    exists Rg,
      stickyREShim IDENT_RE = Ok Rg /\
      forall str0 lastIndex,
        stickyExec Rg str0 lastIndex = exec Ry str0 lastIndex.
Proof.
  split; [reflexivity|].
  apply (sticky_emulation_agrees IDENT_RE). reflexivity.
Defined.

(** *** A string as a pattern *)

Lemma m_literal_self (cs : list ascii) :
  forall pre g c k,
    m false false (pre ++ cs) (mk_seq (map RChar cs ++ [REol])) g
      (List.length pre) c k =
    k (List.length (pre ++ cs)) c.
Proof.
  induction cs as [|ch cs IH]; intros pre g c k.
  - cbn [map app mk_seq m]. unfold at_eol. rewrite app_nil_r.
    replace (nth_error pre (List.length pre)) with (@None ascii)
      by (symmetry; apply nth_error_None; lia).
    rewrite Nat.leb_refl. reflexivity.
  - cbn [map app]. rewrite mk_seq_cons by (destruct cs; discriminate).
    cbn [m]. unfold one_char.
    rewrite nth_error_app2, Nat.sub_diag by lia. cbn [nth_error].
    unfold canon. rewrite Ascii.eqb_refl.
    replace (pre ++ ch :: cs) with ((pre ++ [ch]) ++ cs)
      by (rewrite <- app_assoc; reflexivity).
    replace (S (List.length pre)) with (List.length (pre ++ [ch]))
      by (rewrite length_app; simpl; lia).
    apply IH.
Qed.

(** X17.  A string pattern in [allRE] accepts its own text and no other,
    whatever pattern characters the string holds. *)
Theorem allRE_of_string_is_equality (s txt : string) :
  test (allRE (PStr s)) txt = true <-> s = txt.
Proof.
  split; [apply test_allRE_str|]. intros <-.
  rewrite (test_some _ _ s (parse_allRE_str s)).
  cbn [allRE re_tag RegExp_new flags patt_flags no_flags f_sticky
       f_ignoreCase f_multiline].
  change (seq 0 (S (List.length (chars s))))
    with (0 :: seq 1 (List.length (chars s))).
  cbn [existsb]. rewrite <- is_some_match_at.
  unfold match_at, literal_re.
  rewrite mk_seq_cons by (destruct (chars s); discriminate).
  cbn [m at_bol ngroups].
  pose proof (fun g => m_literal_self (chars s) [] g []
                         (fun j c => Some (j, c))) as E.
  cbn [app List.length] in E. rewrite E. reflexivity.
Qed.

(** ** The lexer on an expression of the fragment *)

(** An expression that the model reads: its pattern is made of characters,
    escaped characters, the class escapes, classes, the dot, the two
    anchors, groups, capturing or not, alternatives, and the quantifiers
    [*], [+], [?] and [{n}].  A lookahead, a back reference, a word
    boundary, a lazy quantifier or [{n,m}] puts an expression outside.
    The host matches those too, and a lookahead can capture text that lies
    outside the match; [exec] here finds nothing for them.  What follows is
    therefore said of the expressions inside, where [exec] does what the
    host does. *)
Definition in_fragment (R : RegExp) : Prop := parse (source R) <> None.

(** *** Where the captures of a match lie *)

(** Every span of [c] lies between [lo] and [hi]. *)
Definition spans_in (lo hi : nat) (c : caps) : Prop :=
  Forall (fun p => lo <= fst (snd p) /\ fst (snd p) <= snd (snd p) /\
                   snd (snd p) <= hi) c.

Lemma spans_in_mono (lo hi hi' : nat) (c : caps) :
  hi <= hi' -> spans_in lo hi c -> spans_in lo hi' c.
Proof.
  intros Hle H. unfold spans_in in *. eapply Forall_impl; [|exact H].
  simpl. intros p (H1 & H2 & H3). repeat split; lia.
Qed.

Lemma spans_in_filter (lo hi : nat) (f : nat * (nat * nat) -> bool) (c : caps) :
  spans_in lo hi c -> spans_in lo hi (filter f c).
Proof.
  unfold spans_in. rewrite !Forall_forall. intros H p Hp.
  apply filter_In in Hp. apply H. tauto.
Qed.

Lemma spans_in_set_cap (lo hi g a b : nat) (c : caps) :
  lo <= a -> a <= b -> b <= hi ->
  spans_in lo hi c -> spans_in lo hi (set_cap g (a, b) c).
Proof.
  intros H1 H2 H3 H. unfold set_cap. constructor; [simpl; lia|].
  apply spans_in_filter. exact H.
Qed.

Lemma spans_in_get (lo hi g a b : nat) (c : caps) :
  spans_in lo hi c -> get_cap g c = Some (a, b) ->
  lo <= a /\ a <= b /\ b <= hi.
Proof.
  unfold spans_in, get_cap. rewrite Forall_forall. intros H Hg.
  destruct (find _ c) as [p|] eqn:E; [|discriminate].
  apply find_some in E. destruct E as [Hin _].
  specialize (H p Hin). simpl in Hg. inversion Hg as [Hp].
  rewrite Hp in H. exact H.
Qed.

Section Spans.

Variables icase multi : bool.
Variable s : list ascii.
Variable lo : nat.

(** A matching step that started at or after [lo] with captures inside
    [lo .. i] calls its continuation at some [j] at or after [i] with
    captures inside [lo .. j]. *)
Definition bounded (step : nat -> caps -> cont -> result) : Prop :=
  forall i c k res,
    step i c k = Some res -> lo <= i -> spans_in lo i c ->
    exists j c', i <= j /\ spans_in lo j c' /\ k j c' = Some res.

Lemma one_char_bounded (p : ascii -> bool) : bounded (one_char s p).
Proof.
  intros i c k res H Hlo Hc. unfold one_char in H.
  destruct (nth_error s i) as [x|]; [|discriminate].
  destruct (p x); [|discriminate].
  exists (S i), c. split; [lia|]. split; [|exact H].
  eapply spans_in_mono; [|exact Hc]. lia.
Qed.

Lemma star_bounded (step : nat -> caps -> cont -> result) :
  bounded step -> forall n, bounded (fun i c k => star_loop step k n i c).
Proof.
  intros Hstep. induction n as [|n IH]; intros i c k res H Hlo Hc; simpl in H.
  - exists i, c. auto.
  - unfold orelse in H. destruct (step i c _) as [res'|] eqn:E.
    + inversion H; subst res'; clear H.
      destruct (Hstep _ _ _ _ E Hlo Hc) as (j & c' & Hij & Hc' & Hk).
      destruct (j =? i); [discriminate|].
      assert (Hlo' : lo <= j) by lia.
      destruct (IH _ _ _ _ Hk Hlo' Hc') as (l & c'' & Hjl & Hc'' & Hk').
      exists l, c''. split; [lia|]. auto.
    + exists i, c. auto.
Qed.

Lemma rep_bounded (step : nat -> caps -> cont -> result) :
  bounded step -> forall n, bounded (fun i c k => rep_loop step k n i c).
Proof.
  intros Hstep. induction n as [|n IH]; intros i c k res H Hlo Hc; simpl in H.
  - exists i, c. auto.
  - destruct (Hstep _ _ _ _ H Hlo Hc) as (j & c' & Hij & Hc' & Hk).
    assert (Hlo' : lo <= j) by lia.
    destruct (IH _ _ _ _ Hk Hlo' Hc') as (l & c'' & Hjl & Hc'' & Hk').
    exists l, c''. split; [lia|]. auto.
Qed.

Lemma cleared_bounded (a : re) (g : nat) :
  bounded (fun i c k => m icase multi s a g i c k) ->
  bounded (fun i c k => m icase multi s a g i (clear_caps g (ngroups a) c) k).
Proof.
  intros Ha i c k res H Hlo Hc.
  apply (Ha _ _ _ _ H Hlo). apply spans_in_filter. exact Hc.
Qed.

Lemma m_bounded (r : re) :
  forall g, bounded (fun i c k => m icase multi s r g i c k).
Proof.
  induction r as [| ch | neg items | | | | a IHa b IHb | a IHa b IHb
                 | a IHa | a IHa | a IHa | n a IHa | a IHa | a IHa];
    intros g i c k res H Hlo Hc; cbn [m] in H.
  - exists i, c. auto.
  - exact (one_char_bounded _ _ _ _ _ H Hlo Hc).
  - exact (one_char_bounded _ _ _ _ _ H Hlo Hc).
  - exact (one_char_bounded _ _ _ _ _ H Hlo Hc).
  - destruct (at_bol multi s i); [|discriminate]. exists i, c. auto.
  - destruct (at_eol multi s i); [|discriminate]. exists i, c. auto.
  - destruct (IHa _ _ _ _ _ H Hlo Hc) as (j & c' & Hij & Hc' & H1).
    assert (Hlo' : lo <= j) by lia.
    destruct (IHb _ _ _ _ _ H1 Hlo' Hc') as (l & c'' & Hjl & Hc'' & H2).
    exists l, c''. split; [lia|]. auto.
  - unfold orelse in H.
    destruct (m icase multi s a g i c k) as [res'|] eqn:E.
    + inversion H; subst res'. exact (IHa _ _ _ _ _ E Hlo Hc).
    + exact (IHb _ _ _ _ _ H Hlo Hc).
  - exact (star_bounded _ (cleared_bounded a g (IHa g)) _ _ _ _ _ H Hlo Hc).
  - destruct (cleared_bounded a g (IHa g) _ _ _ _ H Hlo Hc)
      as (j & c' & Hij & Hc' & H1).
    assert (Hlo' : lo <= j) by lia.
    destruct (star_bounded _ (cleared_bounded a g (IHa g)) _ _ _ _ _ H1 Hlo' Hc')
      as (l & c'' & Hjl & Hc'' & H2).
    exists l, c''. split; [lia|]. auto.
  - unfold orelse in H.
    destruct (m icase multi s a g i _ _) as [res'|] eqn:E.
    + inversion H; subst res'.
      destruct (cleared_bounded a g (IHa g) _ _ _ _ E Hlo Hc)
        as (j & c' & Hij & Hc' & Hk).
      destruct (j =? i); [discriminate|]. exists j, c'. auto.
    + exists i, c. auto.
  - exact (rep_bounded _ (cleared_bounded a g (IHa g)) _ _ _ _ _ H Hlo Hc).
  - destruct (IHa _ _ _ _ _ H Hlo Hc) as (j & c' & Hij & Hc' & Hk).
    exists j, (set_cap g (i, j) c'). split; [exact Hij|]. split; [|exact Hk].
    apply spans_in_set_cap; auto.
  - exact (IHa _ _ _ _ _ H Hlo Hc).
Qed.

End Spans.

(** The captures of a match lie inside the match. *)
Lemma match_at_spans (icase multi : bool) (s : list ascii) (r : re)
    (i j : nat) (c : caps) :
  match_at icase multi s r i = Some (j, c) ->
  i <= j /\ (i <= List.length s -> j <= List.length s) /\ spans_in i j c.
Proof.
  intros H. pose proof H as H'. unfold match_at in H, H'.
  destruct (m_bounded icase multi s i r 1 _ _ _ _ H (le_n i) (Forall_nil _))
    as (j' & c' & Hij & Hc & Hk). inversion Hk; subst j' c'.
  apply (m_advances icase multi s r 1) in H'.
  destruct H' as (j' & c' & (_ & _ & Hin) & Hk'). inversion Hk'; subst j' c'.
  auto.
Qed.

(** What a sticky [exec] that matches returns. *)
Lemma exec_sticky_found (R : RegExp) (seg : string) (li li' : nat)
    (arr : MatchArr) :
  f_sticky (flags R) = true ->
  exec R seg li = (Some arr, li') ->
  exists r c,
    li <= String.length seg /\
    match_at (f_ignoreCase (flags R)) (f_multiline (flags R)) (chars seg) r li
    = Some (li', c) /\
    arr = mk_arr seg r li li' c.
Proof.
  intros Hy. unfold exec. rewrite Hy, orb_true_r.
  destruct (Nat.ltb_spec (List.length (chars seg)) li) as [|Hle]; [discriminate|].
  destruct (parse (source R)) as [r|]; [|discriminate].
  destruct (match_at _ _ _ r li) as [[j c]|] eqn:E; [|discriminate].
  cbn [option_map]. intros [= <- <-]. exists r, c.
  rewrite length_chars in Hle. auto.
Qed.

(** The first group of a sticky match lies inside the match, which lies
    inside the subject. *)
Lemma exec_sticky_first_group (R : RegExp) (seg : string) (li li' : nat)
    (arr : MatchArr) (text0 : string) :
  f_sticky (flags R) = true ->
  exec R seg li = (Some arr, li') ->
  nth 1 (groups arr) None = Some text0 ->
  exists a b,
    li <= a /\ a <= b /\ b <= li' /\ li' <= String.length seg /\
    text0 = slice seg a b.
Proof.
  intros Hy He Hn.
  destruct (exec_sticky_found R seg li li' arr Hy He) as (r & c & Hle & Hm & ->).
  apply match_at_spans in Hm. destruct Hm as (Hij & Hin & Hc).
  rewrite length_chars in Hin. specialize (Hin Hle).
  cbn [mk_arr groups nth] in Hn.
  destruct (ngroups r) as [|n]; [discriminate|].
  cbn [seq map nth] in Hn. unfold span_text in Hn.
  destruct (get_cap 1 c) as [[a b]|] eqn:Eg; [|discriminate].
  destruct (spans_in_get _ _ _ _ _ _ Hc Eg) as (H1 & H2 & H3).
  simpl in Hn. inversion Hn. exists a, b. repeat split; auto.
Qed.

(** *** The loop of [tokensInSegment] *)

Definition is_Ok {A} (o : outcome A) : bool :=
  match o with
  | Ok _ => true
  | _ => false
  end.

(** An iteration that leaves [lastIndex] where it was is repeated for
    ever: the loop returns nothing. *)
Lemma tokens_loop_stuck (RE : RegExp) (segnum : nat) (seg : string)
    (li : nat) (arr : MatchArr) :
  li < String.length seg ->
  exec RE seg li = (Some arr, li) ->
  forall fuel acc, is_Ok (tokens_loop fuel segnum seg RE li li acc) = false.
Proof.
  intros Hlt He. induction fuel as [|fuel IH]; intros acc; simpl;
    destruct (Nat.ltb_spec li (String.length seg)); try lia; [reflexivity|].
  rewrite He. destruct (nth 1 (groups arr) None) as [text0|]; [|reflexivity].
  destruct (negb (li =? li - String.length text0)); [reflexivity | apply IH].
Qed.

Lemma tokens_loop_sound (RE : RegExp) (segnum : nat) (seg : string) :
  f_sticky (flags RE) = true ->
  forall fuel li acc toks,
    li <= String.length seg ->
    tokens_loop fuel segnum seg RE li li acc = Ok toks ->
    exists rest,
      toks = acc ++ rest /\ tiles segnum seg li (String.length seg) rest.
Proof.
  intros Hy. induction fuel as [|fuel IH]; intros li acc toks Hle H; simpl in H;
    destruct (Nat.ltb_spec li (String.length seg)) as [Hlt|Hge];
    try discriminate;
    try (inversion H; subst; exists []; rewrite app_nil_r;
         split; [reflexivity | simpl; lia]).
  destruct (exec RE seg li) as [[arr|] li'] eqn:He; [|discriminate].
  destruct (nth 1 (groups arr) None) as [text0|] eqn:Hn; [|discriminate].
  destruct (exec_sticky_first_group RE seg li li' arr text0 Hy He Hn)
    as (a & b & H1 & H2 & H3 & H4 & ->).
  rewrite length_slice in H by lia.
  destruct (Nat.eqb_spec li (li' - (b - a))) as [Hchk|]; [|discriminate].
  simpl in H.
  assert (a = li /\ b = li') by lia. destruct H0 as [-> ->].
  destruct (Nat.eq_dec li' li) as [->|Hne].
  - pose proof (tokens_loop_stuck RE segnum seg li arr Hlt He fuel
                  (acc ++ [mkToken (slice seg li li) (mkPos segnum li li)])) as Hs.
    replace (li - (li - li)) with li in H by lia.
    rewrite H in Hs. discriminate.
  - replace (li' - (li' - li)) with li in H by lia.
    apply IH in H; [|lia]. destruct H as (rest & -> & Ht).
    exists (mkToken (slice seg li li') (mkPos segnum li li') :: rest).
    rewrite <- app_assoc. split; [reflexivity|].
    simpl. repeat split; auto. lia.
Qed.

Lemma stickyRE_sticky (RE RE' : RegExp) :
  stickyRE RE = Ok RE' -> f_sticky (flags RE') = true.
Proof.
  unfold stickyRE. destruct (f_sticky (flags RE)); [discriminate|].
  intros [= <-]. reflexivity.
Qed.

Lemma tokensInSegment_tiles (segnum : nat) (seg : string) (RE : RegExp)
    (toks : list Token) :
  tokensInSegment segnum seg RE = Ok toks ->
  tiles segnum seg 0 (String.length seg) toks.
Proof.
  unfold tokensInSegment. destruct (stickyRE RE) as [RE'| |] eqn:Hs;
    try discriminate. simpl. intros H.
  destruct (tokens_loop_sound RE' segnum seg (stickyRE_sticky _ _ Hs)
              _ 0 [] toks (Nat.le_0_l _) H) as (rest & -> & Ht).
  exact Ht.
Qed.

(** X18.  For an expression of the fragment, which has no lookahead and
    no back reference, the tokens that [tokensInSegment] returns cover the
    segment: the first starts at offset 0, each further one where the one
    before it ended, the last ends at the end of the segment, none is
    empty, each carries the segment number and the text of its span, and
    the texts put together are the segment.  Inside the fragment the first
    group of a match lies inside the match, which is what the proof rests
    on; outside it, a group captured by a lookahead need not. *)
Theorem tokensInSegment_covers_segment
    (segnum : nat) (seg : string) (RE : RegExp) (toks : list Token) :
  in_fragment RE ->
  tokensInSegment segnum seg RE = Ok toks ->
  tiles segnum seg 0 (String.length seg) toks /\
  contiguous 0 toks /\
  concat_text toks = seg.
Proof.
  intros _ H. apply tokensInSegment_tiles in H.
  split; [exact H|]. split; [eapply tiles_contiguous; exact H|].
  rewrite (tiles_concat _ _ _ _ _ H). apply slice_all.
Qed.

Lemma tokensInSegment_covers_segment_witness :
  in_fragment (captureRE (anyRE [IDENT_RE; SINGLE_OP])) /\
  tokensInSegment 2 "f(x)" (captureRE (anyRE [IDENT_RE; SINGLE_OP])) =
  Ok [mkToken "f" (mkPos 2 0 1); mkToken "(" (mkPos 2 1 2);
      mkToken "x" (mkPos 2 2 3); mkToken ")" (mkPos 2 3 4)] /\
  concat_text [mkToken "f" (mkPos 2 0 1); mkToken "(" (mkPos 2 1 2);
               mkToken "x" (mkPos 2 2 3); mkToken ")" (mkPos 2 3 4)]
  = "f(x)"%string.
Proof.
  assert (H : tokensInSegment 2 "f(x)" (captureRE (anyRE [IDENT_RE; SINGLE_OP])) =
              Ok [mkToken "f" (mkPos 2 0 1); mkToken "(" (mkPos 2 1 2);
                  mkToken "x" (mkPos 2 2 3); mkToken ")" (mkPos 2 3 4)])
    by (vm_compute; reflexivity).
  assert (F : in_fragment (captureRE (anyRE [IDENT_RE; SINGLE_OP])))
    by (unfold in_fragment; vm_compute; discriminate).
  split; [exact F|]. split; [exact H|].
  apply (tokensInSegment_covers_segment 2 "f(x)" _ _ F H).
Defined.

(** *** What the lexer throws *)

Lemma tokens_loop_unexpected (RE : RegExp) (segnum : nat) (seg : string) :
  f_sticky (flags RE) = true ->
  forall fuel li ex acc msg,
    tokens_loop fuel segnum seg RE li ex acc = Err (SyntaxError msg) ->
    msg = ("Unexpected: " ++
           Token_toString (mkToken seg (mkPos segnum 0 (String.length seg))))%string.
Proof.
  intros Hy. induction fuel as [|fuel IH]; intros li ex acc msg H; simpl in H;
    destruct (li <? String.length seg); try discriminate.
  destruct (exec RE seg li) as [[arr|] li'] eqn:He.
  - destruct (nth 1 (groups arr) None) as [text0|]; [|discriminate].
    destruct (negb (ex =? li' - String.length text0)); [discriminate|].
    eapply IH. exact H.
  - pose proof (exec_sticky_null RE seg li Hy) as H0. rewrite He in H0.
    simpl in H0. rewrite (H0 eq_refl) in H. rewrite slice_from_0 in H.
    inversion H. reflexivity.
Qed.

(** X19.  Every syntax error of [tokensInSegment] names the whole segment:
    when no token is found at some offset, the token in the message is the
    segment from offset 0, at [#segmentNum@0:length], wherever the lexer
    stopped; the one other syntax error is that of a sticky argument. *)
Theorem tokensInSegment_syntax_error
    (segnum : nat) (seg : string) (RE : RegExp) (msg : string) :
  tokensInSegment segnum seg RE = Err (SyntaxError msg) ->
  (f_sticky (flags RE) = true /\
   msg = "Invalid flags supplied to RegExp constructor"%string) \/
  (f_sticky (flags RE) = false /\
   msg = ("Unexpected: " ++ JSON_stringify seg ++ " at #" ++
          string_of_nat segnum ++ "@0:" ++
          string_of_nat (String.length seg))%string).
Proof.
  unfold tokensInSegment, stickyRE.
  destruct (f_sticky (flags RE)) eqn:Hy; simpl.
  - intros [= <-]. left. auto.
  - intros H. right. split; [reflexivity|].
    apply tokens_loop_unexpected in H; [|reflexivity]. exact H.
Qed.

Lemma tokensInSegment_syntax_error_witness :
  tokensInSegment 1 "a ?" (captureRE IDENT_RE) =
  Err (SyntaxError ("Unexpected: " ++ dqs ++ "a ?" ++ dqs ++ " at #1@0:3")) /\
  ((f_sticky (flags (captureRE IDENT_RE)) = true /\
    ("Unexpected: " ++ dqs ++ "a ?" ++ dqs ++ " at #1@0:3")%string =
    "Invalid flags supplied to RegExp constructor"%string) \/
   (f_sticky (flags (captureRE IDENT_RE)) = false /\
    ("Unexpected: " ++ dqs ++ "a ?" ++ dqs ++ " at #1@0:3")%string =
    ("Unexpected: " ++ JSON_stringify "a ?" ++ " at #" ++
     string_of_nat 1 ++ "@0:" ++ string_of_nat (String.length "a ?"))%string)).
Proof.
  assert (H : tokensInSegment 1 "a ?" (captureRE IDENT_RE) =
              Err (SyntaxError
                     ("Unexpected: " ++ dqs ++ "a ?" ++ dqs ++ " at #1@0:3")))
    by (vm_compute; reflexivity).
  split; [exact H|].
  apply (tokensInSegment_syntax_error 1 "a ?" (captureRE IDENT_RE) _ H).
Defined.

(** *** The template *)

(** The texts of a stream, segment by segment: the text before the first
    hole marker, and the texts after each marker. *)
Fixpoint unlex (l : list element) : string * list string :=
  match l with
  | [] => (EmptyString, [])
  | Tok t :: l' => let (s, r) := unlex l' in ((text t ++ s)%string, r)
  | Hole _ :: l' => let (s, r) := unlex l' in (EmptyString, s :: r)
  end.

Definition segments_of (l : list element) : list string :=
  let (s, r) := unlex l in s :: r.

Lemma unlex_toks (ts : list Token) (l : list element) :
  unlex (map Tok ts ++ l) =
  ((concat_text ts ++ fst (unlex l))%string, snd (unlex l)).
Proof.
  induction ts as [|t ts IH]; simpl.
  - destruct (unlex l); reflexivity.
  - rewrite IH. simpl.
    assert (E : forall a b c : string, (a ++ b ++ c = (a ++ b) ++ c)%string).
    { induction a; simpl; intros; [reflexivity | f_equal; auto]. }
    rewrite E. reflexivity.
Qed.

Lemma append_empty (s : string) : (s ++ "")%string = s.
Proof. induction s; simpl; [reflexivity | f_equal; assumption]. Qed.

Lemma segments_of_weave (tss : list (list Token)) :
  forall segnum, tss <> [] ->
    segments_of (weave segnum tss) = map concat_text tss.
Proof.
  induction tss as [|ts rest IH]; intros segnum Hne; [contradiction|].
  unfold segments_of in *. cbn [weave]. rewrite unlex_toks.
  destruct rest as [|ts' rest].
  - simpl. rewrite append_empty. reflexivity.
  - cbn [app unlex].
    specialize (IH (S segnum) ltac:(discriminate)).
    destruct (unlex (weave (S segnum) (ts' :: rest))) as [s r].
    cbn [fst snd]. rewrite append_empty. cbn [map] in *. rewrite <- IH.
    reflexivity.
Qed.

Lemma In_weave (tss : list (list Token)) (t : Token) :
  forall segnum,
    In (Tok t) (weave segnum tss) ->
    exists k, k < List.length tss /\ In t (nth k tss []).
Proof.
  induction tss as [|ts rest IH]; intros segnum H; simpl in H; [contradiction|].
  apply in_app_or in H. destruct H as [H|H].
  - apply in_map_iff in H. destruct H as (t' & [= ->] & H).
    exists 0. split; [simpl; lia | exact H].
  - apply in_app_or in H. destruct H as [H|H].
    + destruct rest; simpl in H; [contradiction|].
      destruct H as [H|[]]. discriminate.
    + apply IH in H. destruct H as (k & Hk & H).
      exists (S k). split; [simpl; lia | exact H].
Qed.

Lemma tiles_In (segnum : nat) (seg : string) (ts : list Token) (t : Token) :
  forall from to,
    tiles segnum seg from to ts -> In t ts ->
    segmentNum (pos t) = segnum /\ after (pos t) <= to /\
    text t = slice seg (start (pos t)) (after (pos t)).
Proof.
  induction ts as [|t0 ts IH]; intros from to H Hin; [contradiction|].
  simpl in H. destruct H as (Hp & Hlt & Ht & H).
  destruct Hin as [->|Hin].
  - rewrite Hp. simpl. split; [reflexivity|]. split; [|].
    + apply tiles_le in H. rewrite Hp in H. simpl in H. exact H.
    + rewrite Ht, Hp. reflexivity.
  - apply (IH _ _ H Hin).
Qed.

Lemma segments_of_tokensInTemplate
    (template : list string) (RE : RegExp) (stream : list element) :
  template <> [] ->
  tokensInTemplate template RE = Ok stream ->
  segments_of stream = template.
Proof.
  intros Hne H. unfold tokensInTemplate in H.
  destruct (template_loop_weave _ _ _ _ H) as (tss & Hlen & Hseg & ->).
  rewrite segments_of_weave by (destruct tss, template; simpl in *; congruence).
  apply nth_error_ext. intros k. rewrite nth_error_map.
  destruct (nth_error template k) as [seg|] eqn:E.
  - assert (Hk : k < List.length tss).
    { rewrite Hlen. apply nth_error_Some. congruence. }
    specialize (Hseg k seg E). simpl in Hseg.
    apply tokensInSegment_tiles in Hseg.
    rewrite (nth_error_nth' tss [] Hk). simpl.
    rewrite (tiles_concat _ _ _ _ _ Hseg), slice_all. reflexivity.
  - apply nth_error_None in E. rewrite <- Hlen in E.
    apply nth_error_None in E. rewrite E. reflexivity.
Qed.

(** X20.  The stream holds the template: for a template of at least one
    segment and an expression of the fragment, which has no lookahead and
    no back reference, when [tokensInTemplate] returns a stream, the texts
    of its tokens, put together between the hole markers, are the segments
    of the template, in order, and each token lies in the segment whose
    number it carries. *)
Theorem tokensInTemplate_round_trip
    (template : list string) (RE : RegExp) (stream : list element) :
  in_fragment RE ->
  template <> [] ->
  tokensInTemplate template RE = Ok stream ->
  segments_of stream = template /\
  forall t, In (Tok t) stream ->
    exists seg, nth_error template (segmentNum (pos t)) = Some seg /\
                after (pos t) <= String.length seg /\
                text t = slice seg (start (pos t)) (after (pos t)).
Proof.
  intros _ Hne H. split; [exact (segments_of_tokensInTemplate _ _ _ Hne H)|].
  unfold tokensInTemplate in H.
  destruct (template_loop_weave _ _ _ _ H) as (tss & Hlen & Hseg & ->).
  intros t Hin. apply In_weave in Hin. destruct Hin as (k & Hk & Hin).
  destruct (nth_error template k) as [seg|] eqn:E.
  2:{ apply nth_error_None in E. lia. }
  specialize (Hseg k seg E). simpl in Hseg.
  apply tokensInSegment_tiles in Hseg.
  destruct (tiles_In _ _ _ _ _ _ Hseg Hin) as (Hp & Ha & Ht).
  rewrite Hp. exists seg. auto.
Qed.

Lemma tokensInTemplate_round_trip_witness :
  in_fragment TOKEN_RE /\
  three_segments <> [] /\
  tokensInTemplate three_segments TOKEN_RE = Ok three_segments_stream /\
  segments_of three_segments_stream = three_segments /\
  forall t, In (Tok t) three_segments_stream ->
    exists seg, nth_error three_segments (segmentNum (pos t)) = Some seg /\
                after (pos t) <= String.length seg /\
                text t = slice seg (start (pos t)) (after (pos t)).
Proof.
  assert (F : in_fragment TOKEN_RE)
    by (unfold in_fragment; vm_compute; discriminate).
  split; [exact F|]. split; [discriminate|].
  assert (H : tokensInTemplate three_segments TOKEN_RE = Ok three_segments_stream)
    by (vm_compute; reflexivity).
  split; [exact H|].
  apply (tokensInTemplate_round_trip three_segments TOKEN_RE);
    [exact F | discriminate | exact H].
Defined.

Lemma template_loop_error (segs : list string) (RE : RegExp) (e : error) :
  forall segnum,
    template_loop segnum segs RE = Err e <->
    exists k seg,
      nth_error segs k = Some seg /\
      tokensInSegment (segnum + k) seg RE = Err e /\
      forall k' seg', k' < k -> nth_error segs k' = Some seg' ->
        is_Ok (tokensInSegment (segnum + k') seg' RE) = true.
Proof.
  induction segs as [|seg rest IH]; intros segnum; cbn [template_loop].
  - split; [discriminate|]. intros (k & seg & E & _). destruct k; discriminate.
  - destruct (tokensInSegment segnum seg RE) as [ts|e'|] eqn:Ets; cbn [obind].
    + assert (Hshift :
        (exists k seg',
           nth_error (seg :: rest) k = Some seg' /\
           tokensInSegment (segnum + k) seg' RE = Err e /\
           forall k' s', k' < k -> nth_error (seg :: rest) k' = Some s' ->
             is_Ok (tokensInSegment (segnum + k') s' RE) = true) <->
        (exists k seg',
           nth_error rest k = Some seg' /\
           tokensInSegment (S segnum + k) seg' RE = Err e /\
           forall k' s', k' < k -> nth_error rest k' = Some s' ->
             is_Ok (tokensInSegment (S segnum + k') s' RE) = true)).
      { split.
        - intros (k & s' & E & He & Hb). destruct k as [|k].
          + inversion E; subst. rewrite Nat.add_0_r in He. congruence.
          + exists k, s'. replace (S segnum + k) with (segnum + S k) by lia.
            split; [exact E|]. split; [exact He|]. intros k' s'' Hk' E'.
            replace (S segnum + k') with (segnum + S k') by lia.
            apply Hb; [lia | exact E'].
        - intros (k & s' & E & He & Hb). exists (S k), s'.
          replace (segnum + S k) with (S segnum + k) by lia.
          split; [exact E|]. split; [exact He|]. intros [|k'] s'' Hk' E'.
          + inversion E'; subst. rewrite Nat.add_0_r, Ets. reflexivity.
          + replace (segnum + S k') with (S segnum + k') by lia.
            apply Hb; [lia | exact E']. }
      rewrite Hshift, <- IH.
      destruct (template_loop (S segnum) rest RE); cbn [obind];
        split; congruence.
    + split.
      * intros [= ->]. exists 0, seg. rewrite Nat.add_0_r.
        split; [reflexivity|]. split; [exact Ets|]. intros k' s' Hk'. lia.
      * intros (k & seg' & E & He & Hbefore). destruct k as [|k].
        -- inversion E; subst. rewrite Nat.add_0_r in He. congruence.
        -- specialize (Hbefore 0 seg ltac:(lia) eq_refl).
           rewrite Nat.add_0_r, Ets in Hbefore. discriminate.
    + split; [discriminate|].
      intros (k & seg' & E & He & Hbefore). destruct k as [|k].
      * inversion E; subst. rewrite Nat.add_0_r in He. congruence.
      * specialize (Hbefore 0 seg ltac:(lia) eq_refl).
        rewrite Nat.add_0_r, Ets in Hbefore. discriminate.
Qed.

(** X21.  [tokensInTemplate] throws what the first segment that does not
    tokenize throws: it ends with an error exactly when some segment ends
    with that error and every segment before it tokenizes. *)
Theorem tokensInTemplate_first_error
    (template : list string) (RE : RegExp) (e : error) :
  tokensInTemplate template RE = Err e <->
  exists k seg,
    nth_error template k = Some seg /\
    tokensInSegment k seg RE = Err e /\
    forall k' seg', k' < k -> nth_error template k' = Some seg' ->
      is_Ok (tokensInSegment k' seg' RE) = true.
Proof. apply (template_loop_error template RE e 0). Qed.

(** ** The terminals and the table *)

Lemma rule_SKIP_value (this : Scanner) (pos : nat) (st1 st2 : Packratter) :
  comment_memo_ok this st1 -> comment_memo_ok this st2 ->
  exists p' st1' st2',
    rule_SKIP memo_probe this pos st1 = (Ok (p', VStr ""), st1') /\
    rule_SKIP memo_probe this pos st2 = (Ok (p', VStr ""), st2').
Proof.
  intros H1 H2. unfold rule_SKIP.
  destruct (SKIP_loop_spec this (List.length (toks this)) pos st1 H1)
    as (n1 & st1' & R1 & _ & B1 & S1); [lia|].
  destruct (SKIP_loop_spec this (List.length (toks this)) pos st2 H2)
    as (n2 & st2' & R2 & _ & B2 & S2); [lia|].
  assert (n1 = n2).
  { destruct (Nat.lt_trichotomy n1 n2) as [Hlt|[Heq|Hgt]]; [|exact Heq|].
    - destruct (B2 n1 Hlt) as (e & He & Hb). rewrite (S1 e He) in Hb.
      discriminate.
    - destruct (B1 n2 Hgt) as (e & He & Hb). rewrite (S2 e He) in Hb.
      discriminate. }
  subst n2. exists (pos + n1), st1', st2'. auto.
Qed.

(** X22.  What a terminal returns is a matter of the token stream alone:
    from any two parsers whose stored comment results are those of
    [rule_COMMENT], as they are in a fresh parser and after every [run],
    each method of the scanner and [eat] with each pattern return the same
    pair, whatever else the two tables hold. *)
Theorem terminals_ignore_the_table
    (this : Scanner) (pos : nat) (st1 st2 : Packratter) :
  comment_memo_ok this st1 -> comment_memo_ok this st2 ->
  (forall b, fst (call_builtin memo_probe this b pos st1) =
             fst (call_builtin memo_probe this b pos st2)) /\
  (forall patt0, fst (eat memo_probe this pos patt0 st1) =
                 fst (eat memo_probe this pos patt0 st2)).
Proof.
  intros H1 H2.
  destruct (rule_SKIP_value this pos st1 st2 H1 H2) as (p' & st1' & st2' & R1 & R2).
  assert (Heat : forall patt0, fst (eat memo_probe this pos patt0 st1) =
                               fst (eat memo_probe this pos patt0 st2)).
  { intros patt0. unfold eat, bind. rewrite R1, R2. cbn [fst].
    destruct (p' <? _); [|reflexivity].
    destruct (nth_error _ _) as [[token|h]|]; try reflexivity.
    destruct (eat_matches _ _); reflexivity. }
  split; [|exact Heat].
  intros [| | | | | | |]; cbn [call_builtin]; try reflexivity;
    try (rewrite R1, R2; reflexivity); try apply Heat.
  - unfold rule_IDENT, bind. rewrite R1, R2. cbn [fst].
    destruct (_ <=? p'); [reflexivity|].
    destruct (nth_error _ _) as [[token|h]|]; try reflexivity.
    destruct (_ && _); reflexivity.
  - unfold rule_HOLE, bind. rewrite R1, R2. cbn [fst].
    destruct (_ <=? p'); [reflexivity|].
    destruct (nth_error _ _) as [[token|h]|]; reflexivity.
  - unfold rule_EOF, bind. rewrite R1, R2. reflexivity.
Qed.

Lemma terminals_ignore_the_table_witness :
  comment_memo_ok sp_x_scanner fresh /\
  comment_memo_ok sp_x_scanner after_EOF_probe /\
  (forall b, fst (call_builtin memo_probe sp_x_scanner b 0 fresh) =
             fst (call_builtin memo_probe sp_x_scanner b 0 after_EOF_probe)) /\
  (forall patt0, fst (eat memo_probe sp_x_scanner 0 patt0 fresh) =
                 fst (eat memo_probe sp_x_scanner 0 patt0 after_EOF_probe)).
Proof.
  assert (H1 : comment_memo_ok sp_x_scanner fresh)
    by (intros p e H; discriminate).
  assert (H2 : comment_memo_ok sp_x_scanner after_EOF_probe).
  { apply (run_keeps_comment_memo_ok memo_probe sp_x_scanner no_rules 0
             (KFun (Builtin B_EOF)) 0 "EOF" fresh H1). }
  split; [exact H1|]. split; [exact H2|].
  apply (terminals_ignore_the_table sp_x_scanner 0 fresh after_EOF_probe H1 H2).
Defined.

(** X23.  The comment results in the table are right, and stay so: when
    every result stored under [rule_COMMENT] is what [rule_COMMENT] returns
    at that position, as in a fresh parser, it is so again after [run],
    whatever was asked and however it ended. *)
Theorem run_keeps_comment_results
    (this : Scanner) (rules : nat -> nat -> Proc) (fuel : nat)
    (ruleOrPatt : key) (pos : nat) (name : string) (st : Packratter) :
  comment_memo_ok this st ->
  comment_memo_ok this
    (snd (run memo_probe this rules fuel ruleOrPatt pos name st)).
Proof. apply run_keeps_comment_memo_ok. Qed.

Lemma run_keeps_comment_results_witness :
  comment_memo_ok x_x_scanner fresh /\
  comment_memo_ok x_x_scanner
    (snd (run memo_probe x_x_scanner left_recursive_rules 2
            (KFun (User 0)) 0 "expr" fresh)).
Proof.
  assert (H : comment_memo_ok x_x_scanner fresh)
    by (intros p e E; discriminate).
  split; [exact H|].
  apply (run_keeps_comment_results x_x_scanner left_recursive_rules 2
           (KFun (User 0)) 0 "expr" fresh H).
Defined.

(** ** The error report *)

(** [${this.toks[i]}] *)
Definition element_toString (o : option element) : string :=
  match o with
  | Some (Tok t) => Token_toString t
  | Some (Hole n) => string_of_nat n
  | None => "undefined"
  end.

(** [Scanner.syntaxError], which always throws: the error it throws.  The
    template it logs first is left out. *)
Definition syntaxError (this : Scanner) (st : Packratter) : error :=
  let (last, fails) := lastFailures st in
  let tokStr :=
    if last <? List.length (toks this)
    then ("At " ++ element_toString (nth_error (toks this) last))%string
    else ("Unexpected EOF after " ++
          element_toString
            (match List.length (toks this) with
             | 0 => None
             | S n => nth_error (toks this) n
             end))%string in
  let failStr :=
    if List.length fails =? 0 then "stuck"%string
    else ("looking for " ++ join " " fails)%string in
  SyntaxError (tokStr ++ " " ++ failStr).

(** The position that [lastFailures] returns is 0 or comes with a
    name. *)
Lemma lastFailures_step_named (acc : nat * list string) (kv : key * entry) :
  fst acc = 0 \/ snd acc <> [] ->
  fst (lastFailures_step acc kv) = 0 \/ snd (lastFailures_step acc kv) <> [].
Proof.
  destruct acc as [mx fails], kv as [k [|[n v]]]; simpl; intros H; [exact H|].
  destruct (negb (is_function k)); [|exact H].
  destruct (is_FAIL v); [|exact H].
  destruct (mx <? n); [right; discriminate|].
  destruct (n =? mx); [|exact H].
  right. simpl. destruct fails; discriminate.
Qed.

Lemma lastFailures_named (st : Packratter) :
  fst (lastFailures st) = 0 \/ snd (lastFailures st) <> [].
Proof.
  rewrite lastFailures_entries.
  assert (H : fst (0, @nil string) = 0 \/ snd (0, @nil string) <> [])
    by (left; reflexivity).
  revert H. generalize (0, @nil string).
  induction (entries (_memo st)) as [|kv l IH]; intros acc H; simpl.
  - exact H.
  - apply IH. apply lastFailures_step_named. exact H.
Qed.

(** X24.  A parser that is stuck is stuck at the start: when [lastFailures]
    names no pattern, [syntaxError] reports the first element of the
    stream, however far the rules of the grammar went, and on an empty
    stream it reports the end of input after [undefined]. *)
Theorem syntaxError_stuck_at_the_start (this : Scanner) (st : Packratter) :
  snd (lastFailures st) = [] ->
  fst (lastFailures st) = 0 /\
  syntaxError this st =
  SyntaxError
    (match toks this with
     | e :: _ => "At " ++ element_toString (Some e)
     | [] => "Unexpected EOF after undefined"
     end ++ " stuck").
Proof.
  intros Hnil. destruct (lastFailures_named st) as [H0|Hne]; [|contradiction].
  split; [exact H0|]. unfold syntaxError.
  destruct (lastFailures st) as [last fails]. simpl in *. subst.
  destruct (toks this) as [|e l]; reflexivity.
Qed.

Lemma syntaxError_stuck_at_the_start_witness :
  snd (lastFailures after_EOF_probe) = [] /\
  fst (lastFailures after_EOF_probe) = 0 /\
  syntaxError sp_x_scanner after_EOF_probe =
  SyntaxError
    ("At " ++ element_toString (Some (Tok (mkToken " " (mkPos 0 0 1))))
     ++ " stuck").
Proof.
  split; [reflexivity|].
  apply (syntaxError_stuck_at_the_start sp_x_scanner after_EOF_probe).
  reflexivity.
Defined.

(** ** The template, printed *)

(** The code units of a string. *)
Definition units (s : string) : list N := map N_of_ascii (chars s).

(** The mark that [prettyTemplate] puts in place of hole [segnum]: a
    circled digit zero, a circled number up to twenty, or the infinity
    sign. *)
Definition hole_mark (segnum : nat) : N :=
  if segnum =? 0 then 9450%N
  else if (1 <=? segnum) && (segnum <=? 20)
       then (9312 + N.of_nat segnum - 1)%N
       else 8734%N.

(** The loop of [prettyTemplate] from segment [segnum] on. *)
Fixpoint pretty_loop (segnum : nat) (segs : list string) : list (list N) :=
  match segs with
  | [] => []
  | seg :: rest =>
      units seg ::
      match rest with [] => [] | _ :: _ => [[hole_mark segnum]] end
      ++ pretty_loop (S segnum) rest
  end.

(** [Token.prettyTemplate]: the code units of the string it returns. *)
Definition prettyTemplate (template : list string) : list N :=
  List.concat (pretty_loop 0 template).

(** A code unit of a segment, and not a mark. *)
Definition is_text (u : N) : bool := (u <? 256)%N.

Lemma units_text (s : string) : filter is_text (units s) = units s.
Proof.
  unfold units. induction (chars s) as [|c l IH]; simpl; [reflexivity|].
  unfold is_text at 1.
  destruct (N.ltb_spec (N_of_ascii c) 256) as [_|H].
  - rewrite IH. reflexivity.
  - pose proof (N_ascii_bounded c). lia.
Qed.

Lemma hole_mark_not_text (segnum : nat) : is_text (hole_mark segnum) = false.
Proof.
  unfold is_text, hole_mark. apply N.ltb_ge.
  destruct (segnum =? 0); [lia|]. destruct (_ && _); lia.
Qed.

Lemma pretty_loop_hole (segnum : nat) (seg seg' : string)
    (rest : list string) :
  List.concat (pretty_loop segnum (seg :: seg' :: rest)) =
  units seg ++ hole_mark segnum :: List.concat (pretty_loop (S segnum) (seg' :: rest)).
Proof. reflexivity. Qed.

Lemma pretty_loop_shape (segs : list string) :
  forall segnum,
    List.length (List.concat (pretty_loop segnum segs)) =
    list_sum (map String.length segs) + (List.length segs - 1) /\
    filter is_text (List.concat (pretty_loop segnum segs)) =
    List.concat (map units segs).
Proof.
  induction segs as [|seg rest IH]; intros segnum; [split; reflexivity|].
  assert (Hl : List.length (units seg) = String.length seg).
  { unfold units. rewrite length_map, length_chars. reflexivity. }
  destruct rest as [|seg' rest].
  - cbn [app pretty_loop List.concat map]. rewrite !app_nil_r, Hl.
    split; [simpl; lia | apply units_text].
  - destruct (IH (S segnum)) as [IH1 IH2].
    rewrite pretty_loop_hole, length_app, filter_app, units_text, Hl.
    cbn [List.length filter]. rewrite hole_mark_not_text, IH1, IH2.
    split; [simpl; lia | reflexivity].
Qed.

(** X25.  [prettyTemplate] returns the segments with one mark for each
    hole between them: its length is the sum of the lengths of the segments
    and one more for each hole, and without the marks it is the segments
    put together.  The mark tells the hole apart only up to hole 20: the
    marks of the holes 0 to 20 differ from each other, and every hole after
    them has the same mark. *)
Theorem prettyTemplate_marks_holes (template : list string) :
  List.length (prettyTemplate template) =
  list_sum (map String.length template) + (List.length template - 1) /\
  filter is_text (prettyTemplate template) = List.concat (map units template) /\
  (forall i j, i <= 20 -> j <= 20 -> hole_mark i = hole_mark j -> i = j) /\
  (forall i j, 20 < i -> 20 < j -> hole_mark i = hole_mark j).
Proof.
  destruct (pretty_loop_shape template 0) as [H1 H2].
  split; [exact H1|]. split; [exact H2|]. split.
  - intros i j Hi Hj. unfold hole_mark.
    destruct (Nat.eqb_spec i 0), (Nat.eqb_spec j 0);
      destruct (Nat.leb_spec 1 i), (Nat.leb_spec 1 j),
               (Nat.leb_spec i 20), (Nat.leb_spec j 20); cbn [andb]; lia.
  - intros i j Hi Hj. unfold hole_mark.
    destruct (Nat.eqb_spec i 0), (Nat.eqb_spec j 0); try lia.
    destruct (Nat.leb_spec i 20), (Nat.leb_spec j 20); try lia.
    rewrite !andb_false_r. reflexivity.
Qed.

(** ** The action of the binary operators *)

(** A value that an action builds: a string or an array. *)
Inductive ast : Type :=
| Atom (s : string)
| Arr (l : list ast).

(** [binary] of the grammar of [test/testbnf], the action of the rules for
    the binary operators:
    [rights.reduce((prev,[op,right]) => [op,prev,right], left)]. *)
Definition binary (left : ast) (rights : list (ast * ast)) : ast :=
  fold_left (fun prev p => Arr [fst p; prev; snd p]) rights left.

(** How deep the leftmost operand lies. *)
Fixpoint left_spine (n : nat) (a : ast) : option ast :=
  match n with
  | 0 => Some a
  | S n' =>
      match a with
      | Arr [_; l; _] => left_spine n' l
      | _ => None
      end
  end.

Lemma left_spine_plus (n k : nat) :
  forall a b, left_spine n a = Some b ->
              left_spine (n + k) a = left_spine k b.
Proof.
  induction n as [|n IH]; intros a b H; simpl in *.
  - inversion H. reflexivity.
  - destruct a as [s|[|x [|l [|y [|z t]]]]]; try discriminate.
    apply IH. exact H.
Qed.

(** X26.  [binary] associates to the left: the last operator is the
    outermost, with all that came before it as its left operand; so the
    first operand lies as deep as there are operators. *)
Theorem binary_associates_left
    (left : ast) (rights : list (ast * ast)) (op right : ast) :
  binary left (rights ++ [(op, right)]) =
  Arr [op; binary left rights; right] /\
  left_spine (List.length rights) (binary left rights) = Some left.
Proof.
  split.
  - unfold binary. rewrite fold_left_app. reflexivity.
  - clear op right. induction rights as [|[o r] rights IH] using rev_ind.
    + reflexivity.
    + unfold binary in *. rewrite fold_left_app, length_app. simpl.
      rewrite Nat.add_comm. simpl. exact IH.
Qed.

(** ** The texts of the stream *)

(** [Scanner.start]: the text of each element, [undefined] for a hole. *)
Definition Scanner_start (this : Scanner) : list (option string) :=
  map (fun e => match e with
                | Tok t => Some (text t)
                | Hole _ => None
                end) (toks this).

(** The texts put together between the holes. *)
Fixpoint pieces_go (l : list (option string)) : string * list string :=
  match l with
  | [] => (EmptyString, [])
  | Some s :: l' => let (a, r) := pieces_go l' in ((s ++ a)%string, r)
  | None :: l' => let (a, r) := pieces_go l' in (EmptyString, a :: r)
  end.

Definition pieces (l : list (option string)) : list string :=
  let (a, r) := pieces_go l in a :: r.

Lemma pieces_go_unlex (l : list element) :
  pieces_go (map (fun e => match e with
                           | Tok t => Some (text t)
                           | Hole _ => None
                           end) l) = unlex l.
Proof.
  induction l as [|[t|h] l IH]; simpl; [reflexivity| |]; rewrite IH;
    reflexivity.
Qed.

Lemma start_holes (l : list element) :
  List.length
    (filter (fun o : option string =>
               match o with None => true | Some _ => false end)
       (map (fun e => match e with
                      | Tok t => Some (text t)
                      | Hole _ => None
                      end) l))
  = count_holes l.
Proof.
  unfold count_holes. induction l as [|[t|h] l IH]; simpl; auto.
Qed.

(** X27.  A scanner holds its template twice: the constructor keeps the
    template it was given, and the texts that [start] returns, put together
    between the holes, are the segments of that template; there are as many
    holes as segments but one. *)
Theorem Scanner_start_spells_template
    (template0 : list string) (tokenTypeList : list string) (this : Scanner) :
  template0 <> [] ->
  new_Scanner template0 tokenTypeList = Ok this ->
  template this = template0 /\
  pieces (Scanner_start this) = template0 /\
  List.length (filter (fun o => match o with None => true | Some _ => false end)
                 (Scanner_start this))
  = List.length template0 - 1.
Proof.
  intros Hne. unfold new_Scanner.
  destruct (tokensInTemplate template0 TOKEN_RE) as [stream| |] eqn:E;
    try discriminate.
  simpl. intros [= <-]. cbn [template]. split; [reflexivity|].
  unfold pieces, Scanner_start. cbn [toks]. rewrite pieces_go_unlex.
  split; [exact (segments_of_tokensInTemplate _ _ _ Hne E)|].
  unfold tokensInTemplate in E.
  destruct (template_loop_weave _ _ _ _ E) as (tss & Hlen & _ & ->).
  rewrite <- Hlen, <- (weave_count tss 0). apply start_holes.
Qed.

Lemma Scanner_start_spells_template_witness :
  ["a"; "b"]%string <> [] /\
  template a_hole_b = ["a"; "b"]%string /\
  pieces (Scanner_start a_hole_b) = ["a"; "b"]%string /\
  List.length (filter (fun o => match o with None => true | Some _ => false end)
                 (Scanner_start a_hole_b))
  = List.length ["a"; "b"]%string - 1.
Proof.
  split; [discriminate|].
  apply (Scanner_start_spells_template ["a"; "b"]%string [] a_hole_b);
    [discriminate | vm_compute; reflexivity].
Defined.
